(** * Page replacement simulator: the simulation engine of
    [src/utils/algorithms.ts], embedded in Rocq, and the properties
    of it that the specification states.

    Layout.  First the program: the JavaScript values and built-ins the
    engine uses (module [JS]), [parseReferenceString], the records of
    [src/types.ts], the body of the [forEach] callback of [runSimulation]
    ([step]) with one definition per policy branch, and [runSimulation]
    itself.  Then the vocabulary of the properties and the invariant of the
    loop.  Then the lemmas: what the scans of LRU and OPTIMAL and the sweep
    of CLOCK compute, and that every step keeps the invariant.  Then the
    claims of the specification, C1 to C10, and last further properties of
    the engine and of its callers in [src/App.tsx] and
    [src/components]. *)

From Stdlib Require Import ZArith QArith Lqa String Ascii SpecFloat.
From stdpp Require Import base option list gmap strings.

Local Open Scope string_scope.

(** ** JavaScript numbers, strings and the built-ins the engine calls *)
Module JS.

(** A JavaScript number: a binary64 value.  A finite non-zero value is
    [(-1)^neg * m * 2^e] with [m] odd, so that two numbers are [===]
    exactly when they are equal here and are not [NaN].  The model has one
    zero: every operation the engine applies to a page ([===], [includes],
    [indexOf], [Map] keys, [>=]) treats [-0] and [+0] alike. *)
Inductive number : Type :=
| NaN
| Infinity (neg : bool)
| Zero
| Finite (neg : bool) (m : positive) (e : Z).

#[global] Instance number_eq_dec : EqDecision number.
Proof. solve_decision. Defined.

Definition number_code (n : number) : (bool + unit) + (unit + bool * positive * Z) :=
  match n with
  | NaN => inl (inr tt)
  | Infinity neg => inl (inl neg)
  | Zero => inr (inl tt)
  | Finite neg m e => inr (inr (neg, m, e))
  end.

Definition number_decode (c : (bool + unit) + (unit + bool * positive * Z)) : number :=
  match c with
  | inl (inr _) => NaN
  | inl (inl neg) => Infinity neg
  | inr (inl _) => Zero
  | inr (inr (neg, m, e)) => Finite neg m e
  end.

#[global] Instance number_countable : Countable number.
Proof.
  apply (inj_countable' number_code number_decode).
  intros []; reflexivity.
Defined.

(** Drops the trailing zero bits of a mantissa. *)
Fixpoint odd_part (m : positive) (e : Z) : positive * Z :=
  match m with
  | xO m' => odd_part m' (e + 1)
  | _ => (m, e)
  end.

Definition of_spec_float (x : spec_float) : number :=
  match x with
  | S754_zero _ => Zero
  | S754_infinity s => Infinity s
  | S754_nan => NaN
  | S754_finite s m e => let '(m', e') := odd_part m e in Finite s m' e'
  end.

(** The binary64 value nearest to [m * 10^e10] (ties to even), the rounding
    of the [StringToNumber] operation of ECMAScript. *)
Definition round_decimal (neg : bool) (m : N) (e10 : Z) : number :=
  match m with
  | N0 => Zero
  | Npos p =>
      if (0 <=? e10)%Z
      then let v := (Z.pos p * 10 ^ e10)%Z in
           of_spec_float (binary_normalize 53 1024 (if neg then (- v)%Z else v) 0 false)
      else of_spec_float
             (SFdiv 53 1024 (S754_finite neg p 0)
                (S754_finite false (Z.to_pos (10 ^ (- e10))) 0))
  end.

(** A count as a binary64 value.  The counts of the engine are integers
    below 2^32, the bound of an array's length, and binary64 holds every
    integer below 2^53 exactly: mantissa the count, exponent 0. *)
Definition of_count (n : nat) : spec_float :=
  match n with
  | O => S754_zero false
  | S _ => S754_finite false (Pos.of_nat n) 0
  end.

(** [a / b] for two counts: the binary64 division, which rounds the quotient
    to the nearest value, ties to even. *)
Definition divide (a b : nat) : number :=
  of_spec_float (SFdiv 53 1024 (of_count a) (of_count b)).

(** [isNaN(n)] *)
Definition isNaN (n : number) : bool :=
  match n with NaN => true | _ => false end.

(** [n >= 0] *)
Definition ge0 (n : number) : bool :=
  match n with
  | NaN => false
  | Infinity neg => negb neg
  | Zero => true
  | Finite neg _ _ => negb neg
  end.

(** [Number.isInteger(n)] *)
Definition isInteger (n : number) : bool :=
  match n with
  | Zero => true
  | Finite _ _ e => (0 <=? e)%Z
  | _ => false
  end.

(** Strings are sequences of code units below 256.  The white space of
    [String.prototype.trim] and of [StringToNumber] in that range: TAB, LF,
    VT, FF, CR, SP and NBSP. *)
Definition is_white_space (c : ascii) : bool :=
  let n := nat_of_ascii c in
  (((9 <=? n) && (n <=? 13)) || (n =? 32) || (n =? 160))%nat.

Fixpoint trim_start (s : string) : string :=
  match s with
  | String c s' => if is_white_space c then trim_start s' else s
  | EmptyString => EmptyString
  end.

(** [trim_end s] is [s] without its trailing white space. *)
Fixpoint trim_end (s : string) : string :=
  match s with
  | EmptyString => EmptyString
  | String c s' =>
      match trim_end s' with
      | EmptyString => if is_white_space c then EmptyString else String c EmptyString
      | t => String c t
      end
  end.

(** [s.trim()] *)
Definition trim (s : string) : string := trim_end (trim_start s).

(** [s.split(',')]: the pieces between commas; a string without a comma,
    the empty one too, is one piece. *)
Fixpoint split_comma (s : string) : list string :=
  match s with
  | EmptyString => [EmptyString]
  | String c s' =>
      if Ascii.eqb c ","
      then EmptyString :: split_comma s'
      else match split_comma s' with
           | piece :: pieces => String c piece :: pieces
           | [] => [String c EmptyString]
           end
  end.

(** *** [Number(s)]: the StringNumericLiteral grammar *)

Definition digit_value (radix : N) (c : ascii) : option N :=
  let n := N_of_ascii c in
  let v :=
    if (48 <=? n)%N && (n <=? 57)%N then Some (n - 48)%N
    else if (97 <=? n)%N && (n <=? 102)%N then Some (n - 87)%N
    else if (65 <=? n)%N && (n <=? 70)%N then Some (n - 55)%N
    else None in
  match v with
  | Some d => if (d <? radix)%N then Some d else None
  | None => None
  end.

(** The longest prefix of digits of [s] in [radix], read most significant
    first on top of [acc]: its value, its length, and the rest of [s]. *)
Fixpoint read_digits (radix : N) (s : string) (acc : N) (len : nat) : N * nat * string :=
  match s with
  | String c s' =>
      match digit_value radix c with
      | Some d => read_digits radix s' (acc * radix + d)%N (S len)
      | None => (acc, len, s)
      end
  | EmptyString => (acc, len, s)
  end.

(** ExponentPart, optional: [e] or [E], a sign or none, one digit at least,
    up to the end of the string. *)
Definition exponent_part (s : string) : option Z :=
  match s with
  | EmptyString => Some 0%Z
  | String c s' =>
      if Ascii.eqb c "e" || Ascii.eqb c "E" then
        let '(neg, s'') :=
          match s' with
          | String "+" t => (false, t)
          | String "-" t => (true, t)
          | _ => (false, s')
          end in
        match read_digits 10 s'' 0 0%nat with
        | (v, S _, EmptyString) => Some (if neg then (- Z.of_N v)%Z else Z.of_N v)
        | _ => None
        end
      else None
  end.

(** StrUnsignedDecimalLiteral: [Infinity], or digits with an optional
    fraction ([5.], [.5] and [5.5] are literals, [.] is not) and an optional
    exponent. *)
Definition unsigned_decimal (neg : bool) (s : string) : number :=
  if String.eqb s "Infinity" then Infinity neg
  else
    let '(ip, ilen, r1) := read_digits 10 s 0 0%nat in
    let '(m, flen, r2) :=
      match r1 with
      | String "." r => read_digits 10 r ip 0%nat
      | _ => (ip, 0%nat, r1)
      end in
    if Nat.eqb (ilen + flen) 0%nat then NaN
    else match exponent_part r2 with
         | Some ex => round_decimal neg m (ex - Z.of_nat flen)
         | None => NaN
         end.

(** NonDecimalIntegerLiteral: [0x], [0o] or [0b] (either case) and one digit
    at least of that radix; it takes no sign. *)
Definition non_decimal (s : string) : option number :=
  match s with
  | String "0" (String c s') =>
      let radix : option N :=
        if Ascii.eqb c "x" || Ascii.eqb c "X" then Some 16%N
        else if Ascii.eqb c "o" || Ascii.eqb c "O" then Some 8%N
        else if Ascii.eqb c "b" || Ascii.eqb c "B" then Some 2%N
        else None in
      match radix with
      | Some r =>
          match read_digits r s' 0 0%nat with
          | (v, S _, EmptyString) => Some (round_decimal false v 0)
          | _ => Some NaN
          end
      | None => None
      end
  | _ => None
  end.

(** [Number(s)] for a string [s]: white space around the literal is
    dropped, the empty literal is 0, and what is not a literal is [NaN]. *)
Definition Number (s : string) : number :=
  match trim s with
  | EmptyString => Zero
  | String "+" t => unsigned_decimal false t
  | String "-" t => unsigned_decimal true t
  | t => match non_decimal t with
         | Some n => n
         | None => unsigned_decimal false t
         end
  end.

End JS.

Export JS(number, number_eq_dec, number_countable).

(** ** [parseReferenceString] *)

(** [input.split(',').map(s => s.trim())
      .filter(s => s !== '' && !isNaN(Number(s)))
      .map(Number).filter(n => n >= 0)] *)
Definition parseReferenceString (input : string) : list number :=
  filter (fun n => JS.ge0 n = true)
    (map JS.Number
       (filter (fun s => s ≠ EmptyString ∧ JS.isNaN (JS.Number s) = false)
          (map JS.trim (JS.split_comma input)))).

Local Close Scope string_scope.

(** ** The records of [src/types.ts] *)

Inductive AlgorithmType : Type := FIFO | LRU | OPTIMAL | CLOCK.

#[global] Instance AlgorithmType_eq_dec : EqDecision AlgorithmType.
Proof. solve_decision. Defined.

Inductive Status : Type := HIT | FAULT.

#[global] Instance Status_eq_dec : EqDecision Status.
Proof. solve_decision. Defined.

(** The [explanation] of a step, kept as the template the engine fills in
    and the values it fills in; the text itself is not built. *)
Inductive HitNote : Type :=
| NoNote
| UpdatedAccessTime      (* " Updated access time." *)
| SetReferenceBit.       (* " Set Reference Bit to 1." *)

Inductive Explanation : Type :=
| NoExplanation                                          (* the empty string *)
| AlreadyInFrame (page : number) (frame : nat) (note : HitNote)
| LoadedIntoEmptyFrame (page : number) (frame : nat)
| ReplacedOldest (victim : number)
| ReplacedLeastRecentlyUsed (victim : number) (stepsAgo : Z)
| ReplacedNotUsedAgain (victim : number)
| ReplacedLongestDistance (victim : number)
| ReplacedRefBitZero (victim : option number) (frame : nat).

(** [metadata] of a CLOCK step; the other policies record [{}], [None] here. *)
Record Metadata : Type := mkMetadata {
  meta_clockPointer : nat;
  meta_referenceBits : list Z
}.

(** A frame is [null] ([None]) or holds a page. *)
Record SimulationStep : Type := mkStep {
  stepIndex : nat;
  requestedPage : number;
  frames : list (option number);
  status : Status;
  replacedPage : option number;
  explanation : Explanation;
  metadata : option Metadata
}.

(** The two ratios are numbers: binary64 quotients. *)
Record SimulationResult : Type := mkResult {
  algorithm : AlgorithmType;
  steps : list SimulationStep;
  totalHits : nat;
  totalFaults : nat;
  hitRatio : number;
  faultRatio : number
}.

(** What a call does: it returns, or it throws. *)
Inductive Error : Type := RangeError.

Inductive Outcome (A : Type) : Type :=
| Returns (a : A)
| Throws (e : Error).
Arguments Returns {A} a.
Arguments Throws {A} e.

(** ** Array operations *)

(** [arr.indexOf(x)]: the first index holding [x]; [None] is [-1].  Both
    [indexOf] and [includes] compare numbers as [===] does as long as none
    is [NaN], and the parser returns no [NaN]. *)
Definition indexOf {A} `{EqDecision A} (arr : list A) (x : A) : option nat :=
  fst <$> list_find (fun y => y = x) arr.

(** [frames.includes(page)] *)
Definition includes (arr : list (option number)) (page : number) : bool :=
  bool_decide (Some page ∈ arr).

(** [arr[i] = v].  Inside the array the element is overwritten.  Past its
    end JavaScript grows the array up to index [i], leaving holes that read
    as [undefined]; the model puts [hole] there: [null] in a frame table,
    and in the reference bits 1, which like [undefined] is not [=== 0].  The
    engine writes inside its arrays only: in every state of a run both
    arrays have [frameCount] elements and the pointer is an index of them
    ([reachable_inv]). *)
Definition array_set {A} (hole : A) (arr : list A) (i : nat) (v : A) : list A :=
  if decide (i < length arr) then <[i := v]> arr
  else arr ++ replicate (i - length arr) hole ++ [v].

(** [Array(frameCount).fill(v)]: the constructor throws a [RangeError]
    unless its argument is an integer from 0 to 2^32 - 1.  The frame count
    is an integer here; a number that is not one throws as well. *)
Definition Array_fill {A} (frameCount : Z) (v : A) : Outcome (list A) :=
  if decide (0 <= frameCount < 2 ^ 32)%Z
  then Returns (replicate (Z.to_nat frameCount) v)
  else Throws RangeError.

(** ** The engine: the variables [runSimulation] declares before its loop *)

Record State : Type := mkState {
  hits : nat;
  faults : nat;
  currentFrames : list (option number);
  fifoQueue : list number;
  lruMap : gmap number nat;
  referenceBits : list Z;
  clockPointer : nat;
  trace : list SimulationStep      (* [steps] *)
}.

(** The literal [-1] with which the LRU and OPTIMAL branches initialise
    [pageToEvict]. *)
Definition minus_one : number := JS.Finite true 1 0.

(** What the replacement branch of a policy leaves behind. *)
Record Replacement : Type := mkReplacement {
  indexToReplace : option nat;               (* [None] is [-1] *)
  r_replacedPage : option number;
  r_explanation : Explanation;
  r_fifoQueue : list number;
  r_lruMap : gmap number nat;
  r_nextRefBits : list Z;
  r_clockPointer : nat;
  r_attempts : nat                           (* CLOCK: visits of the sweep *)
}.

(** *** FIFO (lines 81-88) *)
Definition replace_FIFO (st : State) (nextFrames : list (option number))
    (nextRefBits : list Z) (page : number) : Replacement :=
  match fifoQueue st with
  | pageToEvict :: queue =>
      mkReplacement (indexOf nextFrames (Some pageToEvict)) (Some pageToEvict)
        (ReplacedOldest pageToEvict) (queue ++ [page]) (lruMap st)
        nextRefBits (clockPointer st) 0
  | [] =>
      mkReplacement None None NoExplanation [] (lruMap st)
        nextRefBits (clockPointer st) 0
  end.

(** *** LRU (lines 89-109) *)

(** [lruMap.get(p) ?? -1] *)
Definition lastAccessOf (m : gmap number nat) (p : number) : Z :=
  match m !! p with
  | Some i => Z.of_nat i
  | None => (-1)%Z
  end.

(** One call of the [forEach] callback of the scan, on the pair
    [(minLastAccess, pageToEvict)]; [minLastAccess] is [None] while it is
    [Infinity]. *)
Definition lru_visit (m : gmap number nat) (acc : option Z * number)
    (p : option number) : option Z * number :=
  match p with
  | Some p =>
      let lastAccess := lastAccessOf m p in
      match acc.1 with
      | None => (Some lastAccess, p)
      | Some minLastAccess =>
          if (lastAccess <? minLastAccess)%Z then (Some lastAccess, p) else acc
      end
  | None => acc
  end.

Definition lru_scan (m : gmap number nat) (nextFrames : list (option number))
    : option Z * number :=
  foldl (lru_visit m) (None, minus_one) nextFrames.

(** [lruMap.get(pageToEvict) || 0] *)
Definition lastAccessOr0 (m : gmap number nat) (p : number) : Z :=
  match m !! p with
  | Some i => Z.of_nat i
  | None => 0%Z
  end.

Definition replace_LRU (st : State) (nextFrames : list (option number))
    (nextRefBits : list Z) (page : number) (stepIndex : nat) : Replacement :=
  let pageToEvict := (lru_scan (lruMap st) nextFrames).2 in
  let lruMap' := <[page := stepIndex]> (lruMap st) in
  if decide (pageToEvict ≠ minus_one) then
    mkReplacement (indexOf nextFrames (Some pageToEvict)) (Some pageToEvict)
      (ReplacedLeastRecentlyUsed pageToEvict
         (Z.of_nat stepIndex - lastAccessOr0 (lruMap st) pageToEvict))
      (fifoQueue st) lruMap' nextRefBits (clockPointer st) 0
  else
    mkReplacement None None NoExplanation (fifoQueue st) lruMap'
      nextRefBits (clockPointer st) 0.

(** *** OPTIMAL (lines 110-147) *)

(** The variables of the scan; [furthestDistance] is [None] once it is
    [Infinity]. *)
Record OptScan : Type := mkOptScan {
  furthestDistance : option Z;
  o_pageToEvict : number;
  isInfinite : bool
}.

(** [nextUseIndex > furthestDistance] *)
Definition further (nextUseIndex : Z) (furthestDistance : option Z) : bool :=
  match furthestDistance with
  | Some d => (d <? nextUseIndex)%Z
  | None => false
  end.

Definition opt_visit (pages : list number) (stepIndex : nat) (acc : OptScan)
    (p : option number) : OptScan :=
  match p with
  | Some p =>
      let remainingPages := drop (stepIndex + 1) pages in
      match indexOf remainingPages p with
      | None =>
          if negb (isInfinite acc) then mkOptScan None p true else acc
      | Some nextUseIndex =>
          if negb (isInfinite acc) && further (Z.of_nat nextUseIndex) (furthestDistance acc)
          then mkOptScan (Some (Z.of_nat nextUseIndex)) p (isInfinite acc)
          else acc
      end
  | None => acc
  end.

Definition opt_scan (pages : list number) (stepIndex : nat)
    (nextFrames : list (option number)) : OptScan :=
  foldl (opt_visit pages stepIndex) (mkOptScan (Some (-1)%Z) minus_one false) nextFrames.

Definition replace_OPTIMAL (pages : list number) (st : State)
    (nextFrames : list (option number)) (nextRefBits : list Z)
    (stepIndex : nat) : Replacement :=
  let scan := opt_scan pages stepIndex nextFrames in
  let pageToEvict := o_pageToEvict scan in
  if decide (pageToEvict ≠ minus_one) then
    mkReplacement (indexOf nextFrames (Some pageToEvict)) (Some pageToEvict)
      (match furthestDistance scan with
       | None => ReplacedNotUsedAgain pageToEvict
       | Some _ => ReplacedLongestDistance pageToEvict
       end)
      (fifoQueue st) (lruMap st) nextRefBits (clockPointer st) 0
  else
    mkReplacement None None NoExplanation (fifoQueue st) (lruMap st)
      nextRefBits (clockPointer st) 0.

(** *** CLOCK (lines 148-173) *)

(** The [while] loop of the sweep.  [budget] is what is left of the bound:
    [frameCount * 3 - attempts].  A bit read outside the array is
    [undefined], which is not [=== 0].  The remainder is taken by a positive
    [frameCount] only: with no frame the budget is 0 and the loop body does
    not run. *)
Fixpoint clock_sweep (frameCount : nat) (st : State)
    (nextFrames : list (option number)) (budget : nat) (nextRefBits : list Z)
    (clockPointer : nat) (attempts : nat) : Replacement :=
  match budget with
  | O =>
      mkReplacement None None NoExplanation (fifoQueue st) (lruMap st)
        nextRefBits clockPointer attempts
  | S budget' =>
      match nextRefBits !! clockPointer with
      | Some 0%Z =>
          let replacedPage := mjoin (nextFrames !! clockPointer) in
          mkReplacement (Some clockPointer) replacedPage
            (ReplacedRefBitZero replacedPage (clockPointer + 1))
            (fifoQueue st) (lruMap st) nextRefBits
            ((clockPointer + 1) mod frameCount) (S attempts)
      | _ =>
          clock_sweep frameCount st nextFrames budget'
            (array_set 1%Z nextRefBits clockPointer 0%Z)
            ((clockPointer + 1) mod frameCount) (S attempts)
      end
  end.

Definition replace_CLOCK (frameCount : nat) (st : State)
    (nextFrames : list (option number)) (nextRefBits : list Z) : Replacement :=
  let r := clock_sweep frameCount st nextFrames (frameCount * 3) nextRefBits
             (clockPointer st) 0 in
  match indexToReplace r with
  | Some i =>
      mkReplacement (Some i) (r_replacedPage r) (r_explanation r) (r_fifoQueue r)
        (r_lruMap r) (array_set 1%Z (r_nextRefBits r) i 1%Z) (r_clockPointer r)
        (r_attempts r)
  | None => r
  end.

Definition replace (pages : list number) (frameCount : nat)
    (algorithm : AlgorithmType) (st : State) (nextFrames : list (option number))
    (nextRefBits : list Z) (page : number) (stepIndex : nat) : Replacement :=
  match algorithm with
  | FIFO => replace_FIFO st nextFrames nextRefBits page
  | LRU => replace_LRU st nextFrames nextRefBits page stepIndex
  | OPTIMAL => replace_OPTIMAL pages st nextFrames nextRefBits stepIndex
  | CLOCK => replace_CLOCK frameCount st nextFrames nextRefBits
  end.

(** *** The callback of [pages.forEach] (lines 34-201) *)

(** Lines 182-200: the metadata, the two assignments and [steps.push]. *)
Definition record (algorithm : AlgorithmType) (stepIndex : nat) (page : number)
    (hits faults : nat) (nextFrames : list (option number)) (status : Status)
    (replacedPage : option number) (explanation : Explanation)
    (fifoQueue : list number) (lruMap : gmap number nat)
    (nextRefBits : list Z) (clockPointer : nat) (trace : list SimulationStep) : State :=
  let stepMetadata :=
    match algorithm with
    | CLOCK => Some (mkMetadata clockPointer nextRefBits)
    | _ => None
    end in
  mkState hits faults nextFrames fifoQueue lruMap nextRefBits clockPointer
    (trace ++ [mkStep stepIndex page nextFrames status replacedPage explanation
                 stepMetadata]).

Definition step (pages : list number) (frameCount : nat)
    (algorithm : AlgorithmType) (st : State) (page : number) (stepIndex : nat) : State :=
  let isHit := includes (currentFrames st) page in
  let nextFrames := currentFrames st in
  let nextRefBits := referenceBits st in
  if isHit then
    (* [indexOf] gives [-1] when it finds nothing, and the text names frame 0 *)
    let frame := from_option S 0 (indexOf (currentFrames st) (Some page)) in
    match algorithm with
    | LRU =>
        record algorithm stepIndex page (hits st + 1) (faults st) nextFrames HIT None
          (AlreadyInFrame page frame UpdatedAccessTime)
          (fifoQueue st) (<[page := stepIndex]> (lruMap st)) nextRefBits
          (clockPointer st) (trace st)
    | CLOCK =>
        let nextRefBits' :=
          match indexOf (currentFrames st) (Some page) with
          | Some hitIndex => array_set 1%Z nextRefBits hitIndex 1%Z
          | None => nextRefBits
          end in
        record algorithm stepIndex page (hits st + 1) (faults st) nextFrames HIT None
          (AlreadyInFrame page frame SetReferenceBit)
          (fifoQueue st) (lruMap st) nextRefBits' (clockPointer st) (trace st)
    | _ =>
        record algorithm stepIndex page (hits st + 1) (faults st) nextFrames HIT None
          (AlreadyInFrame page frame NoNote)
          (fifoQueue st) (lruMap st) nextRefBits (clockPointer st) (trace st)
    end
  else
    match indexOf nextFrames None with
    | Some emptyIndex =>
        let nextFrames' := array_set None nextFrames emptyIndex (Some page) in
        let explanation := LoadedIntoEmptyFrame page (emptyIndex + 1) in
        match algorithm with
        | FIFO =>
            record algorithm stepIndex page (hits st) (faults st + 1) nextFrames' FAULT
              None explanation (fifoQueue st ++ [page]) (lruMap st) nextRefBits
              (clockPointer st) (trace st)
        | LRU =>
            record algorithm stepIndex page (hits st) (faults st + 1) nextFrames' FAULT
              None explanation (fifoQueue st) (<[page := stepIndex]> (lruMap st))
              nextRefBits (clockPointer st) (trace st)
        | CLOCK =>
            record algorithm stepIndex page (hits st) (faults st + 1) nextFrames' FAULT
              None explanation (fifoQueue st) (lruMap st)
              (array_set 1%Z nextRefBits emptyIndex 1%Z)
              ((clockPointer st + 1) mod frameCount) (trace st)
        | OPTIMAL =>
            record algorithm stepIndex page (hits st) (faults st + 1) nextFrames' FAULT
              None explanation (fifoQueue st) (lruMap st) nextRefBits
              (clockPointer st) (trace st)
        end
    | None =>
        let r := replace pages frameCount algorithm st nextFrames nextRefBits
                   page stepIndex in
        let nextFrames' :=
          match indexToReplace r with
          | Some i => array_set None nextFrames i (Some page)
          | None => nextFrames
          end in
        record algorithm stepIndex page (hits st) (faults st + 1) nextFrames' FAULT
          (r_replacedPage r) (r_explanation r) (r_fifoQueue r) (r_lruMap r)
          (r_nextRefBits r) (r_clockPointer r) (trace st)
    end.

(** [pages.forEach((page, stepIndex) => ...)], from index [stepIndex] on. *)
Fixpoint forEach (body : State -> number -> nat -> State) (st : State)
    (pages : list number) (stepIndex : nat) : State :=
  match pages with
  | [] => st
  | page :: rest => forEach body (body st page stepIndex) rest (S stepIndex)
  end.

(** Lines 18-32. *)
Definition initial (currentFrames : list (option number)) (referenceBits : list Z) : State :=
  mkState 0 0 currentFrames [] ∅ referenceBits 0 [].

(** Lines 203-210. *)
Definition result (algorithm : AlgorithmType) (pages : list number) (st : State)
    : SimulationResult :=
  let n := length pages in
  mkResult algorithm (trace st) (hits st) (faults st)
    (if decide (0 < n) then JS.divide (hits st) n else JS.Zero)
    (if decide (0 < n) then JS.divide (faults st) n else JS.Zero).

(** The engine on a parsed reference sequence: lines 18-210. *)
Definition simulate (pages : list number) (frameCount : Z)
    (algorithm : AlgorithmType) : Outcome SimulationResult :=
  match Array_fill frameCount (@None number), Array_fill frameCount 0%Z with
  | Returns currentFrames, Returns referenceBits =>
      Returns (result algorithm pages
                 (forEach (step pages (Z.to_nat frameCount) algorithm)
                    (initial currentFrames referenceBits) pages 0))
  | Throws e, _ | _, Throws e => Throws e
  end.

Definition runSimulation (rawRefString : string) (frameCount : Z)
    (algorithm : AlgorithmType) : Outcome SimulationResult :=
  simulate (parseReferenceString rawRefString) frameCount algorithm.

(** The engine's variables when the callback is entered for the reference
    of index [k]: after the [k] first references. *)
Definition state_at (pages : list number) (frameCount : nat)
    (algorithm : AlgorithmType) (k : nat) : State :=
  forEach (step pages frameCount algorithm)
    (initial (replicate frameCount None) (replicate frameCount 0%Z))
    (take k pages) 0.

(** ** The callers of the engine *)

(** *** [App.tsx]: [handleSimulate] (lines 25-40) *)

(** [Math.max(1, Math.min(10, Math.floor(frameCount)))].  The frame count
    of the component is an integer, which [Math.floor] leaves as it is: the
    state is set to 3, to 4 or to [parseInt(...) || 1]. *)
Definition parsedFrames (frameCount : Z) : Z := Z.max 1 (Z.min 10 frameCount).

(** One call after another: what the first throws, the sequence throws. *)
Definition and_then {A B} (o : Outcome A) (k : A -> Outcome B) : Outcome B :=
  match o with
  | Returns a => k a
  | Throws e => Throws e
  end.

(** [handleSimulate]: the value it passes to [setResults], [None] when it
    returns before simulating. *)
Definition handleSimulate (refString : string) (frameCount : Z)
    : Outcome (option (list SimulationResult)) :=
  if decide (JS.trim refString = EmptyString) then Returns None
  else
    and_then (runSimulation refString (parsedFrames frameCount) FIFO) (fun fifoRes =>
    and_then (runSimulation refString (parsedFrames frameCount) LRU) (fun lruRes =>
    and_then (runSimulation refString (parsedFrames frameCount) OPTIMAL) (fun optRes =>
    and_then (runSimulation refString (parsedFrames frameCount) CLOCK) (fun clockRes =>
    Returns (Some [fifoRes; lruRes; optRes; clockRes]))))).

(** *** [App.tsx]: the step of the playback (lines 50-56, 63-68, 88, 277, 290) *)

(** [results.length > 0 ? results[0].steps.length - 1 : 0] *)
Definition maxSteps (results : list SimulationResult) : Z :=
  match results with
  | r0 :: _ => Z.of_nat (length (steps r0)) - 1
  | [] => 0
  end.

(** The effect of lines 51-56, run when the results or the current step
    have changed: the current step it leaves. *)
Definition clampStep (results : list SimulationResult) (currentStep : Z) : Z :=
  match results with
  | r0 :: _ =>
      let max := (Z.of_nat (length (steps r0)) - 1)%Z in
      if (max <? currentStep)%Z then max else currentStep
  | [] => currentStep
  end.

(** [Math.max(0, p - 1)] *)
Definition previousStep (p : Z) : Z := Z.max 0 (p - 1).

(** [Math.min(maxSteps, p + 1)] *)
Definition nextStep (results : list SimulationResult) (p : Z) : Z :=
  Z.min (maxSteps results) (p + 1).

(** One tick of the playback timer (lines 63-69). *)
Definition playbackStep (results : list SimulationResult) (prev : Z) : Z :=
  if (maxSteps results <=? prev)%Z then prev else (prev + 1)%Z.

(** [result.steps[currentStep]] of [VisualizerGrid.tsx], line 32; [None] is
    [undefined]. *)
Definition activeStepData (result : SimulationResult) (currentStep : Z)
    : option SimulationStep :=
  if (currentStep <? 0)%Z then None else steps result !! Z.to_nat currentStep.

(** [results.find(r => r.algorithm === activeTab)], line 87; [None] is
    [undefined]. *)
Definition getActiveResult (results : list SimulationResult)
    (activeTab : AlgorithmType) : option SimulationResult :=
  snd <$> list_find (fun r => algorithm r = activeTab) results.

(** *** [App.tsx]: [generateRandomString] (lines 81-85) *)

(** The text of an integer from 0 to 9: its digit. *)
Definition digit_string (d : nat) : string :=
  String (ascii_of_nat (48 + d)) EmptyString.

(** [items.join(sep)] *)
Fixpoint join (sep : string) (items : list string) : string :=
  match items with
  | [] => EmptyString
  | x :: rest =>
      match rest with
      | [] => x
      | _ :: _ => (x ++ sep ++ join sep rest)%string
      end
  end.

(** [arr.join(', ')] for the array [arr] of the integers drawn, each from 0
    to 9; the drawing itself ([Math.random]) is not modelled. *)
Definition randomString (arr : list nat) : string :=
  join ", "%string (map digit_string arr).

(** *** [SimulationReport.tsx]: a row of the report (lines 31-34) *)

(** A step or a table read in the steps before the first is [undefined],
    and reading its [frames] throws; [None] stands for that. *)
Definition report_framesBefore (result : SimulationResult) (idx : nat)
    (step : SimulationStep) : option (list (option number)) :=
  match idx with
  | 0 => Some (replicate (length (frames step)) None)
  | S _ => frames <$> steps result !! (idx - 1)
  end.

(** What [evictedPage] holds: [null], [undefined] (nothing found) or a page. *)
Inductive Evicted : Type :=
| EvictedNull
| EvictedUndefined
| EvictedPage (page : number).

(** The test of the [find]:
    [page !== null && page !== step.requestedPage && !step.frames.includes(page)] *)
Definition left_the_table (step : SimulationStep) (page : option number) : Prop :=
  match page with
  | Some p => p <> requestedPage step /\ includes (frames step) p = false
  | None => False
  end.

#[global] Instance left_the_table_dec step page : Decision (left_the_table step page).
Proof. destruct page; simpl; apply _. Defined.

Definition report_evictedPage (result : SimulationResult) (idx : nat)
    (step : SimulationStep) : option Evicted :=
  match idx with
  | 0 => Some EvictedNull
  | S _ =>
      match report_framesBefore result idx step with
      | Some framesBefore =>
          Some match list_find (left_the_table step) framesBefore with
               | Some (_, Some p) => EvictedPage p
               | _ => EvictedUndefined
               end
      | None => None
      end
  end.

(** The page the "Evicted" cell shows; [None] is the dash
    (lines 63-69). *)
Definition report_evictedCell (evictedPage : Evicted) : option number :=
  match evictedPage with
  | EvictedPage p => Some p
  | _ => None
  end.

(** *** [VisualizerGrid.tsx]: the highlight of a cell (lines 106-115) *)

(** [fr[frameIdx] === page] *)
Definition cell_holds (fr : list (option number)) (frameIdx : nat) (page : number) : bool :=
  bool_decide (fr !! frameIdx = Some (Some page)).

(** [isChanged]; [None] when [result.steps[stepIdx - 1]] is [undefined] and
    reading its [frames] throws.  The last operand is reached only when the
    two before it hold. *)
Definition isChanged (result : SimulationResult) (stepIdx : nat)
    (step : SimulationStep) (frameIdx : nat) : option bool :=
  if bool_decide (status step = FAULT)
     && cell_holds (frames step) frameIdx (requestedPage step)
  then
    match stepIdx with
    | 0 => Some true
    | S _ =>
        (fun previous => negb (cell_holds (frames previous) frameIdx (requestedPage step)))
          <$> steps result !! (stepIdx - 1)
    end
  else Some false.

(** [isHitFrame] *)
Definition isHitFrame (step : SimulationStep) (frameIdx : nat) : bool :=
  bool_decide (status step = HIT)
  && cell_holds (frames step) frameIdx (requestedPage step).

(** * The vocabulary of the properties *)

(** No page occupies two slots. *)
Definition no_duplicates (fr : list (option number)) : Prop :=
  forall i j p, fr !! i = Some (Some p) -> fr !! j = Some (Some p) -> i = j.

(** The pages a frame table holds, in slot order. *)
Definition residents (fr : list (option number)) : list number := omap id fr.

(** A reference bit is 0 or 1. *)
Definition is_bit (b : Z) : Prop := b = 0%Z \/ b = 1%Z.

(** The distance of a page to its next use: its index in
    [pages.slice(stepIndex + 1)], [None] when it is not used again. *)
Definition next_use (pages : list number) (stepIndex : nat) (p : number) : option nat :=
  indexOf (drop (stepIndex + 1) pages) p.

(** [sooner a b]: the distance [a] is strictly less than [b]; no next use
    is further than any. *)
Definition sooner (a b : option nat) : Prop :=
  match a, b with
  | Some x, Some y => x < y
  | Some _, None => True
  | None, _ => False
  end.

(** ** What the scans and the sweep have established *)

(** What the scan holds after a prefix of the frames: nothing while it has
    met no page, else the first of the pages of least last access. *)
Definition lru_found (m : gmap number nat) (fr : list (option number))
    (acc : option Z * number) : Prop :=
  match acc.1 with
  | None => acc.2 = minus_one /\ forall i, fr !! i = Some None \/ fr !! i = None
  | Some least =>
      least = lastAccessOf m acc.2 /\
      exists i, fr !! i = Some (Some acc.2) /\
        (forall j p, fr !! j = Some (Some p) -> (lastAccessOf m acc.2 <= lastAccessOf m p)%Z) /\
        (forall j p, j < i -> fr !! j = Some (Some p) -> (lastAccessOf m acc.2 < lastAccessOf m p)%Z)
  end.

(** The same for the scan of OPTIMAL: the first of the pages whose next use
    is furthest. *)
Definition opt_found (pages : list number) (stepIndex : nat)
    (fr : list (option number)) (acc : OptScan) : Prop :=
  let dist := next_use pages stepIndex in
  (acc = mkOptScan (Some (-1)%Z) minus_one false /\
   forall i, fr !! i = Some None \/ fr !! i = None) \/
  (furthestDistance acc = Z.of_nat <$> dist (o_pageToEvict acc) /\
   isInfinite acc = bool_decide (dist (o_pageToEvict acc) = None) /\
   exists i, fr !! i = Some (Some (o_pageToEvict acc)) /\
     (forall j p, fr !! j = Some (Some p) -> ~ sooner (dist (o_pageToEvict acc)) (dist p)) /\
     (forall j p, j < i -> fr !! j = Some (Some p) -> sooner (dist p) (dist (o_pageToEvict acc)))).

(** What the sweep has done when it stops after passing [d] slots: it stands
    on a slot whose bit is 0, the slots it passed had bit 1 and have bit 0,
    and the other bits are as they were. *)
Definition swept (n : nat) (st : State) (fr : list (option number))
    (bits : list Z) (ptr : nat) (att0 d0 : nat) (r : Replacement) : Prop :=
  exists d, d0 <= d <= n /\
    indexToReplace r = Some ((ptr + d) mod n) /\
    r_attempts r = att0 + (d - d0) + 1 /\
    r_clockPointer r = ((ptr + d) mod n + 1) mod n /\
    r_replacedPage r = mjoin (fr !! ((ptr + d) mod n)) /\
    r_explanation r =
      ReplacedRefBitZero (mjoin (fr !! ((ptr + d) mod n))) ((ptr + d) mod n + 1) /\
    r_fifoQueue r = fifoQueue st /\ r_lruMap r = lruMap st /\
    length (r_nextRefBits r) = n /\
    Forall is_bit (r_nextRefBits r) /\
    r_nextRefBits r !! ((ptr + d) mod n) = Some 0%Z /\
    (forall j, j < d ->
       bits !! ((ptr + j) mod n) = Some 1%Z /\
       r_nextRefBits r !! ((ptr + j) mod n) = Some 0%Z) /\
    (forall s, s < n -> (forall j, j < d -> s <> (ptr + j) mod n) ->
       r_nextRefBits r !! s = bits !! s).

(** ** The trace *)

(** The index of the last FAULT step of the trace that requested [p]. *)
Definition loaded_at (tr : list SimulationStep) (p : number) : option nat :=
  foldl (fun acc s =>
           if decide (status s = FAULT /\ requestedPage s = p)
           then Some (stepIndex s) else acc) None tr.

(** [p] was loaded before [q]. *)
Definition earlier (tr : list SimulationStep) (p q : number) : Prop :=
  exists tp tq, loaded_at tr p = Some tp /\ loaded_at tr q = Some tq /\ tp < tq.

(** The frame table a step starts from: the one the step before recorded,
    the all-empty table for the first step. *)
Definition frames_before (n : nat) (tr : list SimulationStep) (i : nat)
    : list (option number) :=
  match i with
  | 0 => replicate n None
  | S j => from_option frames (replicate n None) (tr !! j)
  end.

(** What a step records, against the table it started from. *)
Definition step_ok (n : nat) (before : list (option number)) (s : SimulationStep) : Prop :=
  length (frames s) = n /\
  no_duplicates (frames s) /\
  (status s = HIT <-> Some (requestedPage s) ∈ before) /\
  (status s = HIT -> replacedPage s = None /\ frames s = before) /\
  (status s = FAULT -> forall i, indexOf before None = Some i ->
     replacedPage s = None /\ frames s = <[i := Some (requestedPage s)]> before) /\
  (status s = FAULT -> indexOf before None = None ->
     (n = 0 /\ replacedPage s = None /\ frames s = before) \/
     (exists i v, before !! i = Some (Some v) /\ replacedPage s = Some v /\
        frames s = <[i := Some (requestedPage s)]> before)).

(** ** The invariant of the loop *)

(** FIFO: the queue lists the resident pages, in the order of their loading. *)
Definition fifo_inv (st : State) : Prop :=
  fifoQueue st ≡ₚ residents (currentFrames st) /\
  (forall i j p q, i < j -> fifoQueue st !! i = Some p ->
     fifoQueue st !! j = Some q -> earlier (trace st) p q) /\
  Forall (fun p => is_Some (loaded_at (trace st) p)) (fifoQueue st).

(** LRU: the map holds, for each page referenced so far, the index of its
    last reference. *)
Definition lru_inv (pages : list number) (k : nat) (st : State) : Prop :=
  forall p,
    match lruMap st !! p with
    | Some i => i < k /\ pages !! i = Some p /\
                forall j, i < j < k -> pages !! j <> Some p
    | None => p ∉ take k pages
    end.

(** CLOCK: one bit per frame, and the pointer on a frame. *)
Definition clock_inv (n : nat) (st : State) : Prop :=
  length (referenceBits st) = n /\
  (clockPointer st < n \/ n = 0) /\
  Forall is_bit (referenceBits st).

Record Inv (pages : list number) (n : nat) (alg : AlgorithmType) (k : nat)
    (st : State) : Prop := mkInv {
  inv_length : length (currentFrames st) = n;
  inv_nodup : no_duplicates (currentFrames st);
  inv_resident : forall p, Some p ∈ currentFrames st -> p ∈ take k pages;
  inv_trace_length : length (trace st) = k;
  inv_hits : hits st = length (filter (fun s => status s = HIT) (trace st));
  inv_faults : faults st = length (filter (fun s => status s = FAULT) (trace st));
  inv_current : currentFrames st = frames_before n (trace st) k;
  inv_trace : forall i s, trace st !! i = Some s ->
    stepIndex s = i /\ pages !! i = Some (requestedPage s) /\
    step_ok n (frames_before n (trace st) i) s;
  inv_fifo : alg = FIFO -> fifo_inv st;
  inv_lru : alg = LRU -> lru_inv pages k st;
  inv_clock : alg = CLOCK -> clock_inv n st
}.

(** ** The value of a number *)

(** The rational a finite number stands for: [m * 2^e], negated when [neg];
    NaN and the infinities stand for none. *)
Definition value (x : number) : option Q :=
  match x with
  | JS.Zero => Some 0%Q
  | JS.Finite neg m e =>
      let v := (Z.pos m * 2 ^ Z.max e 0 # Z.to_pos (2 ^ Z.max (- e) 0))%Q in
      Some (if neg then (- v)%Q else v)
  | _ => None
  end.

(** What the record of a shifted mantissa says of the real [X / D] it
    approximates: the mantissa is its integer part, and the round and sticky
    bits tell where it lies between the mantissa and the next integer. *)
Definition located (mrs : shr_record) (X D : Z) : Prop :=
  let m := shr_m mrs in
  match shr_r mrs, shr_s mrs with
  | false, false => X = (m * D)%Z
  | false, true => (m * D < X /\ 2 * X < (2 * m + 1) * D)%Z
  | true, false => (2 * X = (2 * m + 1) * D)%Z
  | true, true => ((2 * m + 1) * D < 2 * X /\ X < (m + 1) * D)%Z
  end.

(** ** Further vocabulary *)

(** No page sits behind an empty slot. *)
Definition packed (fr : list (option number)) : Prop :=
  forall i j p, fr !! i = Some None -> fr !! j = Some (Some p) -> j < i.

(** The number whose value is the natural number [n] (exact below 2^53). *)
Definition number_of_nat (n : nat) : number :=
  match N.of_nat n with
  | N0 => JS.Zero
  | Npos p => let '(m, e) := JS.odd_part p 0 in JS.Finite false m e
  end.

(** The pages of a reference sequence, each once. *)
Definition distinct (pages : list number) : list number := remove_dups pages.

(** * Properties *)

(** ** The built-ins on examples *)

Example split_comma_examples :
  JS.split_comma ""%string = [""%string] /\
  JS.split_comma "7, 0,,1,"%string =
    ["7"%string; " 0"%string; ""%string; "1"%string; ""%string].
Proof. by vm_compute. Qed.

Example trim_examples :
  JS.trim "  7 "%string = "7"%string /\
  JS.trim " 1 2 "%string = "1 2"%string /\
  JS.trim "   "%string = ""%string.
Proof. by vm_compute. Qed.

Example Number_examples :
  JS.Number "7"%string = JS.Finite false 7 0 /\
  JS.Number "100"%string = JS.Finite false 25 2 /\
  JS.Number "-3"%string = JS.Finite true 3 0 /\
  JS.Number "1.5"%string = JS.Finite false 3 (-1) /\
  JS.Number "0.1"%string = JS.Finite false 3602879701896397 (-55) /\
  JS.Number "1e2"%string = JS.Finite false 25 2 /\
  JS.Number "0x1F"%string = JS.Finite false 31 0 /\
  JS.Number "9007199254740993"%string = JS.Finite false 1 53 /\
  JS.Number "1e400"%string = JS.Infinity false /\
  JS.Number "-0"%string = JS.Zero /\
  JS.Number ""%string = JS.Zero /\
  JS.Number "12abc"%string = JS.NaN /\
  JS.Number "1 2"%string = JS.NaN /\
  JS.Number "."%string = JS.NaN /\
  JS.Number "+0x10"%string = JS.NaN.
Proof. by vm_compute. Qed.

Example divide_examples :
  JS.divide 1 2 = JS.Finite false 1 (-1) /\
  JS.divide 3 3 = JS.Finite false 1 0 /\
  JS.divide 0 5 = JS.Zero /\
  JS.divide 1 10 = JS.Finite false 3602879701896397 (-55) /\
  JS.divide 2 3 = JS.Finite false 6004799503160661 (-53) /\
  JS.divide 1 0 = JS.Infinity false /\
  JS.divide 0 0 = JS.NaN.
Proof. by vm_compute. Qed.

Example parseReferenceString_example :
  parseReferenceString " 7 ,0 ,, x, -3, 7, 12abc, 1 2"%string =
    [JS.Finite false 7 0; JS.Zero; JS.Finite false 7 0].
Proof. by vm_compute. Qed.


(** ** Arrays *)

Section Arrays.
Context {A : Type} `{EqDecision A}.
Implicit Types (arr : list A) (x v : A) (i j : nat).

Lemma indexOf_Some arr x i :
  indexOf arr x = Some i <->
  arr !! i = Some x /\ forall j, j < i -> arr !! j <> Some x.
Proof.
  unfold indexOf. split.
  - intros H. destruct (list_find _ arr) as [[i' y]|] eqn:E; simplify_eq/=.
    apply list_find_Some in E as (Hi & -> & Hmin). split; [done|].
    intros j Hj Hx. exact (Hmin j x Hx Hj eq_refl).
  - intros [Hi Hmin].
    assert (list_find (fun y => y = x) arr = Some (i, x)) as ->; [|done].
    apply list_find_Some. split_and!; [done..|].
    intros j y Hy Hj ->. exact (Hmin j Hj Hy).
Qed.

Lemma indexOf_None arr x : indexOf arr x = None <-> x ∉ arr.
Proof.
  unfold indexOf. rewrite fmap_None, list_find_None, Forall_forall.
  split; [intros H Hin; exact (H x Hin eq_refl) | intros H y Hy ->; done].
Qed.

Lemma indexOf_lt arr x i : indexOf arr x = Some i -> i < length arr.
Proof. intros [H _]%indexOf_Some. by eapply lookup_lt_Some. Qed.

Lemma indexOf_elem arr x : x ∈ arr -> is_Some (indexOf arr x).
Proof.
  intros H. destruct (indexOf arr x) eqn:E; [eauto|].
  by apply indexOf_None in E.
Qed.

Lemma array_set_lt (hole : A) arr i v :
  i < length arr -> array_set hole arr i v = <[i := v]> arr.
Proof. intros. unfold array_set. by rewrite decide_True. Qed.

Lemma array_set_length (hole : A) arr i v :
  i < length arr -> length (array_set hole arr i v) = length arr.
Proof. intros. rewrite array_set_lt by done. apply length_insert. Qed.
End Arrays.

Lemma lookup_snoc_inv {A} (l : list A) (x y : A) j :
  (l ++ [x]) !! j = Some y ->
  (j < length l /\ l !! j = Some y) \/ (j = length l /\ y = x).
Proof.
  intros H. destruct (decide (j < length l)) as [Hj|Hj].
  - rewrite lookup_app_l in H by done. auto.
  - rewrite lookup_app_r in H by lia.
    destruct (j - length l) as [|[|]] eqn:E; simplify_eq/=. right. split; [lia|done].
Qed.

Lemma filter_all {A} (P : A -> Prop) `{!forall x, Decision (P x)} (l : list A) :
  Forall P l -> filter P l = l.
Proof.
  induction 1 as [|x l Hx _ IH]; [done|].
  by rewrite filter_cons, decide_True, IH.
Qed.

Lemma filter_none {A} (P : A -> Prop) `{!forall x, Decision (P x)} (l : list A) :
  Forall (fun x => ~ P x) l -> filter P l = [].
Proof.
  induction 1 as [|x l Hx _ IH]; [done|].
  by rewrite filter_cons, decide_False.
Qed.

Lemma includes_true arr page : includes arr page = true <-> Some page ∈ arr.
Proof. unfold includes. apply bool_decide_eq_true. Qed.

Lemma includes_false arr page : includes arr page = false <-> Some page ∉ arr.
Proof. unfold includes. apply bool_decide_eq_false. Qed.

(** ** The loop *)

Lemma forEach_app body st l1 l2 i :
  forEach body st (l1 ++ l2) i = forEach body (forEach body st l1 i) l2 (i + length l1).
Proof.
  revert st i. induction l1 as [|x l1 IH]; intros st i; simpl.
  - by rewrite Nat.add_0_r.
  - rewrite IH. f_equal. lia.
Qed.

Lemma state_at_0 pages n alg :
  state_at pages n alg 0 = initial (replicate n None) (replicate n 0%Z).
Proof. unfold state_at. by rewrite take_0. Qed.

Lemma state_at_S pages n alg k page :
  pages !! k = Some page ->
  state_at pages n alg (S k) = step pages n alg (state_at pages n alg k) page k.
Proof.
  intros Hk. unfold state_at.
  rewrite (take_S_r _ _ _ Hk), forEach_app. simpl. f_equal.
  rewrite length_take. apply lookup_lt_Some in Hk. lia.
Qed.

Lemma state_at_length pages n alg :
  state_at pages n alg (length pages) =
  forEach (step pages n alg) (initial (replicate n None) (replicate n 0%Z)) pages 0.
Proof. unfold state_at. by rewrite firstn_all. Qed.

Lemma Array_fill_Returns {A} (frameCount : Z) (v : A) arr :
  Array_fill frameCount v = Returns arr <->
  (0 <= frameCount < 2 ^ 32)%Z /\ arr = replicate (Z.to_nat frameCount) v.
Proof.
  unfold Array_fill. case_decide; split.
  - by intros [= <-].
  - by intros [_ ->].
  - intros [=].
  - by intros [? _].
Qed.

Lemma simulate_Returns pages frameCount alg r :
  simulate pages frameCount alg = Returns r <->
  (0 <= frameCount < 2 ^ 32)%Z /\
  r = result alg pages (state_at pages (Z.to_nat frameCount) alg (length pages)).
Proof.
  unfold simulate, Array_fill. rewrite state_at_length.
  case_decide; split.
  - by intros [= <-].
  - by intros [_ ->].
  - intros [=].
  - by intros [? _].
Qed.

Lemma simulate_Throws pages frameCount alg e :
  simulate pages frameCount alg = Throws e <->
  ~ (0 <= frameCount < 2 ^ 32)%Z.
Proof.
  unfold simulate, Array_fill.
  case_decide; split; [intros [=] | done | done | by destruct e].
Qed.

(** ** The scan of the LRU branch *)

Section LruScan.
Variable m : gmap number nat.
Local Abbreviation la := (lastAccessOf m).

Lemma lru_found_snoc fr acc x :
  lru_found m fr acc -> lru_found m (fr ++ [x]) (lru_visit m acc x).
Proof.
  destruct acc as [least v]. unfold lru_found, lru_visit. simpl.
  destruct least as [least|]; simpl.
  - intros (-> & i & Hi & Hle & Hlt).
    assert (i < length fr) as Hil by (by eapply lookup_lt_Some).
    destruct x as [p|]; simpl.
    + destruct (Z.ltb_spec (la p) (la v)) as [Hp|Hp]; simpl.
      * split; [done|]. exists (length fr). split_and!.
        -- by rewrite lookup_app_r, Nat.sub_diag by lia.
        -- intros j q Hj. destruct (decide (j < length fr)) as [Hjl|Hjl].
           ++ rewrite lookup_app_l in Hj by done. specialize (Hle j q Hj). lia.
           ++ rewrite lookup_app_r in Hj by lia.
              destruct (j - length fr) as [|[|]]; simplify_eq/=. lia.
        -- intros j q Hjl Hj. rewrite lookup_app_l in Hj by done.
           specialize (Hle j q Hj). lia.
      * split; [done|]. exists i. split_and!.
        -- by rewrite lookup_app_l.
        -- intros j q Hj. destruct (decide (j < length fr)) as [Hjl|Hjl].
           ++ rewrite lookup_app_l in Hj by done. eauto.
           ++ rewrite lookup_app_r in Hj by lia.
              destruct (j - length fr) as [|[|]]; simplify_eq/=. lia.
        -- intros j q Hji Hj. rewrite lookup_app_l in Hj by lia. eauto.
    + split; [done|]. exists i. split_and!.
      * by rewrite lookup_app_l.
      * intros j q Hj. destruct (decide (j < length fr)) as [Hjl|Hjl].
        -- rewrite lookup_app_l in Hj by done. eauto.
        -- rewrite lookup_app_r in Hj by lia.
           destruct (j - length fr) as [|[|]]; simplify_eq/=.
      * intros j q Hji Hj. rewrite lookup_app_l in Hj by lia. eauto.
  - intros [-> Hnone]. destruct x as [p|]; simpl.
    + split; [done|]. exists (length fr). split_and!.
      * by rewrite lookup_app_r, Nat.sub_diag by lia.
      * intros j q Hj. destruct (decide (j < length fr)) as [Hjl|Hjl].
        -- rewrite lookup_app_l in Hj by done.
           destruct (Hnone j); congruence.
        -- rewrite lookup_app_r in Hj by lia.
           destruct (j - length fr) as [|[|]]; simplify_eq/=. lia.
      * intros j q Hjl Hj. rewrite lookup_app_l in Hj by done.
        destruct (Hnone j); congruence.
    + split; [done|]. intros i. destruct (decide (i < length fr)) as [Hil|Hil].
      * rewrite lookup_app_l by done. apply Hnone.
      * rewrite lookup_app_r by lia.
        destruct (i - length fr) as [|[|]]; simpl; auto.
Qed.

Lemma lru_scan_found fr : lru_found m fr (lru_scan m fr).
Proof.
  unfold lru_scan. induction fr as [|x fr IH] using rev_ind.
  - simpl. split; [done|]. intros i. right. apply lookup_nil.
  - rewrite foldl_snoc. by apply lru_found_snoc.
Qed.

(** On a table that holds a page the scan ends on a resident page: the
    first, in slot order, among those of least last access. *)
Lemma lru_scan_victim fr q :
  Some q ∈ fr ->
  exists i, let v := (lru_scan m fr).2 in
    fr !! i = Some (Some v) /\
    (forall j p, fr !! j = Some (Some p) -> (la v <= la p)%Z) /\
    (forall j p, j < i -> fr !! j = Some (Some p) -> (la v < la p)%Z).
Proof.
  intros [k Hk]%list_elem_of_lookup.
  pose proof (lru_scan_found fr) as H. unfold lru_found in H.
  destruct (lru_scan m fr) as [[least|] v]; simpl in *.
  - destruct H as (_ & i & ?). eauto.
  - destruct H as [_ H]. destruct (H k); congruence.
Qed.

Lemma lru_scan_empty : lru_scan m [] = (None, minus_one).
Proof. reflexivity. Qed.
End LruScan.

(** ** The scan of the OPTIMAL branch *)

Section OptScan.
Variables (pages : list number) (stepIndex : nat).
Local Abbreviation dist := (next_use pages stepIndex).

Lemma opt_found_snoc fr acc x :
  opt_found pages stepIndex fr acc -> opt_found pages stepIndex (fr ++ [x]) (opt_visit pages stepIndex acc x).
Proof.
  intros H. destruct x as [p|]; simpl.
  - (* the slot holds a page *)
    right. fold (dist p).
    destruct H as [[-> Hnone]|(Hfd & Hinf & i & Hi & Hmax & Hfirst)].
    + (* the first page met *)
      assert (forall j q, (fr ++ [Some p]) !! j = Some (Some q) ->
                          j = length fr /\ q = p) as Honly.
      { intros j q [[_ Hj]|[-> [= ->]]]%lookup_snoc_inv; [|done].
        destruct (Hnone j); congruence. }
      assert (sooner_irrefl : ~ sooner (dist p) (dist p)).
      { destruct (dist p); simpl; lia. }
      destruct (dist p) as [d|] eqn:Hd; simpl.
      * assert ((-1 <? Z.of_nat d)%Z = true) as -> by (apply Z.ltb_lt; lia).
        simpl. rewrite Hd. split_and!; [done|done|].
        exists (length fr). split_and!.
        -- by rewrite lookup_app_r, Nat.sub_diag by lia.
        -- intros j q [_ ->]%Honly. by rewrite Hd.
        -- intros j q Hj [? _]%Honly. lia.
      * rewrite Hd. split_and!; [done|done|].
        exists (length fr). split_and!.
        -- by rewrite lookup_app_r, Nat.sub_diag by lia.
        -- intros j q [_ ->]%Honly. by rewrite Hd.
        -- intros j q Hj [? _]%Honly. lia.
    + (* a page after others *)
      destruct acc as [fd v inf]. simpl in *. subst fd inf.
      assert (i < length fr) as Hil by (by eapply lookup_lt_Some).
      destruct (dist p) as [d|] eqn:Hd, (dist v) as [dv|] eqn:Hdv; simpl.
      * destruct (Z.ltb_spec (Z.of_nat dv) (Z.of_nat d)) as [Hlt|Hge]; simpl.
        -- rewrite Hd. split_and!; [done|done|].
           exists (length fr). split_and!.
           ++ by rewrite lookup_app_r, Nat.sub_diag by lia.
           ++ intros j q [[_ Hj]|[_ [= ->]]]%lookup_snoc_inv.
              ** specialize (Hmax j q Hj). destruct (dist q); simpl in *; lia.
              ** rewrite Hd. simpl. lia.
           ++ intros j q Hjl [[_ Hj]|[? _]]%lookup_snoc_inv; [|lia].
              specialize (Hmax j q Hj). destruct (dist q); simpl in *; lia.
        -- rewrite Hdv. split_and!; [done|done|].
           exists i. split_and!.
           ++ by rewrite lookup_app_l.
           ++ intros j q [[_ Hj]|[_ [= ->]]]%lookup_snoc_inv; [by eapply Hmax|].
              rewrite Hd. simpl. lia.
           ++ intros j q Hji [[_ Hj]|[? _]]%lookup_snoc_inv; [|lia].
              by eapply Hfirst.
      * rewrite Hdv. split_and!; [done|done|].
        exists i. split_and!.
        -- by rewrite lookup_app_l.
        -- intros j q _. simpl. tauto.
        -- intros j q Hji [[_ Hj]|[? _]]%lookup_snoc_inv; [|lia].
           by eapply Hfirst.
      * rewrite Hd. split_and!; [done|done|].
        exists (length fr). split_and!.
        -- by rewrite lookup_app_r, Nat.sub_diag by lia.
        -- intros j q _. simpl. tauto.
        -- intros j q Hjl [[_ Hj]|[? _]]%lookup_snoc_inv; [|lia].
           specialize (Hmax j q Hj). destruct (dist q); simpl in *; [done|tauto].
      * rewrite Hdv. split_and!; [done|done|].
        exists i. split_and!.
        -- by rewrite lookup_app_l.
        -- intros j q _. simpl. tauto.
        -- intros j q Hji [[_ Hj]|[? _]]%lookup_snoc_inv; [|lia].
           by eapply Hfirst.
  - (* the slot is empty *)
    destruct H as [[-> Hnone]|(Hfd & Hinf & i & Hi & Hmax & Hfirst)].
    + left. split; [done|]. intros i.
      destruct (decide (i < length fr)) as [Hil|Hil].
      * rewrite lookup_app_l by done. apply Hnone.
      * rewrite lookup_app_r by lia.
        destruct (i - length fr) as [|[|]]; simpl; auto.
    + right. split_and!; [done|done|].
      assert (i < length fr) as Hil by (by eapply lookup_lt_Some).
      exists i. split_and!.
      * by rewrite lookup_app_l.
      * intros j q [[_ Hj]|[_ [=]]]%lookup_snoc_inv. by eapply Hmax.
      * intros j q Hji [[_ Hj]|[_ [=]]]%lookup_snoc_inv. by eapply Hfirst.
Qed.

Lemma opt_scan_found fr : opt_found pages stepIndex fr (opt_scan pages stepIndex fr).
Proof.
  unfold opt_scan. induction fr as [|x fr IH] using rev_ind.
  - left. split; [done|]. intros i. right. apply lookup_nil.
  - rewrite foldl_snoc. by apply opt_found_snoc.
Qed.

(** On a table that holds a page the scan ends on a resident page: the
    first, in slot order, among those whose next use is furthest. *)
Lemma opt_scan_victim fr q :
  Some q ∈ fr ->
  exists i, let scan := opt_scan pages stepIndex fr in
    let v := o_pageToEvict scan in
    fr !! i = Some (Some v) /\
    furthestDistance scan = Z.of_nat <$> dist v /\
    (forall j p, fr !! j = Some (Some p) -> ~ sooner (dist v) (dist p)) /\
    (forall j p, j < i -> fr !! j = Some (Some p) -> sooner (dist p) (dist v)).
Proof.
  intros [k Hk]%list_elem_of_lookup.
  destruct (opt_scan_found fr) as [[_ Hnone]|(Hfd & _ & i & ?)].
  - destruct (Hnone k); congruence.
  - exists i. simpl. tauto.
Qed.
End OptScan.

(** ** The sweep of the CLOCK branch *)

Lemma mod_wrap n ptr d :
  ptr < n -> d <= n ->
  (ptr + d) mod n = if decide (ptr + d < n) then ptr + d else ptr + d - n.
Proof.
  intros Hp Hd. case_decide as Hlt.
  - by apply Nat.mod_small.
  - symmetry. apply (Nat.mod_unique _ _ 1); lia.
Qed.

Section ClockSweep.
Variables (n : nat) (st : State) (fr : list (option number)).
Variables (bits : list Z) (ptr : nat).
Hypothesis Hlen : length bits = n.
Hypothesis Hptr : ptr < n.
Hypothesis Hbits : Forall is_bit bits.

(** The slot the sweep visits after [d] earlier visits. *)
Local Abbreviation slot d := ((ptr + d) mod n).

Lemma clock_sweep_from m : forall d0 b att budget,
  d0 + m = n -> m < budget -> length b = n -> Forall is_bit b ->
  (forall j, j < d0 -> bits !! slot j = Some 1%Z /\ b !! slot j = Some 0%Z) ->
  (forall s, s < n -> (forall j, j < d0 -> s <> slot j) -> b !! s = bits !! s) ->
  swept n st fr bits ptr att d0 (clock_sweep n st fr budget b (slot d0) att).
Proof.
  induction m as [|m IH]; intros d0 b att budget Hd0 Hbudget Hb Hbb Hpassed Hrest.
  - (* every slot was passed: the sweep is back on its first slot *)
    destruct budget as [|budget]; [lia|]. simpl.
    assert (slot d0 = slot 0) as Hback.
    { rewrite !mod_wrap by lia. repeat case_decide; lia. }
    destruct (Hpassed 0 ltac:(lia)) as [_ H0]. rewrite Hback, H0.
    exists d0. rewrite <- Hback. split_and!; simpl; try done; try lia.
    by rewrite Hback.
  - assert (slot d0 < n) as Hq by (apply Nat.mod_upper_bound; lia).
    assert (forall j, j < d0 -> slot d0 <> slot j) as Hfresh.
    { intros j Hj. rewrite !mod_wrap by lia. repeat case_decide; lia. }
    assert (b !! slot d0 = bits !! slot d0) as Hsame by (by apply Hrest).
    destruct budget as [|budget]; [lia|]. simpl.
    destruct (bits !! slot d0) as [bit|] eqn:Hbit.
    2: { apply lookup_ge_None in Hbit. lia. }
    assert (is_bit bit) as [-> | ->].
    { eapply Forall_lookup_1; eauto. }
    + (* bit 0: the victim *)
      rewrite Hsame. exists d0. split_and!; simpl; try done; try lia.
    + (* bit 1: cleared, the sweep goes on *)
      rewrite Hsame.
      rewrite array_set_lt by lia.
      replace ((slot d0 + 1) mod n) with (slot (d0 + 1))
        by (rewrite Nat.Div0.add_mod_idemp_l; f_equal; lia).
      destruct (IH (d0 + 1) (<[slot d0 := 0%Z]> b) (S att) budget)
        as (d & Hd & ? & Hatt & ?); try lia.
      * by rewrite length_insert.
      * apply Forall_insert; [done|by left].
      * intros j Hj. destruct (decide (j = d0)) as [->|Hne].
        -- split; [done|]. apply list_lookup_insert_eq. lia.
        -- destruct (Hpassed j ltac:(lia)) as [? Hz]. split; [done|].
           destruct (decide (slot d0 = slot j)) as [<-|?].
           ++ apply list_lookup_insert_eq. lia.
           ++ by rewrite list_lookup_insert_ne.
      * intros s Hs Hnot.
        rewrite list_lookup_insert_ne by (intros <-; apply (Hnot d0); [lia|done]).
        apply Hrest; [done|]. intros j Hj. apply Hnot. lia.
      * exists d. split; [lia|]. split; [done|]. split; [lia|]. done.
Qed.

(** The sweep of a step: it stops on a victim after [n + 1] visits at most. *)
Lemma clock_sweep_spec budget :
  n < budget -> swept n st fr bits ptr 0 0 (clock_sweep n st fr budget bits ptr 0).
Proof.
  intros Hbudget.
  assert (slot 0 = ptr) as Hstart by (rewrite Nat.add_0_r; by apply Nat.mod_small).
  rewrite <- Hstart at 2.
  apply (clock_sweep_from n); try done; try lia.
Qed.
End ClockSweep.

(** ** The pages a frame table holds *)

Lemma elem_of_residents fr p : p ∈ residents fr <-> Some p ∈ fr.
Proof.
  unfold residents. rewrite list_elem_of_omap. split.
  - intros (x & Hx & Hp). simpl in Hp. by subst x.
  - intros H. by exists (Some p).
Qed.

Lemma residents_fill fr i page :
  fr !! i = Some None ->
  residents (<[i := Some page]> fr) ≡ₚ page :: residents fr.
Proof.
  intros Hi. assert (i < length fr) by (by eapply lookup_lt_Some).
  rewrite insert_take_drop by done.
  rewrite <- (take_drop_middle fr i None Hi) at 3.
  unfold residents. rewrite !omap_app. simpl.
  by rewrite Permutation_middle.
Qed.

Lemma residents_replace fr i v page :
  fr !! i = Some (Some v) ->
  v :: residents (<[i := Some page]> fr) ≡ₚ page :: residents fr.
Proof.
  intros Hi. assert (i < length fr) by (by eapply lookup_lt_Some).
  rewrite insert_take_drop by done.
  rewrite <- (take_drop_middle fr i (Some v) Hi) at 3.
  unfold residents. rewrite !omap_app. simpl.
  rewrite <- !Permutation_middle. apply perm_swap.
Qed.

Lemma no_duplicates_insert fr i page :
  no_duplicates fr -> Some page ∉ fr -> i < length fr ->
  no_duplicates (<[i := Some page]> fr).
Proof.
  intros Hnd Hnew Hi a b p Ha Hb.
  destruct (decide (a = i)) as [->|Hai], (decide (b = i)) as [->|Hbi]; [done|..].
  - rewrite list_lookup_insert_eq in Ha by done.
    rewrite list_lookup_insert_ne in Hb by done. simplify_eq.
    destruct Hnew. by eapply list_elem_of_lookup_2.
  - rewrite list_lookup_insert_eq in Hb by done.
    rewrite list_lookup_insert_ne in Ha by done. simplify_eq.
    destruct Hnew. by eapply list_elem_of_lookup_2.
  - rewrite list_lookup_insert_ne in Ha, Hb by done. eauto.
Qed.

Lemma elem_of_insert_frames (fr : list (option number)) i page p :
  Some p ∈ <[i := Some page]> fr -> p = page \/ Some p ∈ fr.
Proof.
  intros [j Hj]%list_elem_of_lookup.
  destruct (decide (j = i)) as [->|Hne].
  - assert (i < length fr).
    { apply lookup_lt_Some in Hj. by rewrite length_insert in Hj. }
    rewrite list_lookup_insert_eq in Hj by done. left. congruence.
  - rewrite list_lookup_insert_ne in Hj by done. right.
    by eapply list_elem_of_lookup_2.
Qed.

(** A full table: [indexOf(null)] is [-1]. *)
Lemma full_lookup (fr : list (option number)) i x :
  indexOf fr None = None -> fr !! i = Some x -> exists p, x = Some p.
Proof.
  intros Hfull%indexOf_None Hi. destruct x as [p|]; [eauto|].
  destruct Hfull. by eapply list_elem_of_lookup_2.
Qed.

(** ** The step at which a page was loaded *)

Lemma loaded_at_snoc tr s p :
  loaded_at (tr ++ [s]) p =
  if decide (status s = FAULT /\ requestedPage s = p)
  then Some (stepIndex s) else loaded_at tr p.
Proof. unfold loaded_at. by rewrite foldl_snoc. Qed.

Lemma loaded_at_lt tr p t :
  (forall i s, tr !! i = Some s -> stepIndex s = i) ->
  loaded_at tr p = Some t -> t < length tr.
Proof.
  revert t. induction tr as [|s tr IH] using rev_ind; intros t Hidx.
  - done.
  - rewrite loaded_at_snoc, length_app. simpl. case_decide.
    + intros [= <-]. rewrite (Hidx (length tr) s); [lia|].
      by rewrite lookup_app_r, Nat.sub_diag by lia.
    + intros Ht. apply IH in Ht; [lia|].
      intros i s' Hi. apply Hidx. rewrite lookup_app_l; [done|].
      by eapply lookup_lt_Some.
Qed.

(** ** The invariant of the loop *)

Lemma frames_before_snoc n tr s i :
  i <= length tr -> frames_before n (tr ++ [s]) i = frames_before n tr i.
Proof.
  intros Hi. destruct i as [|j]; [done|]. simpl.
  by rewrite lookup_app_l by lia.
Qed.

Lemma frames_before_last n tr s :
  frames_before n (tr ++ [s]) (S (length tr)) = frames s.
Proof. simpl. by rewrite lookup_app_r, Nat.sub_diag by lia. Qed.

Section Run.
Variables (pages : list number) (n : nat) (alg : AlgorithmType).
Hypothesis Hpages : Forall (fun p => JS.ge0 p = true) pages.

Lemma Inv_initial :
  Inv pages n alg 0 (initial (replicate n None) (replicate n 0%Z)).
Proof.
  split; simpl; try done.
  - apply length_replicate.
  - intros i j p [[=] _]%lookup_replicate.
  - intros p [[=] _]%elem_of_replicate.
  - intros _. split_and!; simpl.
    + assert (residents (replicate n None) = []) as ->; [|done].
      unfold residents. induction n; simpl; auto.
    + intros i j p q _ Hi. by rewrite lookup_nil in Hi.
    + constructor.
  - intros _ p. simpl. rewrite lookup_empty, take_0. apply not_elem_of_nil.
  - intros _. split_and!; simpl.
    + apply length_replicate.
    + destruct n; [by right|left; lia].
    + apply Forall_replicate. by left.
Qed.

Lemma resident_not_minus_one k st p :
  Inv pages n alg k st -> Some p ∈ currentFrames st -> p <> minus_one.
Proof.
  intros HI Hp%(inv_resident _ _ _ _ _ HI) ->.
  apply elem_of_take in Hp as (i & Hi & _).
  by apply (Forall_lookup_1 _ _ _ _ Hpages) in Hi.
Qed.

(** The invariant after [record], from what the step computed. *)
Lemma Inv_record k st page h f fr' status replaced expl queue' m' bits' ptr' :
  Inv pages n alg k st -> pages !! k = Some page ->
  h = (if decide (status = HIT) then hits st + 1 else hits st) ->
  f = (if decide (status = FAULT) then faults st + 1 else faults st) ->
  length fr' = n -> no_duplicates fr' ->
  (forall p, Some p ∈ fr' -> p = page \/ Some p ∈ currentFrames st) ->
  (forall meta, step_ok n (currentFrames st)
                  (mkStep k page fr' status replaced expl meta)) ->
  let st' := record alg k page h f fr' status replaced expl queue' m' bits' ptr'
               (trace st) in
  (alg = FIFO -> fifo_inv st') ->
  (alg = LRU -> lru_inv pages (S k) st') ->
  (alg = CLOCK -> clock_inv n st') ->
  Inv pages n alg (S k) st'.
Proof.
  intros HI Hk Hh Hf Hlen Hnd Hres Hok st' Hfifo Hlru Hclock.
  pose proof (inv_trace_length _ _ _ _ _ HI) as Htl.
  split; try done.
  - intros p [->|Hp]%Hres; rewrite (take_S_r _ _ _ Hk), elem_of_app.
    + right. by apply list_elem_of_singleton.
    + left. by apply (inv_resident _ _ _ _ _ HI).
  - unfold st', record. cbn [trace]. rewrite length_app. simpl. lia.
  - unfold st', record. cbn [trace hits]. rewrite filter_app, length_app.
    rewrite <- (inv_hits _ _ _ _ _ HI), Hh, filter_cons. simpl.
    destruct status; simpl; lia.
  - unfold st', record. cbn [trace faults]. rewrite filter_app, length_app.
    rewrite <- (inv_faults _ _ _ _ _ HI), Hf, filter_cons. simpl.
    destruct status; simpl; lia.
  - unfold st', record. cbn [trace currentFrames].
    match goal with |- _ = frames_before _ (_ ++ [?s]) _ =>
      pose proof (frames_before_last n (trace st) s) as Hlast end.
    rewrite Htl in Hlast. by rewrite Hlast.
  - unfold st', record. cbn [trace].
    intros i s [[Hi Hs]|[-> ->]]%lookup_snoc_inv.
    + rewrite frames_before_snoc by lia. by apply (inv_trace _ _ _ _ _ HI).
    + rewrite frames_before_snoc by lia.
      rewrite Htl, <- (inv_current _ _ _ _ _ HI). split_and!; [done|done|apply Hok].
Qed.

(** A full table holds a page in each of its slots. *)
Lemma full_slot k st i :
  Inv pages n alg k st -> indexOf (currentFrames st) None = None -> i < n ->
  exists v, currentFrames st !! i = Some (Some v).
Proof.
  intros HI Hfull Hi.
  destruct (lookup_lt_is_Some_2 (currentFrames st) i) as [x Hx].
  { by rewrite (inv_length _ _ _ _ _ HI). }
  destruct (full_lookup _ _ _ Hfull Hx) as [v ->]. eauto.
Qed.

Lemma indexOf_resident k st i v :
  Inv pages n alg k st -> currentFrames st !! i = Some (Some v) ->
  indexOf (currentFrames st) (Some v) = Some i.
Proof.
  intros HI Hi. apply indexOf_Some. split; [done|].
  intros j Hj Hv. pose proof (inv_nodup _ _ _ _ _ HI _ _ _ Hi Hv). lia.
Qed.

(** With a full table and a frame at least, each policy finds a victim, a
    resident page; with no frame at all none does. *)
Lemma replace_victim k st page :
  Inv pages n alg k st ->
  indexOf (currentFrames st) None = None ->
  let r := replace pages n alg st (currentFrames st) (referenceBits st) page k in
  (n = 0 /\ indexToReplace r = None /\ r_replacedPage r = None) \/
  (exists i v, indexToReplace r = Some i /\
     currentFrames st !! i = Some (Some v) /\ r_replacedPage r = Some v).
Proof.
  intros HI Hfull r.
  pose proof (inv_length _ _ _ _ _ HI) as Hlen.
  destruct (decide (n = 0)) as [Hn|Hn].
  - (* no frame *)
    left. split; [done|].
    rewrite Hn in Hlen. apply nil_length_inv in Hlen.
    subst r. unfold replace. destruct alg eqn:Halg.
    + destruct (inv_fifo _ _ _ _ _ HI eq_refl) as [Hperm _].
      rewrite Hlen in Hperm. apply Permutation_nil_r in Hperm.
      unfold replace_FIFO. by rewrite Hperm.
    + unfold replace_LRU. rewrite Hlen. by cbn.
    + unfold replace_OPTIMAL. rewrite Hlen. by cbn.
    + unfold replace_CLOCK. by rewrite Hn.
  - (* a frame at least *)
    right. destruct (full_slot k st 0 HI Hfull ltac:(lia)) as [p0 Hp0].
    assert (Some p0 ∈ currentFrames st) as Hin0
      by (by eapply list_elem_of_lookup_2).
    assert (forall i v, currentFrames st !! i = Some (Some v) ->
              indexOf (currentFrames st) (Some v) = Some i) as Hfirst
      by (intros; by eapply indexOf_resident).
    assert (forall i v, currentFrames st !! i = Some (Some v) -> v <> minus_one)
      as Hpage.
    { intros i v Hv. eapply resident_not_minus_one; [done|].
      by eapply list_elem_of_lookup_2. }
    assert (forall i, i < n -> exists v, currentFrames st !! i = Some (Some v))
      as Hslot by (intros; by eapply full_slot).
    subst r. unfold replace. destruct alg eqn:Halg.
    + destruct (inv_fifo _ _ _ _ _ HI eq_refl) as [Hperm _].
      unfold replace_FIFO. destruct (fifoQueue st) as [|v q] eqn:Hq.
      { apply elem_of_residents in Hin0. rewrite <- Hperm in Hin0.
        by apply elem_of_nil in Hin0. }
      assert (Some v ∈ currentFrames st) as [i Hi]%list_elem_of_lookup.
      { apply elem_of_residents. rewrite <- Hperm. left. }
      exists i, v. simpl. split_and!; [|done|done].
      by apply Hfirst.
    + unfold replace_LRU.
      destruct (lru_scan_victim (lruMap st) _ _ Hin0) as (i & Hi & _).
      simpl in Hi. set (v := (lru_scan (lruMap st) (currentFrames st)).2) in *.
      rewrite decide_True.
      2: { by eapply Hpage. }
      exists i, v. simpl. split_and!; [|done|done].
      by apply Hfirst.
    + unfold replace_OPTIMAL.
      destruct (opt_scan_victim pages k _ _ Hin0) as (i & Hi & _).
      simpl in Hi.
      set (v := o_pageToEvict (opt_scan pages k (currentFrames st))) in *.
      rewrite decide_True.
      2: { by eapply Hpage. }
      exists i, v. simpl. split_and!; [|done|done].
      by apply Hfirst.
    + destruct (inv_clock _ _ _ _ _ HI eq_refl) as (Hbl & [Hptr|?] & Hbits); [|done].
      unfold replace_CLOCK.
      destruct (clock_sweep_spec n st (currentFrames st) (referenceBits st)
                  (clockPointer st) Hbl Hptr Hbits (n * 3) ltac:(lia))
        as (d & Hd & Hidx & _ & _ & Hrep & _).
      rewrite Hidx.
      destruct (Hslot ((clockPointer st + d) mod n)) as [v Hv].
      { apply Nat.mod_upper_bound. lia. }
      exists ((clockPointer st + d) mod n), v. simpl.
      split_and!; [done|done|]. by rewrite Hrep, Hv.
Qed.
End Run.

(** *** The bookkeeping of each policy keeps its invariant *)

Lemma lru_inv_set pages k st st' page :
  lru_inv pages k st -> pages !! k = Some page ->
  lruMap st' = <[page := k]> (lruMap st) ->
  lru_inv pages (S k) st'.
Proof.
  intros Hlru Hk Hm p. rewrite Hm.
  destruct (decide (p = page)) as [->|Hne].
  - rewrite lookup_insert_eq. split_and!; [lia|done|lia].
  - rewrite lookup_insert_ne by done. specialize (Hlru p).
    destruct (lruMap st !! p) as [i|].
    + destruct Hlru as (Hi & Hp & Hlast). split_and!; [lia|done|].
      intros j Hj. destruct (decide (j = k)) as [->|]; [congruence|].
      apply Hlast. lia.
    + rewrite (take_S_r _ _ _ Hk), elem_of_app, list_elem_of_singleton. tauto.
Qed.

Lemma earlier_snoc tr s p q :
  (status s = FAULT -> requestedPage s <> p /\ requestedPage s <> q) ->
  earlier tr p q -> earlier (tr ++ [s]) p q.
Proof.
  intros Hs (tp & tq & Hp & Hq & Hlt). exists tp, tq.
  rewrite !loaded_at_snoc.
  rewrite !decide_False; [done|..]; intros [Hf Hr]; destruct (Hs Hf); congruence.
Qed.

(** A hit loads nothing: the queue and its order stay. *)
Lemma fifo_inv_hit st st' s :
  fifo_inv st -> status s = HIT ->
  fifoQueue st' = fifoQueue st -> currentFrames st' = currentFrames st ->
  trace st' = trace st ++ [s] ->
  fifo_inv st'.
Proof.
  intros (Hperm & Hord & Hall) Hs Hq Hf Ht. unfold fifo_inv.
  rewrite Hq, Hf, Ht. split_and!; [done|..].
  - intros i j p q Hij Hi Hj. apply earlier_snoc; [|by eauto].
    intros ?; congruence.
  - eapply Forall_impl; [done|]. intros p Hp. simpl.
    rewrite loaded_at_snoc, decide_False; [done|]. intros [? _]; congruence.
Qed.

(** A fault enqueues the page it loads behind the pages [Q] that stay. *)
Lemma fifo_enqueue tr s Q page :
  (forall i s', tr !! i = Some s' -> stepIndex s' = i) ->
  status s = FAULT -> requestedPage s = page -> stepIndex s = length tr ->
  page ∉ Q ->
  (forall i j p q, i < j -> Q !! i = Some p -> Q !! j = Some q -> earlier tr p q) ->
  Forall (fun p => is_Some (loaded_at tr p)) Q ->
  (forall i j p q, i < j -> (Q ++ [page]) !! i = Some p ->
     (Q ++ [page]) !! j = Some q -> earlier (tr ++ [s]) p q) /\
  Forall (fun p => is_Some (loaded_at (tr ++ [s]) p)) (Q ++ [page]).
Proof.
  intros Hidx Hs Hreq Hk Hnew Hord Hall.
  assert (loaded_at (tr ++ [s]) page = Some (length tr)) as Hpage.
  { rewrite loaded_at_snoc, decide_True by done. by rewrite Hk. }
  assert (forall p, p ∈ Q -> loaded_at (tr ++ [s]) p = loaded_at tr p) as Hold.
  { intros p Hp. rewrite loaded_at_snoc, decide_False; [done|].
    intros [_ ?]. congruence. }
  split.
  - intros i j p q Hij Hi [[Hjl Hj]|[-> ->]]%lookup_snoc_inv.
    + rewrite lookup_app_l in Hi by lia.
      destruct (Hord i j p q Hij Hi Hj) as (tp & tq & ? & ? & ?).
      exists tp, tq. rewrite !Hold by (by eapply list_elem_of_lookup_2). done.
    + rewrite lookup_app_l in Hi by lia.
      assert (p ∈ Q) as Hp by (by eapply list_elem_of_lookup_2).
      destruct (proj1 (Forall_forall _ _) Hall p Hp) as [tp Htp].
      exists tp, (length tr). rewrite Hold by done. split_and!; [done|done|].
      by eapply loaded_at_lt.
  - apply Forall_app. split.
    + apply Forall_forall. intros p Hp. rewrite Hold by done.
      by apply (proj1 (Forall_forall _ _) Hall).
    + constructor; [by rewrite Hpage|constructor].
Qed.

(** *** What a step records *)

Lemma step_ok_hit n before page k expl meta :
  length before = n -> no_duplicates before -> Some page ∈ before ->
  step_ok n before (mkStep k page before HIT None expl meta).
Proof. intros. split_and!; simpl; try done. Qed.

Lemma step_ok_fill n before page k e expl meta :
  length before = n -> no_duplicates before -> Some page ∉ before ->
  indexOf before None = Some e ->
  step_ok n before (mkStep k page (<[e := Some page]> before) FAULT None expl meta).
Proof.
  intros Hlen Hnd Hnew He. pose proof (indexOf_lt _ _ _ He).
  split_and!; simpl; try done.
  - by rewrite length_insert.
  - by apply no_duplicates_insert.
  - intros _ i. rewrite He. by intros [= <-].
  - intros _. by rewrite He.
Qed.

Lemma step_ok_replace n before page k i v expl meta :
  length before = n -> no_duplicates before -> Some page ∉ before ->
  indexOf before None = None -> before !! i = Some (Some v) ->
  step_ok n before
    (mkStep k page (<[i := Some page]> before) FAULT (Some v) expl meta).
Proof.
  intros Hlen Hnd Hnew Hfull Hi. pose proof (lookup_lt_Some _ _ _ Hi).
  split_and!; simpl; try done.
  - by rewrite length_insert.
  - by apply no_duplicates_insert.
  - intros _ j. by rewrite Hfull.
  - intros _ _. right. by exists i, v.
Qed.

Lemma step_ok_no_frame page k expl meta :
  step_ok 0 [] (mkStep k page [] FAULT None expl meta).
Proof.
  split_and!; simpl; try done.
  - split; [done|]. by intros ?%elem_of_nil.
  - intros _ _. by left.
Qed.

(** *** The invariant is kept by every step *)

Lemma clock_inv_set n st st' i b :
  clock_inv n st -> i < n -> is_bit b ->
  referenceBits st' = array_set 1%Z (referenceBits st) i b ->
  clockPointer st' < n ->
  clock_inv n st'.
Proof.
  intros (Hlen & _ & Hbits) Hi Hb Hr Hp. unfold clock_inv.
  rewrite Hr, array_set_lt by lia. split_and!.
  - by rewrite length_insert.
  - by left.
  - by apply Forall_insert.
Qed.

Lemma Inv_step_hit pages n alg k st page :
  Inv pages n alg k st -> pages !! k = Some page ->
  includes (currentFrames st) page = true ->
  Inv pages n alg (S k) (step pages n alg st page k).
Proof.
  intros HI Hk Hhit.
  pose proof (inv_length _ _ _ _ _ HI) as Hlen.
  pose proof (inv_nodup _ _ _ _ _ HI) as Hnd.
  unfold step. rewrite Hhit. apply includes_true in Hhit.
  destruct (indexOf_elem _ _ Hhit) as [hi Hhi]. rewrite Hhi.
  pose proof (indexOf_lt _ _ _ Hhi) as Hhil.
  destruct alg;
    (eapply Inv_record;
     [exact HI | exact Hk | done | done | exact Hlen | exact Hnd | by right
     | intros; by apply step_ok_hit | try done ..]).
  - (* FIFO *)
    intros _.
    eapply fifo_inv_hit; [by apply (inv_fifo _ _ _ _ _ HI)| |reflexivity..].
    reflexivity.
  - (* LRU *)
    intros _. by eapply lru_inv_set; [by apply (inv_lru _ _ _ _ _ HI)|..].
  - (* CLOCK *)
    intros _. pose proof (inv_clock _ _ _ _ _ HI eq_refl) as Hc.
    eapply (clock_inv_set _ _ _ hi 1%Z); [done|lia|by right|done|].
    destruct Hc as (_ & [?|?] & _); simpl; lia.
Qed.

Lemma Inv_step_fill pages n alg k st page e :
  Inv pages n alg k st -> pages !! k = Some page ->
  includes (currentFrames st) page = false ->
  indexOf (currentFrames st) None = Some e ->
  Inv pages n alg (S k) (step pages n alg st page k).
Proof.
  intros HI Hk Hmiss He.
  pose proof (inv_length _ _ _ _ _ HI) as Hlen.
  pose proof (inv_nodup _ _ _ _ _ HI) as Hnd.
  pose proof (inv_trace_length _ _ _ _ _ HI) as Htl.
  unfold step. rewrite Hmiss, He. apply includes_false in Hmiss.
  pose proof (indexOf_lt _ _ _ He) as Hel.
  pose proof (proj1 (proj1 (indexOf_Some _ _ _) He)) as Hnull.
  rewrite array_set_lt by done.
  destruct alg;
    (eapply Inv_record;
     [exact HI | exact Hk | done | done | by rewrite length_insert
     | by apply no_duplicates_insert | by apply elem_of_insert_frames
     | intros; by apply step_ok_fill | try done ..]).
  - (* FIFO *)
    intros _. destruct (inv_fifo _ _ _ _ _ HI eq_refl) as (Hperm & Hord & Hall).
    assert (page ∉ fifoQueue st) as Hnew.
    { rewrite Hperm. by intros ?%elem_of_residents. }
    unfold fifo_inv, record. cbn [fifoQueue currentFrames trace].
    split; [|eapply fifo_enqueue; try done].
    + rewrite residents_fill by done. rewrite <- Hperm.
      by rewrite Permutation_app_comm.
    + intros i s' Hi. by apply (inv_trace _ _ _ _ _ HI).
  - (* LRU *)
    intros _. by eapply lru_inv_set; [by apply (inv_lru _ _ _ _ _ HI)|..].
  - (* CLOCK *)
    intros _. pose proof (inv_clock _ _ _ _ _ HI eq_refl) as Hc.
    eapply (clock_inv_set _ _ _ e 1%Z); [done|lia|by right|done|].
    simpl. apply Nat.mod_upper_bound. lia.
Qed.

Lemma replace_LRU_map st fr bits page k :
  r_lruMap (replace_LRU st fr bits page k) = <[page := k]> (lruMap st).
Proof. unfold replace_LRU. by case_decide. Qed.

Lemma Inv_step_replace pages n alg k st page :
  Forall (fun p => JS.ge0 p = true) pages ->
  Inv pages n alg k st -> pages !! k = Some page ->
  includes (currentFrames st) page = false ->
  indexOf (currentFrames st) None = None ->
  Inv pages n alg (S k) (step pages n alg st page k).
Proof.
  intros Hpages HI Hk Hmiss Hfull.
  pose proof (inv_length _ _ _ _ _ HI) as Hlen.
  pose proof (inv_nodup _ _ _ _ _ HI) as Hnd.
  pose proof (inv_trace_length _ _ _ _ _ HI) as Htl.
  unfold step. rewrite Hmiss, Hfull. apply includes_false in Hmiss.
  destruct (replace_victim pages n alg Hpages k st page HI Hfull)
    as [(Hn & Hidx & Hrep)|(i & v & Hidx & Hi & Hrep)].
  - (* no frame: nothing is replaced *)
    rewrite Hidx, Hrep.
    assert (currentFrames st = []) as Hnil
      by (apply nil_length_inv; by rewrite Hlen).
    eapply Inv_record;
      [exact HI | exact Hk | done | done | exact Hlen | exact Hnd | by right
      | intros; rewrite Hnil, Hn; apply step_ok_no_frame | ..].
    + intros ->. destruct (inv_fifo _ _ _ _ _ HI eq_refl) as (Hperm & _).
      rewrite Hnil in Hperm. apply Permutation_nil_r in Hperm.
      unfold fifo_inv, record, replace, replace_FIFO.
      rewrite Hperm, Hnil. cbn. split_and!; [done| |done].
      intros a b p q _ Ha. by rewrite lookup_nil in Ha.
    + intros ->. eapply lru_inv_set; [by apply (inv_lru _ _ _ _ _ HI)|done|].
      apply replace_LRU_map.
    + intros ->. pose proof (inv_clock _ _ _ _ _ HI eq_refl) as Hc.
      unfold clock_inv, record, replace, replace_CLOCK in *.
      rewrite Hn in *. exact Hc.
  - (* the victim [v] of slot [i] *)
    pose proof (lookup_lt_Some _ _ _ Hi) as Hil.
    rewrite Hidx, Hrep, array_set_lt by done.
    eapply Inv_record;
      [exact HI | exact Hk | done | done | by rewrite length_insert
      | by apply no_duplicates_insert | by apply elem_of_insert_frames
      | intros; by apply step_ok_replace | ..].
    + intros ->. destruct (inv_fifo _ _ _ _ _ HI eq_refl) as (Hperm & Hord & Hall).
      unfold replace, replace_FIFO in *.
      destruct (fifoQueue st) as [|v' q] eqn:Hq; simpl in Hrep; [done|].
      injection Hrep as ->.
      assert (page ∉ q) as Hnew.
      { intros Hin. apply Hmiss, elem_of_residents. rewrite <- Hperm. by right. }
      unfold fifo_inv, record. cbn [fifoQueue currentFrames trace r_fifoQueue].
      split; [|eapply fifo_enqueue; try done].
      * apply (Permutation_cons_inv (a := v)).
        rewrite residents_replace by done. rewrite <- Hperm.
        rewrite <- Permutation_cons_append. apply perm_swap.
      * intros a s' Ha. by apply (inv_trace _ _ _ _ _ HI).
      * intros a b p p' Hab Ha Hb. by apply (Hord (S a) (S b)); [lia|..].
      * by inversion Hall.
    + intros ->. eapply lru_inv_set; [by apply (inv_lru _ _ _ _ _ HI)|done|].
      apply replace_LRU_map.
    + intros ->. destruct (inv_clock _ _ _ _ _ HI eq_refl) as (Hbl & Hptr & Hbits).
      destruct Hptr as [Hptr|?]; [|lia].
      unfold replace, replace_CLOCK in *.
      destruct (clock_sweep_spec n st (currentFrames st) (referenceBits st)
                  (clockPointer st) Hbl Hptr Hbits (n * 3) ltac:(lia))
        as (d & Hd & Hsl & _ & Hp' & _ & _ & _ & _ & Hbl' & Hbits' & _).
      rewrite Hsl in *. simpl in Hidx. injection Hidx as <-.
      unfold clock_inv, record. cbn [referenceBits clockPointer r_nextRefBits r_clockPointer].
      rewrite array_set_lt by lia. split_and!.
      * by rewrite length_insert.
      * left. rewrite Hp'. apply Nat.mod_upper_bound. lia.
      * apply Forall_insert; [done|by right].
Qed.

Lemma Inv_step pages n alg k st page :
  Forall (fun p => JS.ge0 p = true) pages ->
  Inv pages n alg k st -> pages !! k = Some page ->
  Inv pages n alg (S k) (step pages n alg st page k).
Proof.
  intros Hpages HI Hk.
  destruct (includes (currentFrames st) page) eqn:Hhit.
  - by apply Inv_step_hit.
  - destruct (indexOf (currentFrames st) None) as [e|] eqn:He.
    + by eapply Inv_step_fill.
    + by apply Inv_step_replace.
Qed.

(** Every state the loop goes through satisfies the invariant. *)
Lemma reachable_inv pages n alg k :
  Forall (fun p => JS.ge0 p = true) pages ->
  k <= length pages ->
  Inv pages n alg k (state_at pages n alg k).
Proof.
  intros Hpages. induction k as [|k IH]; intros Hk.
  - rewrite state_at_0. apply Inv_initial.
  - destruct (lookup_lt_is_Some_2 pages k) as [page Hpage]; [lia|].
    rewrite (state_at_S _ _ _ _ _ Hpage). apply Inv_step; [done| |done].
    apply IH. lia.
Qed.

Lemma parseReferenceString_ge0 input :
  Forall (fun p => JS.ge0 p = true) (parseReferenceString input).
Proof.
  unfold parseReferenceString. apply Forall_forall.
  by intros p [? _]%list_elem_of_filter.
Qed.

(** ** The trace of a run *)

Lemma step_trace pages n alg st page i :
  exists s, trace (step pages n alg st page i) = trace st ++ [s].
Proof.
  unfold step, record. repeat case_match; simpl; eauto.
Qed.

Lemma trace_length pages n alg k :
  k <= length pages -> length (trace (state_at pages n alg k)) = k.
Proof.
  induction k as [|k IH]; intros Hk.
  - by rewrite state_at_0.
  - destruct (lookup_lt_is_Some_2 pages k) as [page Hpage]; [lia|].
    rewrite (state_at_S _ _ _ _ _ Hpage).
    destruct (step_trace pages n alg (state_at pages n alg k) page k) as [s ->].
    rewrite length_app, IH by lia. simpl. lia.
Qed.

(** The steps recorded so far are the first steps of the final trace. *)
Lemma trace_prefix pages n alg k k' :
  k <= k' -> k' <= length pages ->
  trace (state_at pages n alg k) = take k (trace (state_at pages n alg k')).
Proof.
  intros Hk. induction Hk as [|k' Hk IH]; intros Hk'.
  - rewrite take_ge; [done|]. by rewrite trace_length.
  - destruct (lookup_lt_is_Some_2 pages k') as [page Hpage]; [lia|].
    rewrite (state_at_S _ _ _ _ _ Hpage).
    destruct (step_trace pages n alg (state_at pages n alg k') page k') as [s ->].
    rewrite take_app_le by (rewrite trace_length; lia).
    apply IH. lia.
Qed.

Lemma frames_before_take n tr k :
  frames_before n (take k tr) k = frames_before n tr k.
Proof. destruct k as [|j]; [done|]. simpl. by rewrite lookup_take_lt by lia. Qed.

(** What the run looks like around the reference of index [k]. *)
Lemma run_around pages n alg k page :
  Forall (fun p => JS.ge0 p = true) pages ->
  pages !! k = Some page ->
  let st := state_at pages n alg k in
  let final := state_at pages n alg (length pages) in
  Inv pages n alg k st /\
  Inv pages n alg (length pages) final /\
  state_at pages n alg (S k) = step pages n alg st page k /\
  currentFrames st = frames_before n (trace final) k /\
  trace st = take k (trace final) /\
  exists s, trace final !! k = Some s /\
            trace (step pages n alg st page k) = trace st ++ [s].
Proof.
  intros Hpages Hk. cbv zeta.
  pose proof (lookup_lt_Some _ _ _ Hk) as Hlt.
  assert (Inv pages n alg k (state_at pages n alg k)) as HI
    by (apply reachable_inv; [done|lia]).
  pose proof (trace_prefix pages n alg k (length pages) ltac:(lia) ltac:(lia)) as Hpre.
  split_and!; try done.
  - by apply reachable_inv.
  - by apply state_at_S.
  - rewrite (inv_current _ _ _ _ _ HI), Hpre. apply frames_before_take.
  - destruct (step_trace pages n alg (state_at pages n alg k) page k) as [s Hs].
    exists s. split; [|done].
    pose proof (trace_prefix pages n alg (S k) (length pages) ltac:(lia) ltac:(lia)) as Hpre'.
    rewrite (state_at_S _ _ _ _ _ Hk), Hs in Hpre'.
    assert ((trace (state_at pages n alg k) ++ [s]) !! k = Some s) as Hlook.
    { rewrite lookup_app_r; rewrite (inv_trace_length _ _ _ _ _ HI); [|lia].
      by rewrite Nat.sub_diag. }
    rewrite Hpre' in Hlook. by rewrite lookup_take_lt in Hlook by lia.
Qed.

Lemma runSimulation_Returns raw frameCount alg :
  (0 <= frameCount < 2 ^ 32)%Z ->
  let pages := parseReferenceString raw in
  runSimulation raw frameCount alg =
  Returns (result alg pages (state_at pages (Z.to_nat frameCount) alg (length pages))).
Proof. intros H pages. by apply simulate_Returns. Qed.

Lemma runSimulation_Throws raw frameCount alg :
  ~ (0 <= frameCount < 2 ^ 32)%Z ->
  runSimulation raw frameCount alg = Throws RangeError.
Proof. intros H. by apply simulate_Throws. Qed.

(** The step a full table and a miss lead to. *)
Lemma step_replace_eq pages n alg st page k :
  includes (currentFrames st) page = false ->
  indexOf (currentFrames st) None = None ->
  let r := replace pages n alg st (currentFrames st) (referenceBits st) page k in
  step pages n alg st page k =
  record alg k page (hits st) (faults st + 1)
    (match indexToReplace r with
     | Some i => array_set None (currentFrames st) i (Some page)
     | None => currentFrames st
     end)
    FAULT (r_replacedPage r) (r_explanation r) (r_fifoQueue r) (r_lruMap r)
    (r_nextRefBits r) (r_clockPointer r) (trace st).
Proof. intros Hmiss Hfull. unfold step. by rewrite Hmiss, Hfull. Qed.

(** * The claims of the specification *)

(** ** C1: frame counts that are not positive *)

(** With no frame the engine runs: every reference is a fault that finds no
    empty slot and no victim. *)
Lemma no_frame_steps pages alg i s :
  Forall (fun p => JS.ge0 p = true) pages ->
  trace (state_at pages 0 alg (length pages)) !! i = Some s ->
  status s = FAULT /\ frames s = [] /\ replacedPage s = None.
Proof.
  intros Hpages Hs.
  pose proof (reachable_inv pages 0 alg (length pages) Hpages ltac:(lia)) as HI.
  assert (frames_before 0 (trace (state_at pages 0 alg (length pages))) i = [])
    as Hbefore.
  { destruct i as [|j]; [done|]. simpl.
    destruct (trace (state_at pages 0 alg (length pages)) !! j) as [s'|] eqn:Hj;
      [|done]. simpl.
    destruct (inv_trace _ _ _ _ _ HI j s' Hj) as (_ & _ & Hlen & _).
    by apply nil_length_inv. }
  destruct (inv_trace _ _ _ _ _ HI i s Hs) as (_ & _ & Hlen & _ & Hhit & _ & _ & Hfull).
  rewrite Hbefore in Hhit, Hfull.
  assert (status s = FAULT) as Hfault.
  { destruct (status s); [|done]. destruct Hhit as [Hhit _].
    specialize (Hhit eq_refl). by apply elem_of_nil in Hhit. }
  split_and!; [done|by apply nil_length_inv|].
  destruct (Hfull Hfault eq_refl) as [(_ & ? & _)|(j & v & Hj & _)]; [done|].
  by rewrite lookup_nil in Hj.
Qed.

(** C1, as the code has it.  The engine has no check of [frameCount]: a
    negative frame count makes [Array(frameCount)] throw a [RangeError]
    before any reference is read, and with [frameCount = 0] the call returns
    a result in which every reference is a FAULT on an empty frame table
    that evicts nothing. *)
Theorem runSimulation_frameCount_not_positive rawRefString frameCount algorithm :
  (frameCount <= 0)%Z ->
  let pages := parseReferenceString rawRefString in
  ((frameCount < 0)%Z ->
   runSimulation rawRefString frameCount algorithm = Throws RangeError) /\
  (frameCount = 0%Z ->
   exists r, runSimulation rawRefString frameCount algorithm = Returns r /\
     length (steps r) = length pages /\
     totalHits r = 0 /\ totalFaults r = length pages /\
     Forall (fun s => status s = FAULT /\ frames s = [] /\ replacedPage s = None)
       (steps r)).
Proof.
  intros Hle pages. split.
  - intros Hneg. apply runSimulation_Throws. lia.
  - intros ->. eexists. split; [by apply runSimulation_Returns|].
    fold pages. change (Z.to_nat 0) with 0. simpl.
    pose proof (parseReferenceString_ge0 rawRefString) as Hpages. fold pages in Hpages.
    pose proof (reachable_inv pages 0 algorithm (length pages) Hpages ltac:(lia)) as HI.
    assert (Forall (fun s => status s = FAULT /\ frames s = [] /\ replacedPage s = None)
              (trace (state_at pages 0 algorithm (length pages)))) as Hall.
    { apply Forall_lookup. intros i s Hs. by eapply no_frame_steps. }
    assert (filter (fun s => status s = HIT)
              (trace (state_at pages 0 algorithm (length pages))) = []) as Hnohit.
    { apply filter_none. eapply Forall_impl; [exact Hall|].
      intros s (Hs & _) Hs'. congruence. }
    assert (filter (fun s => status s = FAULT)
              (trace (state_at pages 0 algorithm (length pages))) =
            trace (state_at pages 0 algorithm (length pages))) as Hallfault.
    { apply filter_all. eapply Forall_impl; [exact Hall|]. by intros s (Hs & _). }
    split_and!; [apply (inv_trace_length _ _ _ _ _ HI)| | |done].
    + by rewrite (inv_hits _ _ _ _ _ HI), Hnohit.
    + rewrite (inv_faults _ _ _ _ _ HI), Hallfault. apply (inv_trace_length _ _ _ _ _ HI).
Qed.

Lemma runSimulation_frameCount_not_positive_witness :
  (0 <= 0)%Z /\
  exists r, runSimulation "7,0,1"%string 0 FIFO = Returns r /\
    length (steps r) = length (parseReferenceString "7,0,1"%string) /\
    totalHits r = 0 /\
    totalFaults r = length (parseReferenceString "7,0,1"%string) /\
    Forall (fun s => status s = FAULT /\ frames s = [] /\ replacedPage s = None)
      (steps r).
Proof.
  split; [lia|].
  exact (proj2 (runSimulation_frameCount_not_positive "7,0,1"%string 0 FIFO
                  ltac:(lia)) eq_refl).
Defined.

(** C1 as stated fails: with [frameCount = 0] the call returns a result. *)
Lemma runSimulation_zero_frames_returns :
  exists r, runSimulation "7,0,1"%string 0 FIFO = Returns r /\
    map status (steps r) = [FAULT; FAULT; FAULT] /\
    map frames (steps r) = [[]; []; []] /\
    totalHits r = 0 /\ totalFaults r = 3.
Proof.
  eexists. split; [by apply runSimulation_Returns|]. vm_compute. done.
Qed.

(** ** C2: the parser *)

(** The parser is a total function: it raises nothing.  Each page it
    returns is the number of a token that is not empty and whose number is
    not [NaN], and is [>= 0]; the order of the tokens is kept. *)
Lemma parseReferenceString_spec input :
  parseReferenceString input =
  omap (fun token =>
          let s := JS.trim token in
          if decide (s <> EmptyString /\ JS.isNaN (JS.Number s) = false
                     /\ JS.ge0 (JS.Number s) = true)
          then Some (JS.Number s) else None)
       (JS.split_comma input).
Proof.
  unfold parseReferenceString.
  assert (forall (f : string -> option number) x l,
            omap f (x :: l) =
            match f x with Some y => y :: omap f l | None => omap f l end) as Hcons
    by done.
  induction (JS.split_comma input) as [|token tokens IH]; [done|].
  rewrite Hcons. cbn [map]. rewrite filter_cons. cbn beta zeta.
  destruct (decide (JS.trim token <> EmptyString /\
                    JS.isNaN (JS.Number (JS.trim token)) = false)) as [Hok|Hno].
  - cbn [map]. rewrite filter_cons, IH.
    destruct (decide (JS.ge0 (JS.Number (JS.trim token)) = true)) as [Hge|Hlt].
    + rewrite decide_True by tauto. done.
    + rewrite decide_False by tauto. done.
  - rewrite decide_False by tauto. done.
Qed.

(** C2 fails on the code: a token with a fraction is a number that is not
    [NaN], so the filter keeps it and the page 1.5 is returned. *)
Theorem parseReferenceString_keeps_fraction :
  parseReferenceString "7,1.5,2"%string =
    [JS.Finite false 7 0; JS.Finite false 3 (-1); JS.Finite false 1 1] /\
  JS.isInteger (JS.Finite false 3 (-1)) = false /\
  Exists (fun page => JS.isInteger page = false)
    (parseReferenceString "7,1.5,2"%string).
Proof.
  split; [by vm_compute|]. split; [done|].
  apply Exists_exists. exists (JS.Finite false 3 (-1)).
  split; [|done]. apply list_elem_of_In. vm_compute. auto.
Qed.

(** ** C7: scenario A *)

(** C7, as the code has it: FIFO with 3 frames on
    7,0,1,2,0,3,0,4,2,3,0,3,1 faults 11 times and hits twice. *)
Theorem scenario_A_fifo_faults :
  exists r,
    runSimulation "7,0,1,2,0,3,0,4,2,3,0,3,1"%string 3 FIFO = Returns r /\
    totalFaults r = 11 /\ totalHits r = 2 /\
    map status (steps r) =
      [FAULT; FAULT; FAULT; FAULT; HIT; FAULT; FAULT; FAULT; FAULT; FAULT;
       FAULT; HIT; FAULT].
Proof.
  eexists. split; [by apply runSimulation_Returns|]. vm_compute. done.
Qed.

(** C7 as stated fails: the fault count of that run is not 9. *)
Lemma scenario_A_fifo_faults_not_9 :
  (forall r,
     runSimulation "7,0,1,2,0,3,0,4,2,3,0,3,1"%string 3 FIFO = Returns r ->
     totalFaults r <> 9) /\
  length (parseReferenceString "7,0,1,2,0,3,0,4,2,3,0,3,1"%string) = 13.
Proof.
  split; [|by vm_compute].
  intros r Hr. rewrite runSimulation_Returns in Hr by lia.
  injection Hr as <-. vm_compute. lia.
Qed.

(** ** C8: the frame table *)

(** C8.  In a run with a positive frame count (one the array constructor
    accepts: past 2^32 - 1 the call throws), the frame table has
    [frameCount] slots and holds no page twice: when the loop starts, before
    every reference, and in the snapshot of every recorded step. *)
Theorem frame_table_invariant rawRefString frameCount algorithm :
  (1 <= frameCount)%Z ->
  let pages := parseReferenceString rawRefString in
  let n := Z.to_nat frameCount in
  match runSimulation rawRefString frameCount algorithm with
  | Returns r =>
      length (steps r) = length pages /\
      Forall (fun s => length (frames s) = n /\ no_duplicates (frames s)) (steps r) /\
      forall k, k <= length pages ->
        let table := currentFrames (state_at pages n algorithm k) in
        length table = n /\ no_duplicates table /\
        table = frames_before n (steps r) k
  | Throws _ => (2 ^ 32 <= frameCount)%Z
  end.
Proof.
  intros Hpos pages n.
  destruct (decide (0 <= frameCount < 2 ^ 32)%Z) as [Hok|Hbig].
  - rewrite runSimulation_Returns by done. fold pages n. simpl.
    pose proof (parseReferenceString_ge0 rawRefString) as Hpages. fold pages in Hpages.
    pose proof (reachable_inv pages n algorithm (length pages) Hpages ltac:(lia)) as HI.
    split_and!.
    + apply (inv_trace_length _ _ _ _ _ HI).
    + apply Forall_lookup. intros i s Hs.
      destruct (inv_trace _ _ _ _ _ HI i s Hs) as (_ & _ & Hlen & Hnd & _). done.
    + intros k Hk. cbv zeta.
      pose proof (reachable_inv pages n algorithm k Hpages Hk) as HIk.
      split_and!; [apply (inv_length _ _ _ _ _ HIk)|apply (inv_nodup _ _ _ _ _ HIk)|].
      rewrite (inv_current _ _ _ _ _ HIk).
      rewrite (trace_prefix pages n algorithm k (length pages)) by lia.
      apply frames_before_take.
  - rewrite runSimulation_Throws by done. lia.
Qed.

Lemma frame_table_invariant_witness :
  (1 <= 3)%Z /\
  match runSimulation "7,0,1,2,0,3"%string 3 LRU with
  | Returns r =>
      length (steps r) = length (parseReferenceString "7,0,1,2,0,3"%string) /\
      Forall (fun s => length (frames s) = Z.to_nat 3 /\ no_duplicates (frames s))
        (steps r) /\
      forall k, k <= length (parseReferenceString "7,0,1,2,0,3"%string) ->
        let table :=
          currentFrames
            (state_at (parseReferenceString "7,0,1,2,0,3"%string) (Z.to_nat 3) LRU k) in
        length table = Z.to_nat 3 /\ no_duplicates table /\
        table = frames_before (Z.to_nat 3) (steps r) k
  | Throws _ => (2 ^ 32 <= 3)%Z
  end.
Proof.
  split; [lia|].
  exact (frame_table_invariant "7,0,1,2,0,3"%string 3 LRU ltac:(lia)).
Defined.

(** ** The division of two counts *)

(** The rounding of [SFdiv], followed through its shifts. *)

Local Open Scope Z_scope.

Lemma pow2_S d : 0 <= d -> 2 ^ (d + 1) = 2 * 2 ^ d.
Proof. intros. rewrite Z.pow_add_r by lia. change (2 ^ 1) with 2. lia. Qed.

Lemma digits2_pos_bounds p :
  2 ^ (Z.pos (digits2_pos p) - 1) <= Z.pos p < 2 ^ Z.pos (digits2_pos p).
Proof.
  induction p as [p IH|p IH|].
  - cbn [digits2_pos]. rewrite Pos2Z.inj_succ.
    replace (Z.succ (Z.pos (digits2_pos p)) - 1) with (Z.pos (digits2_pos p) - 1 + 1) by lia.
    replace (Z.succ (Z.pos (digits2_pos p))) with (Z.pos (digits2_pos p) + 1) by lia.
    rewrite !pow2_S by lia. lia.
  - cbn [digits2_pos]. rewrite Pos2Z.inj_succ.
    replace (Z.succ (Z.pos (digits2_pos p)) - 1) with (Z.pos (digits2_pos p) - 1 + 1) by lia.
    replace (Z.succ (Z.pos (digits2_pos p))) with (Z.pos (digits2_pos p) + 1) by lia.
    rewrite !pow2_S by lia. lia.
  - cbn. lia.
Qed.

Lemma Zdigits2_bounds m :
  0 < m -> 2 ^ (Zdigits2 m - 1) <= m < 2 ^ Zdigits2 m.
Proof. destruct m as [|p|p]; try lia. intros _. apply digits2_pos_bounds. Qed.

Lemma Zdigits2_nonneg m : 0 <= Zdigits2 m.
Proof. destruct m; cbn; lia. Qed.

Lemma located_shr_1 mrs X D :
  0 < D -> 0 <= shr_m mrs -> located mrs X D ->
  located (shr_1 mrs) X (2 * D) /\ 0 <= shr_m (shr_1 mrs) /\
  2 * shr_m (shr_1 mrs) <= shr_m mrs < 2 * shr_m (shr_1 mrs) + 2.
Proof.
  intros HD Hm H. destruct mrs as [m r s]. cbn [shr_m] in Hm.
  destruct m as [|[p|p|]|p]; [| | | |lia].
  all: destruct r, s; unfold located in *; cbn [shr_1 shr_m shr_r shr_s orb] in *.
  all: try pose proof (Pos2Z.inj_xI p) as Hp; try pose proof (Pos2Z.inj_xO p) as Hp'.
  all: lia.
Qed.

Lemma pow2_xO n : 2 ^ Z.pos n~0 = 2 ^ Z.pos n * 2 ^ Z.pos n.
Proof. rewrite Pos2Z.inj_xO, <- Z.pow_add_r by lia. f_equal. lia. Qed.

Lemma pow2_xI n : 2 ^ Z.pos n~1 = 2 * (2 ^ Z.pos n * 2 ^ Z.pos n).
Proof.
  rewrite Pos2Z.inj_xI, <- Z.pow_add_r by lia.
  replace (2 * Z.pos n + 1) with (Z.pos n + Z.pos n + 1) by lia.
  rewrite pow2_S by lia. reflexivity.
Qed.

Lemma located_iter X n : forall mrs D,
  0 < D -> 0 <= shr_m mrs -> located mrs X D ->
  located (SpecFloat.iter_pos shr_1 n mrs) X (2 ^ Z.pos n * D) /\
  0 <= shr_m (SpecFloat.iter_pos shr_1 n mrs) /\
  2 ^ Z.pos n * shr_m (SpecFloat.iter_pos shr_1 n mrs) <= shr_m mrs
    < 2 ^ Z.pos n * (shr_m (SpecFloat.iter_pos shr_1 n mrs) + 1).
Proof.
  induction n as [n IH|n IH|]; intros mrs D HD Hm H; cbn [SpecFloat.iter_pos].
  - destruct (located_shr_1 mrs X D HD Hm H) as (H1 & Hm1 & Hb1).
    assert (0 < 2 ^ Z.pos n) as HP by (apply Z.pow_pos_nonneg; lia).
    destruct (IH (shr_1 mrs) (2 * D) ltac:(lia) Hm1 H1) as (H2 & Hm2 & Hb2).
    destruct (IH (SpecFloat.iter_pos shr_1 n (shr_1 mrs)) (2 ^ Z.pos n * (2 * D)) ltac:(nia) Hm2 H2)
      as (H3 & Hm3 & Hb3).
    rewrite pow2_xI.
    replace (2 * (2 ^ Z.pos n * 2 ^ Z.pos n) * D)
      with (2 ^ Z.pos n * (2 ^ Z.pos n * (2 * D))) by ring.
    split; [exact H3|]. split; [exact Hm3|].
    set (P := 2 ^ Z.pos n) in *.
    set (m3 := shr_m (SpecFloat.iter_pos shr_1 n (SpecFloat.iter_pos shr_1 n (shr_1 mrs)))) in *.
    set (m2 := shr_m (SpecFloat.iter_pos shr_1 n (shr_1 mrs))) in *.
    set (m1 := shr_m (shr_1 mrs)) in *.
    clearbody P m3 m2 m1. nia.
  - assert (0 < 2 ^ Z.pos n) as HP by (apply Z.pow_pos_nonneg; lia).
    destruct (IH mrs D HD Hm H) as (H2 & Hm2 & Hb2).
    destruct (IH (SpecFloat.iter_pos shr_1 n mrs) (2 ^ Z.pos n * D) ltac:(nia) Hm2 H2)
      as (H3 & Hm3 & Hb3).
    rewrite pow2_xO.
    replace (2 ^ Z.pos n * 2 ^ Z.pos n * D)
      with (2 ^ Z.pos n * (2 ^ Z.pos n * D)) by ring.
    split; [exact H3|]. split; [exact Hm3|].
    set (P := 2 ^ Z.pos n) in *.
    set (m3 := shr_m (SpecFloat.iter_pos shr_1 n (SpecFloat.iter_pos shr_1 n mrs))) in *.
    set (m2 := shr_m (SpecFloat.iter_pos shr_1 n mrs)) in *.
    clearbody P m3 m2. nia.
  - destruct (located_shr_1 mrs X D HD Hm H) as (H1 & Hm1 & Hb1).
    change (2 ^ 1) with 2. split; [exact H1|]. split; [exact Hm1|]. lia.
Qed.

Lemma located_shr X mrs e n D :
  0 < D -> 0 <= shr_m mrs -> located mrs X D ->
  located (fst (shr mrs e n)) X (2 ^ Z.max n 0 * D) /\
  0 <= shr_m (fst (shr mrs e n)) /\
  2 ^ Z.max n 0 * shr_m (fst (shr mrs e n)) <= shr_m mrs
    < 2 ^ Z.max n 0 * (shr_m (fst (shr mrs e n)) + 1) /\
  snd (shr mrs e n) = e + Z.max n 0.
Proof.
  intros HD Hm H. destruct n as [|p|p]; cbn [shr fst snd].
  - change (Z.max 0 0) with 0. change (2 ^ 0) with 1.
    replace (1 * D) with D by lia. split; [done|]. lia.
  - replace (Z.max (Z.pos p) 0) with (Z.pos p) by lia.
    destruct (located_iter X p mrs D HD Hm H) as (? & ? & ?). auto.
  - replace (Z.max (Z.neg p) 0) with 0 by lia. change (2 ^ 0) with 1.
    replace (1 * D) with D by lia. split; [done|]. lia.
Qed.

Lemma located_round mrs X D :
  0 < D -> located mrs X D ->
  let z := round_nearest_even (shr_m mrs) (loc_of_shr_record mrs) in
  - D <= 2 * (z * D - X) <= D /\
  shr_m mrs <= z <= shr_m mrs + 1 /\
  (forall k, X = k * D -> z = k).
Proof.
  intros HD H. destruct mrs as [m [|] [|]]; unfold located in H;
    cbn [shr_m shr_r shr_s loc_of_shr_record round_nearest_even] in *.
  - split; [nia|]. split; [lia|]. intros k ->. nia.
  - destruct (Z.even m); (split; [nia|]); (split; [lia|]); intros k ->; nia.
  - split; [nia|]. split; [lia|]. intros k ->. nia.
  - split; [nia|]. split; [lia|]. intros k ->. nia.
Qed.

Lemma located_new_location q r b :
  0 <= r < b ->
  located (shr_record_of_loc q (new_location b r)) (q * b + r) b.
Proof.
  intros Hr. unfold new_location, new_location_even, new_location_odd.
  destruct (Z.even b) eqn:Hev.
  - destruct (Z.eqb_spec r 0) as [->|Hne]; [cbn; unfold located; cbn; lia|].
    apply Z.even_spec in Hev as [c Hc].
    destruct (Z.compare_spec (2 * r) b); cbn [shr_record_of_loc]; unfold located; cbn; lia.
  - destruct (Z.eqb_spec r 0) as [->|Hne]; [cbn; unfold located; cbn; lia|].
    assert (Z.odd b = true) as [c Hc]%Z.odd_spec by (rewrite <- Z.negb_even, Hev; done).
    destruct (Z.compare_spec (2 * r + 1) b); cbn [shr_record_of_loc]; unfold located; cbn; lia.
Qed.

Lemma Zdigits2_pos m : 0 < m -> 1 <= Zdigits2 m.
Proof. destruct m; cbn; lia. Qed.

Lemma pow2_lt_inv x y : 0 <= y -> 2 ^ x < 2 ^ y -> x < y.
Proof.
  intros Hy H. destruct (Z.lt_ge_cases x y) as [|Hge]; [done|].
  pose proof (Z.pow_le_mono_r 2 y x ltac:(lia) Hge). lia.
Qed.

Lemma pow2_pos x : 0 <= x -> 0 < 2 ^ x.
Proof. intros. apply Z.pow_pos_nonneg; lia. Qed.

Lemma shr_m_of_loc q loc : shr_m (shr_record_of_loc q loc) = q.
Proof. by destruct loc as [|[]]. Qed.

(** The digits of a shifted mantissa. *)
Lemma digits_shifted q m1 k :
  0 <= k -> 0 <= m1 -> 2 ^ k * m1 <= q < 2 ^ k * (m1 + 1) ->
  Zdigits2 m1 + k <= Z.max (Zdigits2 q) k.
Proof.
  intros Hk Hm Hb. destruct (decide (m1 = 0)) as [->|Hne]; [cbn; lia|].
  pose proof (Zdigits2_bounds m1 ltac:(lia)) as [Hlo _].
  pose proof (pow2_pos k Hk) as HP.
  assert (0 < q) as Hq by nia.
  pose proof (Zdigits2_bounds q Hq) as [_ Hhi].
  pose proof (Zdigits2_nonneg q) as Hdq.
  pose proof (Zdigits2_pos m1 ltac:(lia)) as Hdm.
  assert (2 ^ (Zdigits2 m1 - 1 + k) < 2 ^ Zdigits2 q) as Hlt.
  { rewrite Z.pow_add_r by lia. nia. }
  apply pow2_lt_inv in Hlt; lia.
Qed.

(** The digits of a mantissa rounded up. *)
Lemma digits_succ m1 :
  0 <= m1 ->
  Zdigits2 (m1 + 1) = Zdigits2 m1 \/
  (Zdigits2 (m1 + 1) = Zdigits2 m1 + 1 /\ m1 + 1 = 2 ^ Zdigits2 m1).
Proof.
  intros Hm. destruct (decide (m1 = 0)) as [->|Hne]; [right; by cbn|].
  pose proof (Zdigits2_bounds m1 ltac:(lia)) as [Hlo Hhi].
  pose proof (Zdigits2_bounds (m1 + 1) ltac:(lia)) as [Hlo' Hhi'].
  pose proof (Zdigits2_pos m1 ltac:(lia)) as Hdm.
  pose proof (Zdigits2_pos (m1 + 1) ltac:(lia)) as Hdz.
  assert (Zdigits2 m1 - 1 < Zdigits2 (m1 + 1)) by (apply pow2_lt_inv; lia).
  assert (Zdigits2 (m1 + 1) - 1 < Zdigits2 m1 + 1).
  { apply pow2_lt_inv; [lia|]. rewrite pow2_S by lia. lia. }
  destruct (decide (Zdigits2 (m1 + 1) = Zdigits2 m1)) as [|Hd]; [by left|].
  right. assert (Zdigits2 (m1 + 1) = Zdigits2 m1 + 1) as Heq by lia.
  split; [done|]. rewrite Heq in Hlo'.
  replace (Zdigits2 m1 + 1 - 1) with (Zdigits2 m1) in Hlo' by lia. lia.
Qed.

Lemma fexp_eq x : fexp 53 1024 x = Z.max (x - 53) (-1074).
Proof. reflexivity. Qed.

Lemma round_aux_spec q e loc X D :
  0 < D -> 0 <= q -> located (shr_record_of_loc q loc) X D ->
  let ef := Z.max e (fexp 53 1024 (Zdigits2 q + e)) in
  let U := 2 ^ (ef - e) * D in
  exists z m2 n2,
    (n2 = 0 \/ n2 = 1) /\ 0 <= m2 /\ m2 * 2 ^ n2 = z /\
    - U <= 2 * (z * U - X) <= U /\
    (forall k, X = k * U -> z = k) /\
    binary_round_aux 53 1024 false q e loc =
      match m2 with
      | Z0 => S754_zero false
      | Zpos m =>
          if (ef + n2 <=? 971) then S754_finite false m (ef + n2)
          else S754_infinity false
      | Zneg _ => S754_nan
      end.
Proof.
  intros HD Hq Hloc ef U.
  unfold binary_round_aux, shr_fexp.
  set (n1 := fexp 53 1024 (Zdigits2 q + e) - e).
  assert (Z.max n1 0 = ef - e) as Hk by (unfold ef, n1; lia).
  destruct (located_shr X (shr_record_of_loc q loc) e n1 D HD
              ltac:(by rewrite shr_m_of_loc) Hloc) as (H1 & Hm1 & Hb1 & He1).
  rewrite shr_m_of_loc in Hb1. rewrite Hk in H1, Hb1, He1.
  destruct (shr (shr_record_of_loc q loc) e n1) as [mrs1 e1].
  cbn [fst snd] in H1, Hm1, Hb1, He1.
  assert (e1 = ef) as -> by lia.
  assert (0 <= ef - e) as Hk0 by lia.
  pose proof (pow2_pos (ef - e) Hk0) as HP.
  fold U in H1.
  assert (0 < U) as HU by (unfold U; nia).
  destruct (located_round mrs1 X U HU H1) as (Herr & Hz & Hexact).
  set (m1 := shr_m mrs1) in *.
  set (z := round_nearest_even m1 (loc_of_shr_record mrs1)) in *.
  set (n2 := fexp 53 1024 (Zdigits2 z + ef) - ef).
  change (shr_record_of_loc z loc_Exact) with (Build_shr_record z false false).
  assert (located (Build_shr_record z false false) z 1) as Hz1
    by (unfold located; cbn; lia).
  destruct (located_shr z (Build_shr_record z false false) ef n2 1 ltac:(lia)
              ltac:(cbn; lia) Hz1) as (_ & Hm2 & Hb2 & He2).
  cbn [shr_m] in Hb2.
  destruct (shr (Build_shr_record z false false) ef n2) as [mrs2 e2].
  cbn [fst snd] in Hm2, Hb2, He2. subst e2.
  (* the second shift is by one digit at most, and loses nothing *)
  pose proof (digits_shifted q m1 (ef - e) Hk0 Hm1 Hb1) as Hdm.
  pose proof (Zdigits2_nonneg q) as Hdq.
  pose proof (Zdigits2_nonneg m1) as Hdm0.
  assert (fexp 53 1024 (Zdigits2 m1 + ef) <= ef) as Hfit.
  { rewrite fexp_eq. unfold ef in *. rewrite fexp_eq in *. lia. }
  assert (-1074 <= ef) as Hmin by (unfold ef; rewrite fexp_eq; lia).
  assert (Z.max n2 0 = 0 \/ (Z.max n2 0 = 1 /\ exists c, z = 2 * c)) as Hn2.
  { destruct (decide (z = m1)) as [Heq|Hne].
    - left. unfold n2. rewrite Heq. lia.
    - assert (z = m1 + 1) as Hz' by lia.
      destruct (digits_succ m1 Hm1) as [Hd|[Hd Hpow]].
      + left. unfold n2. rewrite Hz', Hd. lia.
      + rewrite <- Hz' in Hd, Hpow.
        destruct (decide (Zdigits2 m1 = 0)) as [H0|Hpos].
        * left. unfold n2. rewrite Hd, H0, fexp_eq. lia.
        * destruct (decide (n2 <= 0)) as [|Hgt]; [left; lia|]. right.
          rewrite fexp_eq in Hfit. unfold n2 in *. rewrite Hd, fexp_eq in *.
          split; [lia|]. exists (2 ^ (Zdigits2 m1 - 1)).
          rewrite Hpow. rewrite <- pow2_S by lia. f_equal. lia. }
  exists z, (shr_m mrs2), (Z.max n2 0).
  split; [destruct Hn2 as [->|[-> _]]; auto|].
  split; [done|].
  split.
  { destruct Hn2 as [Hn|[Hn [c Hc]]]; rewrite Hn in *.
    - change (2 ^ 0) with 1 in *. lia.
    - change (2 ^ 1) with 2 in *. lia. }
  split; [exact Herr|].
  split; [exact Hexact|].
  reflexivity.
Qed.

Lemma Zdigits2_le a b : 0 < a <= b -> Zdigits2 a <= Zdigits2 b.
Proof.
  intros H. pose proof (Zdigits2_bounds a ltac:(lia)) as [Ha _].
  pose proof (Zdigits2_bounds b ltac:(lia)) as [_ Hb].
  pose proof (Zdigits2_nonneg b).
  assert (Zdigits2 a - 1 < Zdigits2 b) by (apply pow2_lt_inv; lia). lia.
Qed.

Lemma Zdigits2_lt_pow q s : 0 <= s -> 0 <= q < 2 ^ s -> Zdigits2 q <= s.
Proof.
  intros Hs Hq. destruct (decide (q = 0)) as [->|Hne]; [cbn; lia|].
  pose proof (Zdigits2_bounds q ltac:(lia)) as [Hlo _].
  assert (Zdigits2 q - 1 < s) by (apply pow2_lt_inv; lia). lia.
Qed.

Lemma Zdigits2_pow s : 0 <= s -> Zdigits2 (2 ^ s) = s + 1.
Proof.
  intros Hs. pose proof (pow2_pos s Hs).
  pose proof (Zdigits2_bounds (2 ^ s) ltac:(lia)) as [Hlo Hhi].
  pose proof (Zdigits2_pos (2 ^ s) ltac:(lia)).
  assert (s < Zdigits2 (2 ^ s)) by (apply pow2_lt_inv; lia).
  destruct (decide (Zdigits2 (2 ^ s) - 1 <= s)) as [|Hgt]; [lia|].
  pose proof (Z.pow_lt_mono_r 2 s (Zdigits2 (2 ^ s) - 1) ltac:(lia) ltac:(lia) ltac:(lia)).
  lia.
Qed.

(** The quotient of two positive integers, the first no more than the
    second: a number [m2 * 2^(-K)] within 2^(-54) of the quotient. *)
Lemma SFdiv_near (pa pb : positive) :
  (pa <= pb)%positive ->
  exists m2 K, 0 <= m2 /\ 0 <= K /\
    SFdiv 53 1024 (S754_finite false pa 0) (S754_finite false pb 0) =
      match m2 with
      | Z0 => S754_zero false
      | Zpos m => S754_finite false m (- K)
      | Zneg _ => S754_nan
      end /\
    - (Z.pos pb * 2 ^ K) <= 2 ^ 54 * (m2 * Z.pos pb - Z.pos pa * 2 ^ K)
      <= Z.pos pb * 2 ^ K.
Proof.
  intros Hle. set (a := Z.pos pa). set (b := Z.pos pb).
  assert (0 < a <= b) as Hab by (unfold a, b; lia).
  unfold SFdiv, SFdiv_core_binary. cbn [xorb].
  fold a b. rewrite !Z.add_0_r. change (0 - 0) with 0.
  pose proof (Zdigits2_le a b Hab) as Hd.
  pose proof (Zdigits2_pos a ltac:(lia)) as Hd1.
  set (e' := Z.min (fexp 53 1024 (Zdigits2 a - Zdigits2 b)) 0).
  assert (-1074 <= e' <= -53) as He' by (unfold e'; rewrite fexp_eq; lia).
  set (s := 0 - e'). assert (53 <= s <= 1074) as Hs by (unfold s; lia).
  assert (e' = - s) as He's by (unfold s; lia).
  destruct s as [|ps|ps] eqn:Hseq; [lia| |lia]. rewrite <- Hseq in *.
  rewrite Z.shiftl_mul_pow2 by lia.
  pose proof (pow2_pos s ltac:(lia)) as HPs.
  pose proof (Z_div_mod (a * 2 ^ s) b ltac:(lia)) as Hdiv.
  destruct (Z.div_eucl (a * 2 ^ s) b) as [q r]. destruct Hdiv as [Hqr Hr].
  assert (0 <= q <= 2 ^ s) as Hq by nia.
  pose proof (located_new_location q r b Hr) as Hloc.
  replace (q * b + r) with (a * 2 ^ s) in Hloc by lia.
  destruct (round_aux_spec q e' (new_location b r) (a * 2 ^ s) b ltac:(lia)
              ltac:(lia) Hloc) as (z & m2 & n2 & Hn2 & Hm2 & Hz & Herr & Hexact & ->).
  set (ef := Z.max e' (fexp 53 1024 (Zdigits2 q + e'))) in *.
  pose proof (Zdigits2_nonneg q) as Hdq.
  assert (-1074 <= ef) as Hmin by (unfold ef; rewrite fexp_eq; lia).
  assert (0 <= ef - e') as Hn by (unfold ef; lia).
  pose proof (pow2_pos (ef - e') Hn) as HPn.
  destruct (decide (a = b)) as [Heq|Hne].
  - (* the quotient is 1 *)
    assert (q = 2 ^ s) as Hq' by nia.
    assert (ef = -52) as Hef.
    { unfold ef. rewrite Hq', Zdigits2_pow by lia. rewrite fexp_eq. lia. }
    assert (z = 2 ^ 52) as Hz'.
    { apply Hexact. rewrite Heq.
      replace s with (52 + (ef - e')) at 1 by lia.
      rewrite Z.pow_add_r by lia. ring. }
    exists m2, (52 - n2). rewrite Hef.
    replace (- (52 - n2)) with (-52 + n2) by lia.
    assert (m2 = 2 ^ (52 - n2)) as Hm2'.
    { destruct Hn2 as [->| ->].
      - change (2 ^ 0) with 1 in Hz. change (52 - 0) with 52. lia.
      - change (2 ^ 1) with 2 in Hz. change (52 - 1) with 51.
        change (2 ^ 52) with (2 * 2 ^ 51) in Hz'. lia. }
    split; [done|]. split; [lia|]. split.
    + destruct m2; try done. by destruct Hn2 as [->| ->].
    + rewrite Hm2', Heq.
      pose proof (pow2_pos (52 - n2) ltac:(lia)). nia.
  - (* the quotient is less than 1 *)
    assert (q < 2 ^ s) as Hq' by nia.
    pose proof (Zdigits2_lt_pow q s ltac:(lia) ltac:(lia)) as Hdq'.
    assert (ef <= -53) as Hef by (unfold ef; rewrite fexp_eq; lia).
    exists m2, (- (ef + n2)).
    rewrite Z.opp_involutive.
    split; [done|]. split; [lia|]. split.
    + destruct m2; try done.
      destruct (Z.leb_spec (ef + n2) 971); [done|lia].
    + set (Kf := - ef). assert (53 <= Kf) as HKf by (unfold Kf; lia).
      assert (2 ^ s = 2 ^ (ef - e') * 2 ^ Kf) as Hsplit.
      { rewrite <- Z.pow_add_r by lia. f_equal. unfold Kf. lia. }
      rewrite Hsplit in Herr.
      assert (- b <= 2 * (z * b - a * 2 ^ Kf) <= b) as Herr' by nia.
      assert (2 ^ 53 <= 2 ^ Kf) as Hbig by (apply Z.pow_le_mono_r; lia).
      destruct Hn2 as [->| ->].
      * change (2 ^ 0) with 1 in Hz. replace (- (ef + 0)) with Kf by (unfold Kf; lia).
        change (2 ^ 54) with (2 * 2 ^ 53). nia.
      * change (2 ^ 1) with 2 in Hz.
        replace (- (ef + 1)) with (Kf - 1) by (unfold Kf; lia).
        assert (2 ^ Kf = 2 * 2 ^ (Kf - 1)) as Hhalf.
        { rewrite <- pow2_S by lia. f_equal. lia. }
        assert (2 ^ 52 <= 2 ^ (Kf - 1)) as Hbig' by (apply Z.pow_le_mono_r; lia).
        rewrite Hhalf in Herr'.
        change (2 ^ 54) with (4 * 2 ^ 52). nia.
Qed.

Lemma odd_part_spec m : forall e m' e',
  JS.odd_part m e = (m', e') ->
  exists t, 0 <= t /\ e' = e + t /\ Z.pos m = Z.pos m' * 2 ^ t.
Proof.
  induction m as [m IH|m IH|]; intros e m' e' H; cbn [JS.odd_part] in H.
  - injection H as <- <-. exists 0. change (2 ^ 0) with 1. lia.
  - destruct (IH _ _ _ H) as (t & Ht & -> & Hm).
    exists (t + 1). rewrite pow2_S by lia. lia.
  - injection H as <- <-. exists 0. change (2 ^ 0) with 1. lia.
Qed.

Lemma value_scaled m e M K :
  0 <= K -> 0 <= e + K -> M = Z.pos m * 2 ^ (e + K) ->
  exists v, value (JS.Finite false m e) = Some v /\
    Qeq v (M # Z.to_pos (2 ^ K)).
Proof.
  intros HK HeK ->. eexists. split; [reflexivity|].
  unfold Qeq. cbn [Qnum Qden].
  pose proof (pow2_pos K HK).
  pose proof (pow2_pos (Z.max (- e) 0) ltac:(lia)).
  rewrite !Z2Pos.id by lia.
  destruct (Z.le_ge_cases 0 e).
  - replace (Z.max e 0) with e by lia. replace (Z.max (- e) 0) with 0 by lia.
    rewrite Z.pow_add_r by lia. change (2 ^ 0) with 1. lia.
  - replace (Z.max e 0) with 0 by lia. replace (Z.max (- e) 0) with (- e) by lia.
    change (2 ^ 0) with 1.
    replace K with (e + K + - e) at 1 by lia.
    rewrite Z.pow_add_r by lia. lia.
Qed.

Lemma divide_near (a b : nat) :
  (a <= b)%nat -> (0 < b)%nat ->
  exists v, value (JS.divide a b) = Some v /\
    (- (1 # 2 ^ 54) <= v - (Z.of_nat a # Pos.of_nat b) <= 1 # 2 ^ 54)%Q.
Proof.
  intros Hab Hb. unfold JS.divide.
  destruct b as [|b']; [lia|]. set (b := S b') in *.
  assert (Z.pos (Pos.of_nat b) = Z.of_nat b) as HB by lia.
  destruct a as [|a'].
  { exists 0%Q. split; [reflexivity|].
    unfold Qle, Qminus, Qplus, Qopp. cbn. lia. }
  set (a := S a') in *.
  assert (Z.pos (Pos.of_nat a) = Z.of_nat a) as HA by lia.
  destruct (SFdiv_near (Pos.of_nat a) (Pos.of_nat b) ltac:(lia))
    as (m2 & K & Hm2 & HK & Hdiv & Herr).
  change (JS.of_count a) with (S754_finite false (Pos.of_nat a) 0).
  change (JS.of_count b) with (S754_finite false (Pos.of_nat b) 0).
  rewrite Hdiv. rewrite HA, HB in Herr.
  pose proof (pow2_pos K HK) as HP.
  change (2 ^ 54) with 18014398509481984 in Herr.
  destruct m2 as [|m|m]; [| |lia].
  - exists 0%Q. split; [reflexivity|].
    unfold Qle, Qminus, Qplus, Qopp. cbn [Qnum Qden].
    rewrite HB. change (Z.pos (2 ^ 54)) with 18014398509481984. nia.
  - cbn [JS.of_spec_float].
    destruct (JS.odd_part m (- K)) as [mo eo] eqn:Hodd.
    destruct (odd_part_spec _ _ _ _ Hodd) as (t & Ht & -> & Hm).
    destruct (value_scaled mo (- K + t) (Z.pos m) K HK ltac:(lia)) as (v & Hv & Heq).
    { rewrite Hm. f_equal. f_equal. lia. }
    exists v. split; [exact Hv|].
    rewrite Heq.
    unfold Qle, Qminus, Qplus, Qopp. cbn [Qnum Qden].
    rewrite !Pos2Z.inj_mul, HB, Z2Pos.id by lia.
    change (Z.pos (2 ^ 54)) with 18014398509481984. nia.
Qed.

Local Close Scope Z_scope.

(** The two quotients of a run: the counts add up to the length, so the
    values add up to 1 within twice the bound of one rounding. *)
Lemma ratio_sum_near (h f : Q) (H F n : nat) :
  H + F = n -> 0 < n ->
  (- (1 # 2 ^ 54) <= h - (Z.of_nat H # Pos.of_nat n) <= 1 # 2 ^ 54)%Q ->
  (- (1 # 2 ^ 54) <= f - (Z.of_nat F # Pos.of_nat n) <= 1 # 2 ^ 54)%Q ->
  (- (1 # 2 ^ 53) <= h + f - 1 <= 1 # 2 ^ 53)%Q.
Proof.
  intros Hsum Hn Hh Hf.
  assert (Qeq ((Z.of_nat H # Pos.of_nat n) + (Z.of_nat F # Pos.of_nat n)) 1) as Hone.
  { unfold Qplus, Qeq. cbn [Qnum Qden].
    assert (Z.pos (Pos.of_nat n) = Z.of_nat n) as Hpos by lia.
    rewrite Pos2Z.inj_mul, Hpos. subst n. lia. }
  set (x := (Z.of_nat H # Pos.of_nat n)%Q) in *.
  set (y := (Z.of_nat F # Pos.of_nat n)%Q) in *.
  clearbody x y.
  change (1 # 2 ^ 54)%Q with (1 # 18014398509481984)%Q in *.
  change (1 # 2 ^ 53)%Q with (1 # 9007199254740992)%Q.
  lra.
Qed.

(** ** C9: the ratios *)

(** C9.  A call that returns has counted each reference once, as a hit or
    as a fault.  On an empty reference sequence both ratios are 0.
    Otherwise they are the binary64 quotients of the counts by the length:
    numbers within 2^-54 of the rational quotients, so that their values add
    up to 1 within 2^-53 (and not always to 1). *)
Theorem ratios_of_result rawRefString frameCount algorithm :
  match runSimulation rawRefString frameCount algorithm with
  | Returns r =>
      let len := length (parseReferenceString rawRefString) in
      totalHits r + totalFaults r = len /\
      length (steps r) = len /\
      totalHits r = length (filter (fun s => status s = HIT) (steps r)) /\
      totalFaults r = length (filter (fun s => status s = FAULT) (steps r)) /\
      (len = 0 -> hitRatio r = JS.Zero /\ faultRatio r = JS.Zero) /\
      (0 < len ->
       hitRatio r = JS.divide (totalHits r) len /\
       faultRatio r = JS.divide (totalFaults r) len /\
       exists h f,
         value (hitRatio r) = Some h /\ value (faultRatio r) = Some f /\
         (- (1 # 2 ^ 54) <= h - (Z.of_nat (totalHits r) # Pos.of_nat len)
            <= 1 # 2 ^ 54)%Q /\
         (- (1 # 2 ^ 54) <= f - (Z.of_nat (totalFaults r) # Pos.of_nat len)
            <= 1 # 2 ^ 54)%Q /\
         (- (1 # 2 ^ 53) <= h + f - 1 <= 1 # 2 ^ 53)%Q)
  | Throws _ => ~ (0 <= frameCount < 2 ^ 32)%Z
  end.
Proof.
  destruct (decide (0 <= frameCount < 2 ^ 32)%Z) as [Hok|Hbad].
  2: { by rewrite runSimulation_Throws. }
  rewrite runSimulation_Returns by done.
  set (pages := parseReferenceString rawRefString).
  set (n := Z.to_nat frameCount).
  pose proof (parseReferenceString_ge0 rawRefString) as Hpages. fold pages in Hpages.
  pose proof (reachable_inv pages n algorithm (length pages) Hpages ltac:(lia)) as HI.
  set (st := state_at pages n algorithm (length pages)) in *.
  pose proof (inv_hits _ _ _ _ _ HI) as Hh.
  pose proof (inv_faults _ _ _ _ _ HI) as Hf.
  pose proof (inv_trace_length _ _ _ _ _ HI) as Hl.
  assert (hits st + faults st = length pages) as Hsum.
  { rewrite Hh, Hf, <- Hl. clear. induction (trace st) as [|s tr IH]; [done|].
    rewrite !filter_cons. destruct (status s); simpl; lia. }
  unfold result. simpl. split_and!; try done.
  - intros Hz. by rewrite !decide_False by lia.
  - intros Hlen. rewrite !decide_True by done.
    destruct (divide_near (hits st) (length pages) ltac:(lia) Hlen) as (h & Hvh & Hnh).
    destruct (divide_near (faults st) (length pages) ltac:(lia) Hlen) as (f & Hvf & Hnf).
    split; [done|]. split; [done|].
    exists h, f. split; [done|]. split; [done|].
    split; [exact Hnh|]. split; [exact Hnf|].
    exact (ratio_sum_near h f _ _ _ Hsum Hlen Hnh Hnf).
Qed.

(** The ratios of three references to one page with three frames: one
    fault, then two hits.  Neither ratio is the rational quotient, and the
    two values add up to 1 - 2^-54. *)
Lemma ratios_not_exact :
  exists r h f,
    runSimulation "1,1,1"%string 3 FIFO = Returns r /\
    totalHits r = 2 /\ totalFaults r = 1 /\
    length (parseReferenceString "1,1,1"%string) = 3 /\
    hitRatio r = JS.Finite false 6004799503160661 (-53) /\
    faultRatio r = JS.Finite false 6004799503160661 (-54) /\
    value (hitRatio r) = Some h /\ value (faultRatio r) = Some f /\
    ~ Qeq h (2 # 3) /\ ~ Qeq f (1 # 3) /\ ~ Qeq (h + f) 1 /\
    Qeq (1 - (h + f)) (1 # 2 ^ 54).
Proof.
  eexists _, _, _. split; [by apply runSimulation_Returns|].
  do 5 (split; [by vm_compute|]).
  split; [by vm_compute|]. split; [by vm_compute|].
  split_and!; vm_compute; congruence.
Qed.

(** ** C10: what a step records *)

(** C10.  A HIT step records no evicted page and the frame table as it was
    before the step (the all-empty table before step 0); a FAULT step that
    finds an empty slot records no evicted page; so a step that records an
    evicted page is a FAULT step that found the table full. *)
Theorem evicted_page_recorded rawRefString frameCount algorithm :
  match runSimulation rawRefString frameCount algorithm with
  | Returns r =>
      forall k s, steps r !! k = Some s ->
        let before := frames_before (Z.to_nat frameCount) (steps r) k in
        (status s = HIT <-> Some (requestedPage s) ∈ before) /\
        (status s = HIT -> replacedPage s = None /\ frames s = before) /\
        (status s = FAULT -> None ∈ before -> replacedPage s = None) /\
        (replacedPage s <> None -> status s = FAULT /\ None ∉ before)
  | Throws _ => ~ (0 <= frameCount < 2 ^ 32)%Z
  end.
Proof.
  destruct (decide (0 <= frameCount < 2 ^ 32)%Z) as [Hok|Hbad].
  2: { by rewrite runSimulation_Throws. }
  rewrite runSimulation_Returns by done.
  set (pages := parseReferenceString rawRefString).
  set (n := Z.to_nat frameCount).
  pose proof (parseReferenceString_ge0 rawRefString) as Hpages. fold pages in Hpages.
  pose proof (reachable_inv pages n algorithm (length pages) Hpages ltac:(lia)) as HI.
  simpl. intros k s Hs.
  destruct (inv_trace _ _ _ _ _ HI k s Hs) as (_ & _ & _ & _ & Hiff & Hhit & Hfill & _).
  assert (status s = FAULT -> None ∈ frames_before n
            (trace (state_at pages n algorithm (length pages))) k ->
          replacedPage s = None) as Hempty.
  { intros Hfault [i Hi]%indexOf_elem. by destruct (Hfill Hfault i Hi). }
  split_and!; [done|done|done|].
  intros Hev. destruct (status s) eqn:Hst.
  - by destruct (Hhit eq_refl).
  - split; [done|]. intros Hin. by apply Hev, Hempty.
Qed.

(** ** Faults on a full table *)

(** The step recorded for a reference that misses a full table of at least
    one frame: the victim the policy's branch returns is a resident page,
    the step records it, and the new page takes its slot. *)
Lemma run_replacement pages n alg k page :
  Forall (fun p => JS.ge0 p = true) pages ->
  0 < n ->
  pages !! k = Some page ->
  let st := state_at pages n alg k in
  let st' := state_at pages n alg (S k) in
  let r := replace pages n alg st (currentFrames st) (referenceBits st) page k in
  includes (currentFrames st) page = false ->
  indexOf (currentFrames st) None = None ->
  exists i v s,
    trace (state_at pages n alg (length pages)) !! k = Some s /\
    indexToReplace r = Some i /\ r_replacedPage r = Some v /\
    currentFrames st !! i = Some (Some v) /\
    stepIndex s = k /\ requestedPage s = page /\ status s = FAULT /\
    replacedPage s = Some v /\
    frames s = <[i := Some page]> (currentFrames st) /\
    currentFrames st' = frames s /\
    fifoQueue st' = r_fifoQueue r /\ lruMap st' = r_lruMap r /\
    referenceBits st' = r_nextRefBits r /\ clockPointer st' = r_clockPointer r.
Proof.
  intros Hpages Hn Hk st st' r Hmiss Hfull.
  destruct (run_around pages n alg k page Hpages Hk)
    as (HI & _ & HS & _ & _ & s & Hs & Htr).
  fold st in HI, HS, Htr. fold st' in HS.
  pose proof (step_replace_eq pages n alg st page k Hmiss Hfull) as Hstep.
  fold r in Hstep. cbv zeta in Hstep.
  destruct (replace_victim pages n alg Hpages k st page HI Hfull)
    as [(Hn0 & _)|(i & v & Hidx & Hi & Hrep)]; [lia|].
  fold r in Hidx, Hrep.
  rewrite Hidx, Hrep in Hstep.
  rewrite array_set_lt in Hstep by (by eapply lookup_lt_Some).
  rewrite Hstep in Htr. unfold record in Htr. cbn [trace] in Htr.
  apply app_inv_head in Htr. injection Htr as <-.
  exists i, v. eexists. split; [exact Hs|].
  rewrite HS, Hstep. unfold record. simpl. by rewrite Hidx, Hrep.
Qed.

(** ** C3: OPTIMAL *)

(** C3.  In a run of OPTIMAL, a reference of index [k] that misses a full
    table evicts the resident page [v] of slot [i] such that no resident
    page has its next use further than [v] has, and every resident page of
    an earlier slot has its next use strictly sooner.  So a page that is
    not used again is taken before any that is, the first such page in slot
    order; and when every resident page is used again, the first page of
    largest distance. *)
Theorem optimal_victim_furthest rawRefString frameCount k page :
  let pages := parseReferenceString rawRefString in
  let n := Z.to_nat frameCount in
  let st := state_at pages n OPTIMAL k in
  let dist := next_use pages k in
  (1 <= frameCount < 2 ^ 32)%Z ->
  pages !! k = Some page ->
  includes (currentFrames st) page = false ->
  indexOf (currentFrames st) None = None ->
  exists r s i v,
    runSimulation rawRefString frameCount OPTIMAL = Returns r /\
    steps r !! k = Some s /\
    status s = FAULT /\ requestedPage s = page /\
    currentFrames st !! i = Some (Some v) /\
    replacedPage s = Some v /\
    frames s = <[i := Some page]> (currentFrames st) /\
    (forall j p, currentFrames st !! j = Some (Some p) -> ~ sooner (dist v) (dist p)) /\
    (forall j p, j < i -> currentFrames st !! j = Some (Some p) ->
       sooner (dist p) (dist v)) /\
    ((exists j p, currentFrames st !! j = Some (Some p) /\ dist p = None) ->
     dist v = None /\
     forall j p, j < i -> currentFrames st !! j = Some (Some p) -> dist p <> None) /\
    ((forall j p, currentFrames st !! j = Some (Some p) -> dist p <> None) ->
     exists d, dist v = Some d /\
       (forall j p, currentFrames st !! j = Some (Some p) ->
          exists d', dist p = Some d' /\ d' <= d) /\
       (forall j p, j < i -> currentFrames st !! j = Some (Some p) ->
          exists d', dist p = Some d' /\ d' < d)).
Proof.
  intros pages n st dist Hfc Hk Hmiss Hfull.
  pose proof (parseReferenceString_ge0 rawRefString) as Hpages. fold pages in Hpages.
  destruct (run_replacement pages n OPTIMAL k page Hpages ltac:(lia) Hk Hmiss Hfull)
    as (i & v & s & Hs & Hidx & Hrep & Hi & _ & Hreq & Hst & Hev & Hfr & _).
  fold st in Hidx, Hrep, Hi, Hfr.
  assert (Inv pages n OPTIMAL k st) as HI.
  { apply reachable_inv; [done|]. apply lookup_lt_Some in Hk. lia. }
  (* the scan of this step *)
  assert (Some v ∈ currentFrames st) as Hin by (by eapply list_elem_of_lookup_2).
  destruct (opt_scan_victim pages k _ _ Hin) as (i' & Hi' & _ & Hmax & Hfirst).
  cbv zeta in Hi', Hmax, Hfirst.
  unfold replace, replace_OPTIMAL in Hidx, Hrep.
  set (w := o_pageToEvict (opt_scan pages k (currentFrames st))) in *.
  destruct (decide (w <> minus_one)) as [Hw|Hw]; simpl in Hrep; [|done].
  injection Hrep as Hwv. rewrite Hwv in *. clear w Hwv Hw Hidx.
  assert (i' = i) as -> by (by eapply (inv_nodup _ _ _ _ _ HI)).
  exists (result OPTIMAL pages (state_at pages n OPTIMAL (length pages))), s, i, v.
  split; [by apply runSimulation_Returns; lia|].
  split_and!; try done.
  - intros (j & p & Hj & Hp). split.
    + specialize (Hmax j p Hj). fold dist in Hmax. rewrite Hp in Hmax.
      destruct (dist v); simpl in Hmax; [tauto|done].
    + intros j' p' Hj' Hp' Hnone. specialize (Hfirst j' p' Hj' Hp').
      fold dist in Hfirst. by rewrite Hnone in Hfirst.
  - intros Hall. destruct (dist v) as [d|] eqn:Hd.
    2: { by destruct (Hall i v Hi). }
    exists d. split_and!; [done|..].
    + intros j p Hj. specialize (Hmax j p Hj). fold dist in Hmax. rewrite Hd in Hmax.
      destruct (dist p) as [d'|] eqn:Hd'; [|by destruct (Hall j p Hj)].
      exists d'. simpl in Hmax. split; [done|lia].
    + intros j p Hji Hj. specialize (Hfirst j p Hji Hj). fold dist in Hfirst.
      rewrite Hd in Hfirst.
      destruct (dist p) as [d'|] eqn:Hd'; [|done].
      exists d'. simpl in Hfirst. split; [done|lia].
Qed.

Lemma optimal_victim_furthest_witness :
  exists r s i v,
    runSimulation "1,2,3,1"%string 2 OPTIMAL = Returns r /\
    steps r !! 2 = Some s /\
    currentFrames (state_at (parseReferenceString "1,2,3,1"%string) (Z.to_nat 2) OPTIMAL 2)
      !! i = Some (Some v) /\
    replacedPage s = Some v /\ v = JS.Finite false 1 1.
Proof.
  destruct (optimal_victim_furthest "1,2,3,1"%string 2 2 (JS.Finite false 3 0))
    as (r & s & i & v & Hr & Hs & _ & _ & Hi & Hev & _); [lia|by vm_compute..|].
  exists r, s, i, v. split_and!; try done.
  rewrite runSimulation_Returns in Hr by lia. injection Hr as <-.
  vm_compute in Hs. injection Hs as <-. vm_compute in Hev. by injection Hev as <-.
Defined.

(** ** C4: LRU *)

(** C4.  In a run of LRU the map holds, for each resident page, the index
    of its last reference.  A hit sets the index of the hit page to the
    current step.  A reference that misses a full table evicts the resident
    page [v] of slot [i] whose index is least: no resident page has a
    smaller one, and every resident page of an earlier slot has a strictly
    greater one. *)
Theorem lru_victim_least_recent rawRefString frameCount k page :
  let pages := parseReferenceString rawRefString in
  let n := Z.to_nat frameCount in
  let st := state_at pages n LRU k in
  let st' := state_at pages n LRU (S k) in
  let last := lastAccessOf (lruMap st) in
  (1 <= frameCount < 2 ^ 32)%Z ->
  pages !! k = Some page ->
  (forall j p, currentFrames st !! j = Some (Some p) ->
     exists t, lruMap st !! p = Some t /\ last p = Z.of_nat t /\ t < k /\
       pages !! t = Some p /\ forall u, t < u < k -> pages !! u <> Some p) /\
  (includes (currentFrames st) page = true ->
   lruMap st' = <[page := k]> (lruMap st) /\ lruMap st' !! page = Some k) /\
  (includes (currentFrames st) page = false ->
   indexOf (currentFrames st) None = None ->
   exists r s i v,
     runSimulation rawRefString frameCount LRU = Returns r /\
     steps r !! k = Some s /\
     status s = FAULT /\ requestedPage s = page /\
     currentFrames st !! i = Some (Some v) /\
     replacedPage s = Some v /\
     frames s = <[i := Some page]> (currentFrames st) /\
     (forall j p, currentFrames st !! j = Some (Some p) -> (last v <= last p)%Z) /\
     (forall j p, j < i -> currentFrames st !! j = Some (Some p) ->
        (last v < last p)%Z) /\
     lruMap st' !! page = Some k).
Proof.
  intros pages n st st' last Hfc Hk.
  pose proof (parseReferenceString_ge0 rawRefString) as Hpages. fold pages in Hpages.
  assert (Inv pages n LRU k st) as HI.
  { apply reachable_inv; [done|]. apply lookup_lt_Some in Hk. lia. }
  split_and!.
  - (* the recorded indices *)
    intros j p Hj.
    pose proof (inv_lru _ _ _ _ _ HI eq_refl p) as Hp.
    unfold last, lastAccessOf. destruct (lruMap st !! p) as [t|].
    + exists t. tauto.
    + destruct Hp. apply (inv_resident _ _ _ _ _ HI).
      by eapply list_elem_of_lookup_2.
  - (* a hit *)
    intros Hhit. unfold st'. rewrite (state_at_S _ _ _ _ _ Hk). fold st.
    unfold step. rewrite Hhit. cbn [record lruMap].
    split; [done|apply lookup_insert_eq].
  - (* a fault on a full table *)
    intros Hmiss Hfull.
    destruct (run_replacement pages n LRU k page Hpages ltac:(lia) Hk Hmiss Hfull)
      as (i & v & s & Hs & Hidx & Hrep & Hi & _ & Hreq & Hst & Hev & Hfr & _ & _ & Hmap & _).
    fold st in Hidx, Hrep, Hi, Hfr, Hmap. fold st' in Hmap.
    assert (Some v ∈ currentFrames st) as Hin by (by eapply list_elem_of_lookup_2).
    destruct (lru_scan_victim (lruMap st) _ _ Hin) as (i' & Hi' & Hmin & Hfirst).
    cbv zeta in Hi', Hmin, Hfirst.
    unfold replace in Hidx, Hrep, Hmap. rewrite replace_LRU_map in Hmap.
    unfold replace_LRU in Hidx, Hrep.
    set (w := (lru_scan (lruMap st) (currentFrames st)).2) in *.
    destruct (decide (w <> minus_one)) as [Hw|Hw]; simpl in Hrep; [|done].
    injection Hrep as Hwv. rewrite Hwv in *. clear w Hwv Hw Hidx.
    assert (i' = i) as -> by (by eapply (inv_nodup _ _ _ _ _ HI)).
    exists (result LRU pages (state_at pages n LRU (length pages))), s, i, v.
    split; [by apply runSimulation_Returns; lia|].
    split_and!; try done.
    rewrite Hmap. apply lookup_insert_eq.
Qed.

Lemma lru_victim_least_recent_witness :
  (exists r s i v,
     runSimulation "1,2,1,3"%string 2 LRU = Returns r /\
     steps r !! 3 = Some s /\
     currentFrames (state_at (parseReferenceString "1,2,1,3"%string) (Z.to_nat 2) LRU 3)
       !! i = Some (Some v) /\
     replacedPage s = Some v /\ v = JS.Finite false 1 1) /\
  lruMap (state_at (parseReferenceString "1,2,1,3"%string) (Z.to_nat 2) LRU 3)
    !! JS.Finite false 1 0 = Some 2.
Proof.
  split.
  - destruct (lru_victim_least_recent "1,2,1,3"%string 2 3 (JS.Finite false 3 0))
      as (_ & _ & Hfault); [lia|by vm_compute|].
    destruct Hfault as (r & s & i & v & Hr & Hs & _ & _ & Hi & Hev & _);
      [by vm_compute..|].
    exists r, s, i, v. split_and!; try done.
    rewrite runSimulation_Returns in Hr by lia. injection Hr as <-.
    vm_compute in Hs. injection Hs as <-. vm_compute in Hev. by injection Hev as <-.
  - destruct (lru_victim_least_recent "1,2,1,3"%string 2 2 (JS.Finite false 1 0))
      as (_ & Hhit & _); [lia|by vm_compute|].
    destruct Hhit as [_ Hhit]; [by vm_compute|]. exact Hhit.
Defined.

(** ** C5: FIFO *)

(** C5.  In a run of FIFO the queue lists the resident pages.  A reference
    that misses a full table evicts the head [v] of the queue, a resident
    page loaded before every other resident page; the head leaves the queue
    and the new page joins it at the tail. *)
Theorem fifo_victim_oldest rawRefString frameCount k page :
  let pages := parseReferenceString rawRefString in
  let n := Z.to_nat frameCount in
  let st := state_at pages n FIFO k in
  let st' := state_at pages n FIFO (S k) in
  (1 <= frameCount < 2 ^ 32)%Z ->
  pages !! k = Some page ->
  includes (currentFrames st) page = false ->
  indexOf (currentFrames st) None = None ->
  exists r s i v queue,
    runSimulation rawRefString frameCount FIFO = Returns r /\
    steps r !! k = Some s /\
    status s = FAULT /\ requestedPage s = page /\
    fifoQueue st ≡ₚ residents (currentFrames st) /\
    fifoQueue st = v :: queue /\
    currentFrames st !! i = Some (Some v) /\
    replacedPage s = Some v /\
    frames s = <[i := Some page]> (currentFrames st) /\
    fifoQueue st' = queue ++ [page] /\
    (forall p, Some p ∈ currentFrames st -> p <> v ->
       earlier (take k (steps r)) v p).
Proof.
  intros pages n st st' Hfc Hk Hmiss Hfull.
  pose proof (parseReferenceString_ge0 rawRefString) as Hpages. fold pages in Hpages.
  destruct (run_around pages n FIFO k page Hpages Hk) as (HI & _ & _ & _ & Htake & _).
  fold st in HI, Htake.
  destruct (run_replacement pages n FIFO k page Hpages ltac:(lia) Hk Hmiss Hfull)
    as (i & v & s & Hs & Hidx & Hrep & Hi & _ & Hreq & Hst & Hev & Hfr & _ & Hq' & _).
  fold st in Hidx, Hrep, Hi, Hfr, Hq'. fold st' in Hq'.
  destruct (inv_fifo _ _ _ _ _ HI eq_refl) as (Hperm & Hord & _).
  unfold replace, replace_FIFO in Hidx, Hrep, Hq'.
  destruct (fifoQueue st) as [|v' queue] eqn:Hq; simpl in Hrep; [done|].
  injection Hrep as ->. simpl in Hq'.
  exists (result FIFO pages (state_at pages n FIFO (length pages))), s, i, v, queue.
  split; [by apply runSimulation_Returns; lia|].
  split_and!; try done.
  intros p Hp Hne. simpl. rewrite <- Htake.
  apply elem_of_residents in Hp. rewrite <- Hperm in Hp.
  apply elem_of_cons in Hp as [->|Hp]; [done|].
  apply list_elem_of_lookup in Hp as [j Hj].
  by apply (Hord 0 (S j)); [lia|..].
Qed.

Lemma fifo_victim_oldest_witness :
  exists r s i v queue,
    runSimulation "1,2,1,3"%string 2 FIFO = Returns r /\
    steps r !! 3 = Some s /\
    fifoQueue (state_at (parseReferenceString "1,2,1,3"%string) (Z.to_nat 2) FIFO 3)
      = v :: queue /\
    currentFrames (state_at (parseReferenceString "1,2,1,3"%string) (Z.to_nat 2) FIFO 3)
      !! i = Some (Some v) /\
    replacedPage s = Some v /\ v = JS.Finite false 1 0.
Proof.
  destruct (fifo_victim_oldest "1,2,1,3"%string 2 3 (JS.Finite false 3 0))
    as (r & s & i & v & queue & Hr & Hs & _ & _ & _ & Hq & Hi & Hev & _);
    [lia|by vm_compute..|].
  exists r, s, i, v, queue. split_and!; try done.
  rewrite runSimulation_Returns in Hr by lia. injection Hr as <-.
  vm_compute in Hs. injection Hs as <-. vm_compute in Hev. by injection Hev as <-.
Defined.

(** ** C6: CLOCK *)

(** C6.  In a run of CLOCK with a frame at least, a reference that misses a
    full table starts the sweep on the pointer, a slot of the table.  The
    sweep passes [d <= frameCount] slots, each with bit 1, and clears their
    bits; it stops on the next slot [i], whose bit is 0 when it is chosen,
    after [d + 1 <= 2 * frameCount] visits, less than the bound of
    [3 * frameCount]; the other bits are untouched.  The page of slot [i] is
    evicted, the new page takes the slot with bit 1, and the pointer moves
    to the slot after [i]. *)
Theorem clock_sweep_finds_victim rawRefString frameCount k page :
  let pages := parseReferenceString rawRefString in
  let n := Z.to_nat frameCount in
  let st := state_at pages n CLOCK k in
  let st' := state_at pages n CLOCK (S k) in
  let sweep := clock_sweep n st (currentFrames st) (n * 3) (referenceBits st)
                 (clockPointer st) 0 in
  (1 <= frameCount < 2 ^ 32)%Z ->
  pages !! k = Some page ->
  includes (currentFrames st) page = false ->
  indexOf (currentFrames st) None = None ->
  exists r s d v,
    let i := (clockPointer st + d) mod n in
    runSimulation rawRefString frameCount CLOCK = Returns r /\
    steps r !! k = Some s /\
    status s = FAULT /\ requestedPage s = page /\
    clockPointer st < n /\ length (referenceBits st) = n /\
    d <= n /\
    indexToReplace sweep = Some i /\
    r_attempts sweep = d + 1 /\
    r_attempts sweep <= 2 * n /\ r_attempts sweep < n * 3 /\
    r_nextRefBits sweep !! i = Some 0%Z /\
    (forall j, j < d ->
       referenceBits st !! ((clockPointer st + j) mod n) = Some 1%Z /\
       r_nextRefBits sweep !! ((clockPointer st + j) mod n) = Some 0%Z) /\
    (forall t, t < n -> (forall j, j < d -> t <> (clockPointer st + j) mod n) ->
       r_nextRefBits sweep !! t = referenceBits st !! t) /\
    currentFrames st !! i = Some (Some v) /\
    replacedPage s = Some v /\
    frames s = <[i := Some page]> (currentFrames st) /\
    referenceBits st' = <[i := 1%Z]> (r_nextRefBits sweep) /\
    clockPointer st' = (i + 1) mod n /\ clockPointer st' < n.
Proof.
  intros pages n st st' sweep Hfc Hk Hmiss Hfull.
  pose proof (parseReferenceString_ge0 rawRefString) as Hpages. fold pages in Hpages.
  assert (0 < n) as Hn by lia.
  assert (Inv pages n CLOCK k st) as HI.
  { apply reachable_inv; [done|]. apply lookup_lt_Some in Hk. lia. }
  destruct (inv_clock _ _ _ _ _ HI eq_refl) as (Hbl & [Hptr|?] & Hbits); [|lia].
  destruct (run_replacement pages n CLOCK k page Hpages Hn Hk Hmiss Hfull)
    as (i & v & s & Hs & Hidx & Hrep & Hi & _ & Hreq & Hst & Hev & Hfr & _ & _ & _ & Hb' & Hp').
  fold st in Hidx, Hrep, Hi, Hfr, Hb', Hp'. fold st' in Hb', Hp'.
  destruct (clock_sweep_spec n st (currentFrames st) (referenceBits st)
              (clockPointer st) Hbl Hptr Hbits (n * 3) ltac:(lia))
    as (d & Hd & Hsl & Hatt & Hnp & _ & _ & _ & _ & Hbl' & _ & Hzero & Hpassed & Hrest).
  fold sweep in Hsl, Hatt, Hnp, Hbl', Hzero, Hpassed, Hrest.
  unfold replace, replace_CLOCK in Hidx, Hrep, Hb', Hp'.
  fold sweep in Hidx, Hrep, Hb', Hp'. rewrite Hsl in Hidx, Hrep, Hb', Hp'.
  simpl in Hidx, Hrep, Hb', Hp'. injection Hidx as <-.
  assert ((clockPointer st + d) mod n < n) as Hil by (apply Nat.mod_upper_bound; lia).
  rewrite array_set_lt in Hb' by lia.
  exists (result CLOCK pages (state_at pages n CLOCK (length pages))), s, d, v.
  cbv zeta. split; [by apply runSimulation_Returns; lia|].
  split_and!; try done; try lia.
  rewrite Hp', Hnp. apply Nat.mod_upper_bound. lia.
Qed.

Lemma clock_sweep_finds_victim_witness :
  exists r s d v,
    runSimulation "1,2,3"%string 2 CLOCK = Returns r /\
    steps r !! 2 = Some s /\
    replacedPage s = Some v /\ v = JS.Finite false 1 0 /\
    r_attempts
      (clock_sweep (Z.to_nat 2)
         (state_at (parseReferenceString "1,2,3"%string) (Z.to_nat 2) CLOCK 2)
         (currentFrames
            (state_at (parseReferenceString "1,2,3"%string) (Z.to_nat 2) CLOCK 2))
         (Z.to_nat 2 * 3)
         (referenceBits
            (state_at (parseReferenceString "1,2,3"%string) (Z.to_nat 2) CLOCK 2))
         (clockPointer
            (state_at (parseReferenceString "1,2,3"%string) (Z.to_nat 2) CLOCK 2))
         0) = d + 1 /\
    d = 2.
Proof.
  destruct (clock_sweep_finds_victim "1,2,3"%string 2 2 (JS.Finite false 3 0))
    as (r & s & d & v & Hr & Hs & _ & _ & _ & _ & _ & _ & Hatt & _ & _ & _ & _ & _ & _
        & Hev & _);
    [lia|by vm_compute..|].
  exists r, s, d, v. split_and!; try done.
  - rewrite runSimulation_Returns in Hr by lia. injection Hr as <-.
    vm_compute in Hs. injection Hs as <-. vm_compute in Hev. by injection Hev as <-.
  - match type of Hatt with
    | ?visits = _ =>
        let three := eval vm_compute in visits in change visits with three in Hatt
    end.
    lia.
Defined.

(** * Further properties of the engine *)

(** ** The steps of a run, one after the other *)

(** What a FAULT step does to a table that has a slot. *)
Lemma step_ok_fault n before s :
  0 < n -> length before = n -> step_ok n before s -> status s = FAULT ->
  (Some (requestedPage s) ∉ before) /\
  exists i, i < n /\
    frames s = <[i := Some (requestedPage s)]> before /\
    replacedPage s = mjoin (before !! i) /\
    (indexOf before None = Some i \/ indexOf before None = None).
Proof.
  intros Hn Hlen (_ & _ & Hhit & _ & Hfill & Hfull) Hs. split.
  - intros Hin. apply Hhit in Hin. congruence.
  - destruct (indexOf before None) as [e|] eqn:He.
    + destruct (Hfill Hs e eq_refl) as [Hrep Hfr].
      pose proof (indexOf_lt _ _ _ He) as Hlt.
      apply indexOf_Some in He as [He _].
      exists e. rewrite He. split_and!; auto. lia.
    + destruct (Hfull Hs eq_refl) as [(-> & _)|(i & v & Hi & Hrep & Hfr)]; [lia|].
      exists i. rewrite Hi. split_and!; auto.
      apply lookup_lt_Some in Hi. lia.
Qed.

(** After its step the requested page is in the table. *)
Lemma step_ok_loaded n before s :
  0 < n -> length before = n -> step_ok n before s ->
  Some (requestedPage s) ∈ frames s.
Proof.
  intros Hn Hlen Hok. destruct (status s) eqn:Hs.
  - destruct Hok as (_ & _ & Hhit & Hsame & _).
    destruct (Hsame Hs) as [_ ->]. by apply Hhit.
  - destruct (step_ok_fault n before s Hn Hlen Hok Hs) as (_ & i & Hi & -> & _).
    apply list_elem_of_lookup. exists i. apply list_lookup_insert_eq. lia.
Qed.

(** A step keeps the empty slots behind the pages. *)
Lemma step_ok_packed n before s :
  length before = n -> step_ok n before s -> packed before -> packed (frames s).
Proof.
  intros Hlen Hok Hp. destruct (status s) eqn:Hs.
  - destruct Hok as (_ & _ & _ & Hsame & _). by destruct (Hsame Hs) as [_ ->].
  - destruct Hok as (_ & _ & _ & _ & Hfill & Hfull).
    destruct (indexOf before None) as [e|] eqn:He.
    + destruct (Hfill Hs e eq_refl) as [_ ->].
      apply indexOf_Some in He as [He Hmin].
      intros i j p Hi Hj.
      destruct (decide (i = e)) as [->|Hie].
      { rewrite list_lookup_insert_eq in Hi by (by eapply lookup_lt_Some). done. }
      rewrite list_lookup_insert_ne in Hi by done.
      assert (e < i).
      { destruct (decide (i < e)); [|lia]. by destruct (Hmin i). }
      destruct (decide (j = e)) as [->|Hje]; [done|].
      rewrite list_lookup_insert_ne in Hj by done. eauto.
    + destruct (Hfull Hs eq_refl) as [(_ & _ & ->)|(i0 & v & Hi0 & _ & ->)]; [done|].
      intros i j p Hi _.
      destruct (decide (i = i0)) as [->|Hie].
      { rewrite list_lookup_insert_eq in Hi by (by eapply lookup_lt_Some). done. }
      rewrite list_lookup_insert_ne in Hi by done.
      by destruct (full_lookup before i None He Hi).
Qed.

(** A packed table is its pages followed by its empty slots. *)
Lemma packed_shape fr :
  packed fr ->
  fr = (Some <$> residents fr) ++ replicate (length fr - length (residents fr)) None.
Proof.
  induction fr as [|[p|] fr IH]; intros Hp; [done|..].
  - change (residents (Some p :: fr)) with (p :: residents fr). simpl. f_equal.
    apply IH. intros i j q Hi Hj.
    pose proof (Hp (S i) (S j) q Hi Hj). lia.
  - assert (forall j, j < length fr -> fr !! j = Some None) as Hall.
    { intros j Hj. destruct (lookup_lt_is_Some_2 fr j Hj) as [[q|] Hq]; [|done].
      pose proof (Hp 0 (S j) q eq_refl Hq). lia. }
    assert (residents fr = []) as Hres.
    { apply elem_of_nil_inv. intros q [j Hj]%elem_of_residents%list_elem_of_lookup.
      rewrite Hall in Hj by (by eapply lookup_lt_Some). done. }
    change (residents (None :: fr)) with (residents fr). rewrite Hres. simpl.
    f_equal. apply list_eq. intros j.
    destruct (decide (j < length fr)) as [Hj|Hj].
    + rewrite Hall by done. symmetry. by apply lookup_replicate_2.
    + rewrite lookup_ge_None_2 by lia. symmetry. apply lookup_ge_None_2.
      rewrite length_replicate. lia.
Qed.

Lemma packed_replicate n : packed (replicate n None).
Proof. intros i j p _ Hj. by apply lookup_replicate in Hj as [[=] _]. Qed.

Section Steps.
Variables (pages : list number) (n : nat) (alg : AlgorithmType).
Hypothesis Hpages : Forall (fun p => JS.ge0 p = true) pages.

Local Abbreviation final := (state_at pages n alg (length pages)).

Lemma final_inv : Inv pages n alg (length pages) final.
Proof. by apply reachable_inv. Qed.

Lemma final_length : length (trace final) = length pages.
Proof. apply (inv_trace_length _ _ _ _ _ final_inv). Qed.

Lemma final_step i s :
  trace final !! i = Some s ->
  stepIndex s = i /\ pages !! i = Some (requestedPage s) /\
  step_ok n (frames_before n (trace final) i) s.
Proof. apply (inv_trace _ _ _ _ _ final_inv). Qed.

Lemma frames_before_S i s :
  trace final !! i = Some s -> frames_before n (trace final) (S i) = frames s.
Proof. intros H. simpl. by rewrite H. Qed.

(** What holds of the empty table and is kept by every step holds of the
    table before every step, and after the last. *)
Lemma frames_before_ind (Q : list (option number) -> Prop) :
  Q (replicate n None) ->
  (forall i s, trace final !! i = Some s ->
     Q (frames_before n (trace final) i) -> Q (frames s)) ->
  forall i, i <= length pages -> Q (frames_before n (trace final) i).
Proof.
  intros H0 HS i. induction i as [|i IH]; intros Hi; [done|].
  destruct (lookup_lt_is_Some_2 (trace final) i) as [s Hs];
    [rewrite final_length; lia|].
  rewrite (frames_before_S i s Hs). apply (HS i s Hs). apply IH. lia.
Qed.

Lemma frames_before_length i :
  i <= length pages -> length (frames_before n (trace final) i) = n.
Proof.
  apply (frames_before_ind (fun fr => length fr = n)); [apply length_replicate|].
  intros j s Hs _. by destruct (final_step j s Hs) as (_ & _ & ? & _).
Qed.

Lemma frames_before_nodup i :
  i <= length pages -> no_duplicates (frames_before n (trace final) i).
Proof.
  apply (frames_before_ind no_duplicates).
  - intros a b p Ha. by apply lookup_replicate in Ha as [[=] _].
  - intros j s Hs _. by destruct (final_step j s Hs) as (_ & _ & _ & ? & _).
Qed.

Lemma frames_before_packed i :
  i <= length pages -> packed (frames_before n (trace final) i).
Proof.
  apply (frames_before_ind packed); [apply packed_replicate|].
  intros j s Hs Hq. destruct (final_step j s Hs) as (_ & _ & Hok).
  eapply step_ok_packed; [|done..].
  apply frames_before_length. apply lookup_lt_Some in Hs. rewrite final_length in Hs. lia.
Qed.

(** The pages of the table before step [i] were referenced before it. *)
Lemma frames_before_referenced i p :
  i <= length pages -> Some p ∈ frames_before n (trace final) i -> p ∈ take i pages.
Proof.
  intros Hi Hp.
  pose proof (reachable_inv pages n alg i Hpages Hi) as HI.
  apply (inv_resident _ _ _ _ _ HI).
  rewrite (inv_current _ _ _ _ _ HI).
  rewrite (trace_prefix pages n alg i (length pages)) by lia.
  by rewrite frames_before_take.
Qed.

End Steps.

(** X1.  The result names the policy it was run with, and its steps follow
    the parsed reference sequence: step [k] has index [k] and requests the
    [k]-th page. *)
Theorem steps_follow_the_references rawRefString frameCount alg :
  match runSimulation rawRefString frameCount alg with
  | Returns r =>
      algorithm r = alg /\
      map requestedPage (steps r) = parseReferenceString rawRefString /\
      map stepIndex (steps r) = seq 0 (length (parseReferenceString rawRefString))
  | Throws _ => ~ (0 <= frameCount < 2 ^ 32)%Z
  end.
Proof.
  destruct (decide (0 <= frameCount < 2 ^ 32)%Z) as [Hok|Hbad].
  2: { by rewrite runSimulation_Throws. }
  rewrite runSimulation_Returns by done.
  set (pages := parseReferenceString rawRefString).
  set (n := Z.to_nat frameCount).
  pose proof (parseReferenceString_ge0 rawRefString) as Hpages. fold pages in Hpages.
  simpl. split; [done|].
  split; apply list_eq; intros i; rewrite list_lookup_fmap.
  - destruct (trace (state_at pages n alg (length pages)) !! i) as [s|] eqn:Hs; simpl.
    + by destruct (final_step pages n alg Hpages i s Hs) as (_ & -> & _).
    + apply lookup_ge_None in Hs. rewrite final_length in Hs by done.
      symmetry. by apply lookup_ge_None.
  - destruct (trace (state_at pages n alg (length pages)) !! i) as [s|] eqn:Hs; simpl.
    + destruct (final_step pages n alg Hpages i s Hs) as (-> & _).
      apply lookup_lt_Some in Hs. rewrite final_length in Hs by done.
      symmetry. by apply lookup_seq_lt.
    + apply lookup_ge_None in Hs. rewrite final_length in Hs by done.
      symmetry. apply lookup_ge_None. by rewrite length_seq.
Qed.

(** X2.  In a run with at least one frame, every step leaves the requested
    page in the table.  A FAULT step records the table it started from with
    one slot overwritten by the requested page: the first empty slot when
    there is one; the evicted page it records is what that slot held. *)
Theorem fault_overwrites_one_slot rawRefString frameCount alg :
  (1 <= frameCount)%Z ->
  let n := Z.to_nat frameCount in
  match runSimulation rawRefString frameCount alg with
  | Returns r =>
      forall k s, steps r !! k = Some s ->
        let before := frames_before n (steps r) k in
        Some (requestedPage s) ∈ frames s /\
        (status s = FAULT ->
           exists i, i < n /\
             frames s = <[i := Some (requestedPage s)]> before /\
             replacedPage s = mjoin (before !! i) /\
             forall e, indexOf before None = Some e -> i = e)
  | Throws _ => (2 ^ 32 <= frameCount)%Z
  end.
Proof.
  intros Hpos n.
  destruct (decide (0 <= frameCount < 2 ^ 32)%Z) as [Hok|Hbad].
  2: { rewrite runSimulation_Throws by done. lia. }
  rewrite runSimulation_Returns by done.
  set (pages := parseReferenceString rawRefString). fold n.
  pose proof (parseReferenceString_ge0 rawRefString) as Hpages. fold pages in Hpages.
  simpl. intros k s Hs.
  destruct (final_step pages n alg Hpages k s Hs) as (_ & _ & Hstep).
  assert (k < length pages) as Hk.
  { apply lookup_lt_Some in Hs. by rewrite final_length in Hs. }
  pose proof (frames_before_length pages n alg Hpages k ltac:(lia)) as Hlen.
  assert (0 < n) as Hn by lia.
  split; [by eapply step_ok_loaded|].
  intros Hfault.
  destruct (step_ok_fault n _ s Hn Hlen Hstep Hfault) as (_ & i & Hi & Hfr & Hrep & Hwhere).
  exists i. split_and!; [done..|].
  intros e He. destruct Hwhere as [Hw|Hw]; congruence.
Qed.

Lemma fault_overwrites_one_slot_witness :
  (1 <= 3)%Z /\
  match runSimulation "7,0,1,2,0,3"%string 3 CLOCK with
  | Returns r =>
      forall k s, steps r !! k = Some s ->
        let before := frames_before (Z.to_nat 3) (steps r) k in
        Some (requestedPage s) ∈ frames s /\
        (status s = FAULT ->
           exists i, i < Z.to_nat 3 /\
             frames s = <[i := Some (requestedPage s)]> before /\
             replacedPage s = mjoin (before !! i) /\
             forall e, indexOf before None = Some e -> i = e)
  | Throws _ => (2 ^ 32 <= 3)%Z
  end.
Proof.
  split; [lia|].
  exact (fault_overwrites_one_slot "7,0,1,2,0,3"%string 3 CLOCK ltac:(lia)).
Defined.

(** X3.  The table never has a page behind an empty slot: in the snapshot
    of every step the pages fill the first slots and the empty slots come
    last. *)
Theorem empty_slots_come_last rawRefString frameCount alg :
  match runSimulation rawRefString frameCount alg with
  | Returns r =>
      Forall (fun s =>
                packed (frames s) /\
                frames s = (Some <$> residents (frames s)) ++
                           replicate (length (frames s) - length (residents (frames s))) None)
             (steps r)
  | Throws _ => ~ (0 <= frameCount < 2 ^ 32)%Z
  end.
Proof.
  destruct (decide (0 <= frameCount < 2 ^ 32)%Z) as [Hok|Hbad].
  2: { by rewrite runSimulation_Throws. }
  rewrite runSimulation_Returns by done.
  set (pages := parseReferenceString rawRefString).
  set (n := Z.to_nat frameCount).
  pose proof (parseReferenceString_ge0 rawRefString) as Hpages. fold pages in Hpages.
  simpl. apply Forall_lookup. intros k s Hs.
  assert (k < length pages) as Hk.
  { apply lookup_lt_Some in Hs. by rewrite final_length in Hs. }
  pose proof (frames_before_packed pages n alg Hpages (S k) ltac:(lia)) as Hp.
  rewrite (frames_before_S pages n alg k s Hs) in Hp.
  split; [done|]. by apply packed_shape.
Qed.

(** ** Counting the pages *)

Lemma NoDup_residents fr : no_duplicates fr -> NoDup (residents fr).
Proof.
  induction fr as [|x fr IH]; intros Hnd; [constructor|].
  assert (no_duplicates fr) as Hnd'.
  { intros i j p Hi Hj. pose proof (Hnd (S i) (S j) p Hi Hj). lia. }
  destruct x as [p|].
  - change (residents (Some p :: fr)) with (p :: residents fr).
    constructor; [|auto].
    intros [j Hj]%elem_of_residents%list_elem_of_lookup.
    pose proof (Hnd 0 (S j) p eq_refl Hj). lia.
  - change (residents (None :: fr)) with (residents fr). auto.
Qed.

Lemma full_residents_length fr :
  indexOf fr None = None -> length (residents fr) = length fr.
Proof.
  intros Hfull%indexOf_None. induction fr as [|[p|] fr IH]; [done|..].
  - change (residents (Some p :: fr)) with (p :: residents fr). simpl.
    f_equal. apply IH. intros Hin. apply Hfull. by right.
  - destruct Hfull. by left.
Qed.

Lemma NoDup_length_le {A} (l k : list A) :
  NoDup l -> (forall x, x ∈ l -> x ∈ k) -> length l <= length k.
Proof. intros Hl Hsub. apply submseteq_length. by apply NoDup_submseteq. Qed.

Lemma distinct_snoc_old pages page :
  page ∈ pages -> length (distinct (pages ++ [page])) = length (distinct pages).
Proof.
  intros Hin. unfold distinct. apply Nat.le_antisymm.
  - apply NoDup_length_le; [apply NoDup_remove_dups|].
    intros x. rewrite !elem_of_remove_dups, elem_of_app, list_elem_of_singleton.
    intros [?| ->]; done.
  - apply NoDup_length_le; [apply NoDup_remove_dups|].
    intros x. rewrite !elem_of_remove_dups, elem_of_app. auto.
Qed.

Lemma distinct_snoc_new pages page :
  page ∉ pages -> length (distinct (pages ++ [page])) = S (length (distinct pages)).
Proof.
  intros Hnew. unfold distinct.
  assert (NoDup (page :: remove_dups pages)) as Hnd.
  { constructor; [by rewrite elem_of_remove_dups|apply NoDup_remove_dups]. }
  change (S (length (remove_dups pages))) with (length (page :: remove_dups pages)).
  apply Nat.le_antisymm.
  - apply NoDup_length_le; [apply NoDup_remove_dups|].
    intros x. rewrite elem_of_remove_dups, elem_of_app, list_elem_of_singleton.
    rewrite elem_of_cons, elem_of_remove_dups. tauto.
  - apply NoDup_length_le; [done|].
    intros x. rewrite elem_of_remove_dups, elem_of_app, list_elem_of_singleton.
    rewrite elem_of_cons, elem_of_remove_dups. tauto.
Qed.

Lemma distinct_take_le pages k :
  length (distinct (take k pages)) <= length (distinct pages).
Proof.
  unfold distinct. apply NoDup_length_le; [apply NoDup_remove_dups|].
  intros x. rewrite !elem_of_remove_dups. apply subseteq_take.
Qed.

Section Faults.
Variables (pages : list number) (n : nat) (alg : AlgorithmType).
Hypothesis Hpages : Forall (fun p => JS.ge0 p = true) pages.

Local Abbreviation steps_of_run := (trace (state_at pages n alg (length pages))).
Local Abbreviation is_fault := (fun s : SimulationStep => status s = FAULT).

(** The first reference to a page misses. *)
Lemma new_page_faults k s :
  steps_of_run !! k = Some s -> requestedPage s ∉ take k pages -> status s = FAULT.
Proof.
  intros Hs Hnew.
  destruct (final_step pages n alg Hpages k s Hs) as (_ & _ & _ & _ & Hhit & _).
  destruct (status s) eqn:Hst; [|done].
  destruct Hnew. apply (frames_before_referenced pages n alg Hpages).
  - apply lookup_lt_Some in Hs. rewrite final_length in Hs by done. lia.
  - by apply Hhit.
Qed.

Lemma take_steps_S k s page :
  steps_of_run !! k = Some s -> pages !! k = Some page ->
  take (S k) steps_of_run = take k steps_of_run ++ [s] /\
  take (S k) pages = take k pages ++ [page].
Proof. intros Hs Hp. by rewrite (take_S_r _ _ _ Hs), (take_S_r _ _ _ Hp). Qed.

Lemma faults_upto k :
  k <= length pages ->
  length (distinct (take k pages)) <= length (filter is_fault (take k steps_of_run)).
Proof.
  induction k as [|k IH]; intros Hk; [simpl; lia|].
  destruct (lookup_lt_is_Some_2 steps_of_run k) as [s Hs];
    [rewrite final_length by done; lia|].
  destruct (final_step pages n alg Hpages k s Hs) as (_ & Hpage & _).
  destruct (take_steps_S k s _ Hs Hpage) as [-> ->].
  rewrite filter_app, length_app.
  destruct (decide (requestedPage s ∈ take k pages)) as [Hold|Hnew].
  - rewrite distinct_snoc_old by done. specialize (IH ltac:(lia)). lia.
  - rewrite distinct_snoc_new by done.
    rewrite (filter_all is_fault [s]).
    + specialize (IH ltac:(lia)). simpl. lia.
    + constructor; [|constructor]. by apply (new_page_faults k).
Qed.

(** When the pages of the sequence are no more than the frames, no step
    finds the table full. *)
Lemma no_eviction k :
  length (distinct pages) <= n -> k <= length pages ->
  (forall p, p ∈ take k pages -> Some p ∈ frames_before n steps_of_run k) /\
  length (filter is_fault (take k steps_of_run)) = length (distinct (take k pages)) /\
  Forall (fun s => replacedPage s = None) (take k steps_of_run).
Proof.
  intros Hfit. induction k as [|k IH]; intros Hk.
  { split_and!; [|done|constructor]. intros p Hp. by apply elem_of_nil in Hp. }
  destruct IH as (Hall & Hcount & Hnone); [lia|].
  destruct (lookup_lt_is_Some_2 steps_of_run k) as [s Hs];
    [rewrite final_length by done; lia|].
  destruct (final_step pages n alg Hpages k s Hs) as (_ & Hpage & Hok).
  destruct (take_steps_S k s _ Hs Hpage) as [-> ->].
  rewrite (frames_before_S pages n alg k s Hs).
  rewrite filter_app, length_app, Forall_app, Forall_singleton.
  set (before := frames_before n steps_of_run k) in *.
  pose proof (frames_before_length pages n alg Hpages k ltac:(lia)) as Hlen.
  pose proof (frames_before_nodup pages n alg Hpages k ltac:(lia)) as Hnd.
  fold before in Hlen, Hnd.
  destruct Hok as (_ & _ & Hhit & Hsame & Hfill & Hfull).
  destruct (status s) eqn:Hst.
  - destruct (Hsame eq_refl) as [Hrep Hfr].
    assert (requestedPage s ∈ take k pages) as Hold.
    { apply (frames_before_referenced pages n alg Hpages); [lia|]. by apply Hhit. }
    rewrite distinct_snoc_old by done.
    rewrite (filter_none is_fault [s]) by (constructor; [congruence|constructor]).
    split_and!; [|simpl; lia|done|done].
    intros p [Hp| ->%list_elem_of_singleton]%elem_of_app; rewrite Hfr; [auto|].
    by apply Hhit.
  - assert (Some (requestedPage s) ∉ before) as Hmiss.
    { intros Hin. apply Hhit in Hin. congruence. }
    assert (requestedPage s ∉ take k pages) as Hnew by (intros Hin; auto).
    destruct (indexOf before None) as [e|] eqn:He.
    + destruct (Hfill eq_refl e eq_refl) as [Hrep Hfr].
      apply indexOf_Some in He as [He _].
      rewrite distinct_snoc_new by done.
      rewrite (filter_all is_fault [s]) by (constructor; [done|constructor]).
      split_and!; [|simpl; lia|done|done].
      rewrite Hfr.
      intros p [Hp| ->%list_elem_of_singleton]%elem_of_app.
      * apply Hall in Hp as [j Hj]%list_elem_of_lookup.
        apply list_elem_of_lookup. exists j.
        rewrite list_lookup_insert_ne; [done|]. intros ->. congruence.
      * apply list_elem_of_lookup. exists e.
        apply list_lookup_insert_eq. by eapply lookup_lt_Some.
    + exfalso.
      pose proof (full_residents_length before He) as Hres.
      pose proof (NoDup_residents before Hnd) as Hnd'.
      assert (length (requestedPage s :: residents before) <= length (distinct pages)) as Hle.
      { apply NoDup_length_le.
        - constructor; [by rewrite elem_of_residents|done].
        - intros x. unfold distinct. rewrite elem_of_remove_dups.
          intros [->|Hx%elem_of_residents]%elem_of_cons.
          + by eapply list_elem_of_lookup_2.
          + eapply subseteq_take.
            apply (frames_before_referenced pages n alg Hpages k); [lia|done]. }
      simpl in Hle. lia.
Qed.

End Faults.

(** X4.  Whatever the policy, the first reference to a page is a FAULT, so a
    run has at least as many faults as its sequence has distinct pages. *)
Theorem first_reference_faults rawRefString frameCount alg :
  match runSimulation rawRefString frameCount alg with
  | Returns r =>
      (forall k s, steps r !! k = Some s ->
         requestedPage s ∉ take k (parseReferenceString rawRefString) ->
         status s = FAULT) /\
      length (distinct (parseReferenceString rawRefString)) <= totalFaults r
  | Throws _ => ~ (0 <= frameCount < 2 ^ 32)%Z
  end.
Proof.
  destruct (decide (0 <= frameCount < 2 ^ 32)%Z) as [Hok|Hbad].
  2: { by rewrite runSimulation_Throws. }
  rewrite runSimulation_Returns by done.
  set (pages := parseReferenceString rawRefString).
  set (n := Z.to_nat frameCount).
  pose proof (parseReferenceString_ge0 rawRefString) as Hpages. fold pages in Hpages.
  simpl. split.
  - intros k s. by apply new_page_faults.
  - rewrite (inv_faults _ _ _ _ _ (final_inv pages n alg Hpages)).
    pose proof (faults_upto pages n alg Hpages (length pages) ltac:(lia)) as H.
    rewrite firstn_all in H.
    rewrite take_ge in H by (by rewrite final_length). done.
Qed.

(** X5.  When the sequence has no more distinct pages than there are frames,
    no policy ever evicts: every page referenced so far is in the table, no
    step records an evicted page, and the faults are the first references,
    one for each distinct page. *)
Theorem working_set_fits rawRefString frameCount alg :
  (Z.of_nat (length (distinct (parseReferenceString rawRefString))) <= frameCount)%Z ->
  match runSimulation rawRefString frameCount alg with
  | Returns r =>
      Forall (fun s => replacedPage s = None) (steps r) /\
      totalFaults r = length (distinct (parseReferenceString rawRefString)) /\
      forall k s p, steps r !! k = Some s ->
        p ∈ take (S k) (parseReferenceString rawRefString) -> Some p ∈ frames s
  | Throws _ => (2 ^ 32 <= frameCount)%Z
  end.
Proof.
  intros Hfit.
  destruct (decide (0 <= frameCount < 2 ^ 32)%Z) as [Hok|Hbad].
  2: { rewrite runSimulation_Throws by done. lia. }
  rewrite runSimulation_Returns by done.
  set (pages := parseReferenceString rawRefString) in *.
  set (n := Z.to_nat frameCount).
  pose proof (parseReferenceString_ge0 rawRefString) as Hpages. fold pages in Hpages.
  assert (length (distinct pages) <= n) as Hfit' by lia.
  simpl.
  destruct (no_eviction pages n alg Hpages (length pages) Hfit' ltac:(lia))
    as (_ & Hcount & Hnone).
  rewrite firstn_all in Hcount.
  rewrite take_ge in Hcount, Hnone by (by rewrite final_length).
  split_and!; [done| |].
  - by rewrite (inv_faults _ _ _ _ _ (final_inv pages n alg Hpages)).
  - intros k s p Hs Hp.
    assert (S k <= length pages) as Hk.
    { apply lookup_lt_Some in Hs. rewrite final_length in Hs by done. lia. }
    destruct (no_eviction pages n alg Hpages (S k) Hfit' Hk) as (Hall & _).
    rewrite (frames_before_S pages n alg k s Hs) in Hall. auto.
Qed.

Lemma working_set_fits_witness :
  (Z.of_nat (length (distinct (parseReferenceString "1,2,1,3,2,1"%string))) <= 3)%Z /\
  match runSimulation "1,2,1,3,2,1"%string 3 LRU with
  | Returns r =>
      Forall (fun s => replacedPage s = None) (steps r) /\
      totalFaults r = length (distinct (parseReferenceString "1,2,1,3,2,1"%string)) /\
      forall k s p, steps r !! k = Some s ->
        p ∈ take (S k) (parseReferenceString "1,2,1,3,2,1"%string) -> Some p ∈ frames s
  | Throws _ => (2 ^ 32 <= 3)%Z
  end.
Proof.
  assert (Z.of_nat (length (distinct (parseReferenceString "1,2,1,3,2,1"%string))) <= 3)%Z
    as Hfit by (vm_compute; discriminate).
  split; [exact Hfit|].
  exact (working_set_fits "1,2,1,3,2,1"%string 3 LRU Hfit).
Defined.

(** X6.  With a single frame every policy behaves alike: after each step the
    frame holds the requested page, and a reference is a HIT exactly when it
    repeats the reference just before it. *)
Theorem single_frame_hits rawRefString alg :
  match runSimulation rawRefString 1 alg with
  | Returns r =>
      forall k s, steps r !! k = Some s ->
        frames s = [Some (requestedPage s)] /\
        (status s = HIT <->
         exists j, k = S j /\
           parseReferenceString rawRefString !! j = Some (requestedPage s))
  | Throws _ => False
  end.
Proof.
  rewrite runSimulation_Returns by lia.
  set (pages := parseReferenceString rawRefString).
  change (Z.to_nat 1) with 1.
  pose proof (parseReferenceString_ge0 rawRefString) as Hpages. fold pages in Hpages.
  simpl.
  assert (forall k s, trace (state_at pages 1 alg (length pages)) !! k = Some s ->
            frames s = [Some (requestedPage s)]) as Hone.
  { intros k s Hs.
    destruct (final_step pages 1 alg Hpages k s Hs) as (_ & _ & Hok).
    assert (k < length pages) as Hk.
    { apply lookup_lt_Some in Hs. by rewrite final_length in Hs. }
    pose proof (frames_before_length pages 1 alg Hpages k ltac:(lia)) as Hlen.
    pose proof (step_ok_loaded 1 _ s ltac:(lia) Hlen Hok) as Hin.
    destruct Hok as (Hl & _).
    destruct (frames s) as [|x [|]]; simplify_eq/=.
    by apply list_elem_of_singleton in Hin as <-. }
  intros k s Hs. split; [by eapply Hone|].
  destruct (final_step pages 1 alg Hpages k s Hs) as (_ & Hpage & _ & _ & Hhit & _).
  rewrite Hhit. destruct k as [|j]; simpl.
  - split.
    + intros [[=]| []%elem_of_nil]%elem_of_cons.
    + intros (j & [=] & _).
  - destruct (lookup_lt_is_Some_2 (trace (state_at pages 1 alg (length pages))) j)
      as [s' Hs']; [apply lookup_lt_Some in Hs; lia|].
    rewrite Hs'. simpl. rewrite (Hone j s' Hs').
    destruct (final_step pages 1 alg Hpages j s' Hs') as (_ & Hpage' & _).
    rewrite list_elem_of_singleton. split.
    + intros [= Heq]. exists j. split; [done|]. by rewrite Hpage', Heq.
    + intros (j' & [= <-] & Hj'). congruence.
Qed.

(** ** The bookkeeping of CLOCK in the recorded steps *)

Lemma array_set_lookup {A} (hole : A) (arr : list A) i v :
  array_set hole arr i v !! i = Some v.
Proof.
  unfold array_set. case_decide.
  - by apply list_lookup_insert_eq.
  - rewrite lookup_app_r by lia.
    rewrite lookup_app_r; rewrite length_replicate; [|lia].
    by rewrite Nat.sub_diag.
Qed.

(** The step pushed last shows the table and, for CLOCK, the pointer and the
    bits the loop goes on with. *)
Lemma step_last pages n alg st page i :
  exists s, trace (step pages n alg st page i) = trace st ++ [s] /\
    frames s = currentFrames (step pages n alg st page i) /\
    metadata s =
      match alg with
      | CLOCK => Some (mkMetadata (clockPointer (step pages n alg st page i))
                         (referenceBits (step pages n alg st page i)))
      | _ => None
      end.
Proof.
  destruct alg; unfold step, record; repeat case_match; simpl; eauto.
Qed.

Section Clock.
Variables (pages : list number) (n : nat).
Hypothesis Hpages : Forall (fun p => JS.ge0 p = true) pages.

Local Abbreviation clock_at k := (state_at pages n CLOCK k).
Local Abbreviation clock_steps := (trace (state_at pages n CLOCK (length pages))).

Lemma recorded_state alg k s :
  trace (state_at pages n alg (length pages)) !! k = Some s ->
  frames s = currentFrames (state_at pages n alg (S k)) /\
  metadata s =
    match alg with
    | CLOCK => Some (mkMetadata (clockPointer (state_at pages n alg (S k)))
                       (referenceBits (state_at pages n alg (S k))))
    | _ => None
    end.
Proof.
  intros Hs.
  destruct (final_step pages n alg Hpages k s Hs) as (_ & Hpage & _).
  destruct (run_around pages n alg k _ Hpages Hpage)
    as (_ & _ & HS & _ & _ & s' & Hs' & Htr).
  destruct (step_last pages n alg (state_at pages n alg k) (requestedPage s) k)
    as (s'' & Htr' & Hfr & Hmeta).
  rewrite Htr in Htr'. apply app_inv_head in Htr'. injection Htr' as <-.
  rewrite Hs in Hs'. injection Hs' as <-. by rewrite HS.
Qed.

(** The bit of the slot that holds the requested page is 1 after the step. *)
Lemma clock_bit_of_requested k page :
  0 < n -> pages !! k = Some page ->
  forall j, currentFrames (clock_at (S k)) !! j = Some (Some page) ->
    referenceBits (clock_at (S k)) !! j = Some 1%Z.
Proof.
  intros Hn Hk.
  destruct (run_around pages n CLOCK k page Hpages Hk) as (HI & _ & HS & _).
  pose proof (inv_nodup _ _ _ _ _ HI) as Hnd.
  pose proof (inv_length _ _ _ _ _ HI) as Hlen.
  destruct (includes (currentFrames (clock_at k)) page) eqn:Hinc.
  - rewrite HS. unfold step. rewrite Hinc.
    destruct (indexOf (currentFrames (clock_at k)) (Some page)) as [hi|] eqn:Hhi.
    + simpl. intros j Hj. apply indexOf_Some in Hhi as [Hhi _].
      rewrite (Hnd j hi page Hj Hhi). apply array_set_lookup.
    + apply indexOf_None in Hhi. by apply includes_true in Hinc.
  - destruct (indexOf (currentFrames (clock_at k)) None) as [e|] eqn:He.
    + rewrite HS. unfold step. rewrite Hinc, He. simpl.
      pose proof (indexOf_lt _ _ _ He) as Hlt.
      rewrite array_set_lt by done. intros j Hj.
      destruct (decide (j = e)) as [->|Hne]; [apply array_set_lookup|].
      rewrite list_lookup_insert_ne in Hj by done.
      apply includes_false in Hinc. destruct Hinc. by eapply list_elem_of_lookup_2.
    + destruct (run_replacement pages n CLOCK k page Hpages Hn Hk Hinc He)
        as (i & v & s & _ & Hidx & _ & Hi & _ & _ & _ & _ & Hfr & -> & _ & _ & -> & _).
      rewrite Hfr. intros j Hj.
      destruct (decide (j = i)) as [->|Hne].
      * simpl in Hidx |- *. unfold replace_CLOCK in Hidx |- *.
        destruct (indexToReplace (clock_sweep _ _ _ _ _ _ _)) as [i'|] eqn:Hsw.
        -- simpl in Hidx |- *. injection Hidx as ->. apply array_set_lookup.
        -- congruence.
      * rewrite list_lookup_insert_ne in Hj by done.
        apply includes_false in Hinc. destruct Hinc. by eapply list_elem_of_lookup_2.
Qed.

(** While the table has an empty slot, the pointer stands on the first. *)
Lemma clock_pointer_on_first_empty k :
  k <= length pages ->
  forall e, indexOf (currentFrames (clock_at k)) None = Some e ->
    clockPointer (clock_at k) = e.
Proof.
  induction k as [|k IH]; intros Hk e He.
  - rewrite state_at_0 in He |- *. simpl in *.
    apply indexOf_Some in He as [He Hmin].
    destruct e as [|e]; [done|]. destruct (Hmin 0 ltac:(lia)).
    apply lookup_lt_Some in He. rewrite length_replicate in He.
    apply lookup_replicate_2. lia.
  - destruct (lookup_lt_is_Some_2 pages k) as [page Hpage]; [lia|].
    destruct (run_around pages n CLOCK k page Hpages Hpage)
      as (HI & _ & HS & Hcur & _).
    pose proof (inv_length _ _ _ _ _ HI) as Hlen.
    assert (packed (currentFrames (clock_at k))) as Hpk.
    { rewrite Hcur. apply frames_before_packed; [done|lia]. }
    specialize (IH ltac:(lia)).
    destruct (includes (currentFrames (clock_at k)) page) eqn:Hinc.
    + rewrite HS in He |- *. unfold step in He |- *. rewrite Hinc in He |- *.
      simpl in He |- *. auto.
    + destruct (indexOf (currentFrames (clock_at k)) None) as [e0|] eqn:He0.
      * rewrite HS in He |- *. unfold step in He |- *. rewrite Hinc, He0 in He |- *.
        simpl in He |- *. rewrite (IH e0 eq_refl).
        pose proof (indexOf_lt _ _ _ He0) as Hlt0.
        rewrite array_set_lt in He by done.
        apply indexOf_Some in He0 as [He0 Hmin0].
        pose proof (indexOf_lt _ _ _ He) as Hlt. rewrite length_insert in Hlt.
        apply indexOf_Some in He as [He Hmin].
        assert (e <> e0) as Hne.
        { intros ->. by rewrite list_lookup_insert_eq in He. }
        rewrite list_lookup_insert_ne in He by done.
        assert (e0 < e).
        { destruct (decide (e < e0)); [|lia]. by destruct (Hmin0 e). }
        assert (e = e0 + 1) as ->.
        { destruct (decide (e0 + 1 < e)) as [Hgap|]; [|lia].
          pose proof (Hmin (e0 + 1) Hgap) as Hfull.
          rewrite list_lookup_insert_ne in Hfull by lia.
          destruct (lookup_lt_is_Some_2 (currentFrames (clock_at k)) (e0 + 1))
            as [[p|] Hp]; [lia| |done].
          pose proof (Hpk e0 (e0 + 1) p He0 Hp). lia. }
        apply Nat.mod_small. lia.
      * exfalso.
        assert (0 < n) as Hn.
        { apply lookup_lt_Some in Hpage. pose proof (indexOf_lt _ _ _ He) as Hlt.
          pose proof (inv_length _ _ _ _ _
                        (reachable_inv pages n CLOCK (S k) Hpages Hk)). lia. }
        destruct (run_replacement pages n CLOCK k page Hpages Hn Hpage Hinc He0)
          as (i & v & s & _ & _ & _ & Hi & _ & _ & _ & _ & Hfr & Hfr' & _).
        rewrite Hfr', Hfr in He. apply indexOf_Some in He as [He _].
        destruct (decide (e = i)) as [->|Hne].
        -- rewrite list_lookup_insert_eq in He by (by eapply lookup_lt_Some). done.
        -- rewrite list_lookup_insert_ne in He by done.
           by destruct (full_lookup _ _ _ He0 He).
Qed.

End Clock.

(** X7.  Every step of a CLOCK run with at least one frame records the
    pointer and the reference bits: the pointer is on a frame, there is one
    bit per frame, each 0 or 1, and the bit of the frame that holds the
    requested page is 1. *)
Theorem clock_metadata_recorded rawRefString frameCount :
  (1 <= frameCount)%Z ->
  let n := Z.to_nat frameCount in
  match runSimulation rawRefString frameCount CLOCK with
  | Returns r =>
      forall k s, steps r !! k = Some s ->
        exists ptr bits,
          metadata s = Some (mkMetadata ptr bits) /\
          ptr < n /\ length bits = n /\ Forall is_bit bits /\
          forall j, frames s !! j = Some (Some (requestedPage s)) ->
            bits !! j = Some 1%Z
  | Throws _ => (2 ^ 32 <= frameCount)%Z
  end.
Proof.
  intros Hpos n.
  destruct (decide (0 <= frameCount < 2 ^ 32)%Z) as [Hok|Hbad].
  2: { rewrite runSimulation_Throws by done. lia. }
  rewrite runSimulation_Returns by done.
  set (pages := parseReferenceString rawRefString). fold n.
  pose proof (parseReferenceString_ge0 rawRefString) as Hpages. fold pages in Hpages.
  simpl. intros k s Hs.
  assert (S k <= length pages) as Hk.
  { apply lookup_lt_Some in Hs. rewrite final_length in Hs by done. lia. }
  destruct (recorded_state pages n Hpages CLOCK k s Hs) as [Hfr Hmeta].
  destruct (final_step pages n CLOCK Hpages k s Hs) as (_ & Hpage & _).
  destruct (inv_clock _ _ _ _ _ (reachable_inv pages n CLOCK (S k) Hpages Hk) eq_refl)
    as (Hlen & Hptr & Hbits).
  eexists _, _. split; [exact Hmeta|].
  split_and!; [lia|done|done|].
  rewrite Hfr. apply clock_bit_of_requested; [done|lia|done].
Qed.

Lemma clock_metadata_recorded_witness :
  (1 <= 3)%Z /\
  match runSimulation "7,0,1,2,0,3,0,4"%string 3 CLOCK with
  | Returns r =>
      forall k s, steps r !! k = Some s ->
        exists ptr bits,
          metadata s = Some (mkMetadata ptr bits) /\
          ptr < Z.to_nat 3 /\ length bits = Z.to_nat 3 /\ Forall is_bit bits /\
          forall j, frames s !! j = Some (Some (requestedPage s)) ->
            bits !! j = Some 1%Z
  | Throws _ => (2 ^ 32 <= 3)%Z
  end.
Proof.
  split; [lia|].
  exact (clock_metadata_recorded "7,0,1,2,0,3,0,4"%string 3 ltac:(lia)).
Defined.

(** X8.  As long as the table of a CLOCK run has an empty slot, the pointer
    a step records stands on the first empty slot: the loading of the first
    pages moves the pointer along with them.  The other policies record no
    pointer and no bits. *)
Theorem clock_pointer_follows_the_filling rawRefString frameCount alg :
  match runSimulation rawRefString frameCount alg with
  | Returns r =>
      forall k s, steps r !! k = Some s ->
        match metadata s with
        | Some m =>
            alg = CLOCK /\
            forall e, indexOf (frames s) None = Some e -> meta_clockPointer m = e
        | None => alg <> CLOCK
        end
  | Throws _ => ~ (0 <= frameCount < 2 ^ 32)%Z
  end.
Proof.
  destruct (decide (0 <= frameCount < 2 ^ 32)%Z) as [Hok|Hbad].
  2: { by rewrite runSimulation_Throws. }
  rewrite runSimulation_Returns by done.
  set (pages := parseReferenceString rawRefString).
  set (n := Z.to_nat frameCount).
  pose proof (parseReferenceString_ge0 rawRefString) as Hpages. fold pages in Hpages.
  simpl. intros k s Hs.
  assert (S k <= length pages) as Hk.
  { apply lookup_lt_Some in Hs. rewrite final_length in Hs by done. lia. }
  destruct (recorded_state pages n Hpages alg k s Hs) as [Hfr Hmeta].
  destruct alg; rewrite Hmeta; try done.
  split; [done|]. simpl. rewrite Hfr.
  by apply clock_pointer_on_first_empty.
Qed.

(** * Further properties of the parser *)

Lemma split_comma_nonempty s : JS.split_comma s <> [].
Proof.
  destruct s as [|c s]; [done|]. simpl.
  destruct (Ascii.eqb c ","); [done|]. by destruct (JS.split_comma s).
Qed.

Lemma split_comma_app a b :
  JS.split_comma (a ++ String "," b)%string = JS.split_comma a ++ JS.split_comma b.
Proof.
  induction a as [|c a IH]; [done|].
  change (String c a ++ String "," b)%string with (String c (a ++ String "," b)%string).
  cbn [JS.split_comma]. rewrite IH.
  destruct (Ascii.eqb c ","); [done|].
  pose proof (split_comma_nonempty a) as Hne.
  by destruct (JS.split_comma a).
Qed.

Lemma parseReferenceString_leading_space s :
  parseReferenceString (String " " s) = parseReferenceString s.
Proof.
  unfold parseReferenceString. do 3 f_equal.
  cbn [JS.split_comma]. change (Ascii.eqb " " ",") with false. cbv iota.
  pose proof (split_comma_nonempty s) as Hne.
  destruct (JS.split_comma s) as [|piece pieces]; [done|]. done.
Qed.

Lemma parseReferenceString_digit d :
  d < 10 -> parseReferenceString (digit_string d) = [number_of_nat d].
Proof.
  intros Hd. do 10 (destruct d as [|d]; [by vm_compute|]). lia.
Qed.

Lemma parseReferenceString_app a b :
  parseReferenceString (a ++ String "," b)%string =
  parseReferenceString a ++ parseReferenceString b.
Proof.
  unfold parseReferenceString.
  by rewrite split_comma_app, !map_app, !filter_app, !map_app, !filter_app.
Qed.

(** X9.  The parser works piece by piece: the pages of two texts joined by a
    comma are the pages of the first followed by the pages of the second. *)
Theorem parseReferenceString_comma a b :
  parseReferenceString (a ++ String "," b)%string =
  parseReferenceString a ++ parseReferenceString b.
Proof.
  unfold parseReferenceString. rewrite split_comma_app.
  rewrite map_app, filter_app, map_app, filter_app. done.
Qed.

(** X10.  The text the "Randomize" button builds from the integers it drew,
    each from 0 to 9, parses back to these integers, in their order: all of
    them are pages of the simulation. *)
Theorem random_string_round_trip arr :
  Forall (fun d => d < 10) arr ->
  parseReferenceString (randomString arr) = map number_of_nat arr.
Proof.
  unfold randomString. induction 1 as [|d arr Hd Harr IH]; [by vm_compute|].
  destruct arr as [|d' arr].
  - by apply parseReferenceString_digit.
  - change (join ", "%string (map digit_string (d :: d' :: arr)))
      with (String (ascii_of_nat (48 + d))
              (String "," (String " " (join ", "%string (map digit_string (d' :: arr)))))).
    change (String (ascii_of_nat (48 + d)) (String "," ?s))
      with (digit_string d ++ String "," s)%string.
    rewrite parseReferenceString_app, parseReferenceString_leading_space, IH.
    by rewrite parseReferenceString_digit.
Qed.

Lemma random_string_round_trip_witness :
  Forall (fun d => d < 10) [7; 0; 1; 2; 0; 3] /\
  parseReferenceString (randomString [7; 0; 1; 2; 0; 3]) =
  map number_of_nat [7; 0; 1; 2; 0; 3].
Proof.
  assert (Forall (fun d => d < 10) [7; 0; 1; 2; 0; 3]) as Hd
    by (repeat constructor; lia).
  split; [exact Hd|].
  exact (random_string_round_trip [7; 0; 1; 2; 0; 3] Hd).
Defined.

(** * Properties of the callers *)

(** ** [handleSimulate] and the playback *)

(** A text that trims to nothing has no comma: it is one piece. *)
Lemma trim_empty_split s :
  JS.trim s = EmptyString -> JS.split_comma s = [s].
Proof.
  induction s as [|c s IH]; [done|].
  unfold JS.trim. cbn [JS.trim_start].
  destruct (JS.is_white_space c) eqn:Hws.
  - intros Ht. cbn [JS.split_comma]. rewrite (IH Ht).
    destruct (Ascii.eqb c ",") eqn:Hc; [|done].
    apply Ascii.eqb_eq in Hc. subst c. done.
  - cbn [JS.trim_end]. rewrite Hws. by destruct (JS.trim_end s).
Qed.

Lemma parseReferenceString_blank s :
  JS.trim s = EmptyString -> parseReferenceString s = [].
Proof.
  intros Ht. unfold parseReferenceString. rewrite (trim_empty_split s Ht).
  simpl. rewrite Ht. by rewrite filter_cons, decide_False by (by intros [? _]).
Qed.

(** X20.  The texts [handleSimulate] refuses, those that trim to nothing,
    have no page: the guard skips no simulation that would have had a
    step. *)
Theorem blank_text_has_no_page refString :
  JS.trim refString = EmptyString ->
  parseReferenceString refString = [] /\
  forall frameCount, handleSimulate refString frameCount = Returns None.
Proof.
  intros Ht. split; [by apply parseReferenceString_blank|].
  intros frameCount. unfold handleSimulate. by rewrite decide_True.
Qed.

Lemma blank_text_has_no_page_witness :
  JS.trim "   "%string = EmptyString /\
  parseReferenceString "   "%string = [] /\
  forall frameCount, handleSimulate "   "%string frameCount = Returns None.
Proof.
  assert (JS.trim "   "%string = EmptyString) as Ht by reflexivity.
  split; [exact Ht|].
  exact (blank_text_has_no_page "   "%string Ht).
Defined.

Lemma parsedFrames_range frameCount :
  (1 <= parsedFrames frameCount <= 10)%Z.
Proof. unfold parsedFrames. lia. Qed.

Lemma handleSimulate_eq refString frameCount :
  JS.trim refString <> EmptyString ->
  let pages := parseReferenceString refString in
  let n := Z.to_nat (parsedFrames frameCount) in
  let run alg := result alg pages (state_at pages n alg (length pages)) in
  handleSimulate refString frameCount =
  Returns (Some [run FIFO; run LRU; run OPTIMAL; run CLOCK]).
Proof.
  intros Ht pages n run. unfold handleSimulate. rewrite decide_False by done.
  pose proof (parsedFrames_range frameCount) as Hr.
  by rewrite !runSimulation_Returns by lia.
Qed.

Lemma trace_requested pages n alg :
  Forall (fun p => JS.ge0 p = true) pages ->
  map requestedPage (trace (state_at pages n alg (length pages))) = pages.
Proof.
  intros Hpages. apply list_eq. intros i. rewrite list_lookup_fmap.
  destruct (trace (state_at pages n alg (length pages)) !! i) as [s|] eqn:Hs; simpl.
  - by destruct (final_step pages n alg Hpages i s Hs) as (_ & -> & _).
  - apply lookup_ge_None in Hs. rewrite final_length in Hs by done.
    symmetry. by apply lookup_ge_None.
Qed.

(** X11.  [handleSimulate] never throws, whatever the frame count of the
    form: it runs the simulation with a frame count from 1 to 10.  For a
    text that is not blank it sets four results, one for each tab, in the
    order FIFO, LRU, OPTIMAL, CLOCK; all four have the same steps' pages,
    those of the text, and tables of the clamped frame count.  For a blank
    text it sets nothing. *)
Theorem handleSimulate_results refString frameCount :
  let n := Z.to_nat (parsedFrames frameCount) in
  match handleSimulate refString frameCount with
  | Returns None => JS.trim refString = EmptyString
  | Returns (Some results) =>
      JS.trim refString <> EmptyString /\
      1 <= n <= 10 /\
      map algorithm results = [FIFO; LRU; OPTIMAL; CLOCK] /\
      (forall tab, exists r, getActiveResult results tab = Some r /\ algorithm r = tab) /\
      Forall (fun r =>
                map requestedPage (steps r) = parseReferenceString refString /\
                Forall (fun s => length (frames s) = n) (steps r)) results
  | Throws _ => False
  end.
Proof.
  intros n.
  destruct (decide (JS.trim refString = EmptyString)) as [Ht|Ht].
  { unfold handleSimulate. by rewrite decide_True. }
  rewrite handleSimulate_eq by done. fold n.
  set (pages := parseReferenceString refString).
  pose proof (parseReferenceString_ge0 refString) as Hpages. fold pages in Hpages.
  pose proof (parsedFrames_range frameCount) as Hr.
  split_and!; [done|lia|lia|done| |].
  - intros tab. destruct tab; eexists; by split.
  - repeat (apply Forall_cons; split; [|]); try by apply Forall_nil.
    all: split; [by apply trace_requested|].
    all: apply Forall_lookup; intros i s Hs.
    all: simpl in Hs; by destruct (final_step pages n _ Hpages i s Hs) as (_ & _ & ? & _).
Qed.

Lemma first_steps_length refString frameCount results :
  handleSimulate refString frameCount = Returns (Some results) ->
  maxSteps results = (Z.of_nat (length (parseReferenceString refString)) - 1)%Z /\
  Forall (fun r => forall i s, steps r !! i = Some s -> stepIndex s = i) results /\
  Forall (fun r => length (steps r) = length (parseReferenceString refString)) results.
Proof.
  intros Hrun.
  destruct (decide (JS.trim refString = EmptyString)) as [Ht|Ht].
  { unfold handleSimulate in Hrun. by rewrite decide_True in Hrun. }
  rewrite handleSimulate_eq in Hrun by done. injection Hrun as <-.
  set (pages := parseReferenceString refString).
  pose proof (parseReferenceString_ge0 refString) as Hpages. fold pages in Hpages.
  split_and!.
  - simpl. by rewrite final_length.
  - repeat (apply Forall_cons; split; [|]); try by apply Forall_nil.
    all: intros i s Hs; simpl in Hs.
    all: by destruct (final_step pages _ _ Hpages i s Hs) as (? & _).
  - repeat (apply Forall_cons; split; [|]); try by apply Forall_nil.
    all: simpl; by rewrite final_length.
Qed.

(** X12.  Once a text with at least one page is simulated, the step controls
    keep the current step on a step of the run: from a step between 0 and
    the last, "previous", "next" and the tick of the playback give such a
    step again, the clamping effect leaves it alone, and each of the four
    results has a step at that index, which is the one the grid shows. *)
Theorem playback_stays_on_a_step refString frameCount currentStep :
  let last := (Z.of_nat (length (parseReferenceString refString)) - 1)%Z in
  (0 <= currentStep <= last)%Z ->
  match handleSimulate refString frameCount with
  | Returns (Some results) =>
      maxSteps results = last /\
      Forall (fun p =>
                (0 <= p <= last)%Z /\ clampStep results p = p /\
                Forall (fun r => exists s, activeStepData r p = Some s /\
                                   stepIndex s = Z.to_nat p) results)
        [currentStep; previousStep currentStep; nextStep results currentStep;
         playbackStep results currentStep]
  | _ => False
  end.
Proof.
  intros last Hstep.
  assert (JS.trim refString <> EmptyString) as Ht.
  { intros Ht. apply parseReferenceString_blank in Ht.
    unfold last in Hstep. rewrite Ht in Hstep. simpl in Hstep. lia. }
  destruct (handleSimulate refString frameCount) as [[results|]|e] eqn:Hrun.
  2,3: by rewrite handleSimulate_eq in Hrun.
  destruct (first_steps_length _ _ _ Hrun) as (Hmax & Hidx & Hlen). fold last in Hmax.
  split; [done|].
  assert (forall p, (0 <= p <= last)%Z ->
            (0 <= p <= last)%Z /\ clampStep results p = p /\
            Forall (fun r => exists s, activeStepData r p = Some s /\
                               stepIndex s = Z.to_nat p) results) as Hon.
  { intros p Hp. split_and!; [lia..| |].
    - unfold clampStep. unfold maxSteps in Hmax.
      destruct results as [|r0 rest]; [done|]. cbv zeta. rewrite Hmax.
      destruct (Z.ltb_spec last p); [lia|done].
    - apply Forall_forall. intros r Hr.
      rewrite Forall_forall in Hidx, Hlen.
      unfold activeStepData. destruct (Z.ltb_spec p 0); [lia|].
      destruct (lookup_lt_is_Some_2 (steps r) (Z.to_nat p)) as [s Hs].
      { rewrite (Hlen r Hr). unfold last in Hp. lia. }
      exists s. split; [done|]. by apply (Hidx r Hr). }
  apply Forall_forall. intros p Hp. apply Hon.
  rewrite !elem_of_cons, elem_of_nil in Hp.
  destruct Hp as [->|[->|[->|[->|[]]]]].
  - done.
  - unfold previousStep. lia.
  - unfold nextStep. rewrite Hmax. lia.
  - unfold playbackStep. rewrite Hmax. destruct (Z.leb_spec last currentStep); lia.
Qed.

Lemma playback_stays_on_a_step_witness :
  (0 <= 2 <= Z.of_nat (length (parseReferenceString "7, 0, 1, 2"%string)) - 1)%Z /\
  match handleSimulate "7, 0, 1, 2"%string 3 with
  | Returns (Some results) =>
      maxSteps results =
        (Z.of_nat (length (parseReferenceString "7, 0, 1, 2"%string)) - 1)%Z /\
      Forall (fun p =>
                (0 <= p <= Z.of_nat (length (parseReferenceString "7, 0, 1, 2"%string)) - 1)%Z /\
                clampStep results p = p /\
                Forall (fun r => exists s, activeStepData r p = Some s /\
                                   stepIndex s = Z.to_nat p) results)
        [2%Z; previousStep 2; nextStep results 2; playbackStep results 2]
  | _ => False
  end.
Proof.
  assert (0 <= 2 <= Z.of_nat (length (parseReferenceString "7, 0, 1, 2"%string)) - 1)%Z
    as Hstep by (vm_compute; split; discriminate).
  split; [exact Hstep|].
  exact (playback_stays_on_a_step "7, 0, 1, 2"%string 3 2 Hstep).
Defined.

(** X13.  A text that is not blank but holds no page, such as a word, is
    simulated all the same: the four results have no step, the last step is
    counted as -1, and the clamping effect moves the current step from any
    step to -1, where no result has a step to show. *)
Theorem no_page_no_step refString frameCount :
  JS.trim refString <> EmptyString ->
  parseReferenceString refString = [] ->
  match handleSimulate refString frameCount with
  | Returns (Some results) =>
      length results = 4 /\
      Forall (fun r => steps r = [] /\ activeStepData r (-1) = None) results /\
      maxSteps results = (-1)%Z /\
      forall currentStep, (0 <= currentStep)%Z ->
        clampStep results currentStep = (-1)%Z /\
        clampStep results (clampStep results currentStep) = (-1)%Z
  | _ => False
  end.
Proof.
  intros Ht Hnone.
  rewrite handleSimulate_eq by done. rewrite Hnone. simpl.
  split_and!; [done| |done|].
  - by repeat constructor.
  - intros p Hp. change (Z.of_nat 0 - 1)%Z with (-1)%Z.
    destruct (Z.ltb_spec (-1) p); [done|lia].
Qed.

Lemma no_page_no_step_witness :
  JS.trim "page"%string <> EmptyString /\
  parseReferenceString "page"%string = [] /\
  match handleSimulate "page"%string 3 with
  | Returns (Some results) =>
      length results = 4 /\
      Forall (fun r => steps r = [] /\ activeStepData r (-1) = None) results /\
      maxSteps results = (-1)%Z /\
      forall currentStep, (0 <= currentStep)%Z ->
        clampStep results currentStep = (-1)%Z /\
        clampStep results (clampStep results currentStep) = (-1)%Z
  | _ => False
  end.
Proof.
  assert (JS.trim "page"%string <> EmptyString) as Ht by (vm_compute; discriminate).
  assert (parseReferenceString "page"%string = []) as Hnone by (vm_compute; reflexivity).
  split; [exact Ht|]. split; [exact Hnone|].
  exact (no_page_no_step "page"%string 3 Ht Hnone).
Defined.

(** ** The report and the grid *)

(** The first step of a run evicts nothing. *)
Lemma step_ok_first n s : step_ok n (replicate n None) s -> replacedPage s = None.
Proof.
  intros (_ & _ & _ & Hhit & Hfill & Hfull).
  destruct (status s) eqn:Hs; [by destruct (Hhit eq_refl)|].
  destruct (indexOf (replicate n None) None) as [e|] eqn:He.
  - by destruct (Hfill eq_refl e eq_refl).
  - destruct (Hfull eq_refl eq_refl) as [(_ & ? & _)|(i & v & Hi & _)]; [done|].
    by apply lookup_replicate in Hi as [[=] _].
Qed.

(** The page the report finds by comparing the two tables of a step is the
    evicted page the step records. *)
Lemma evicted_found n before s :
  no_duplicates before -> step_ok n before s ->
  report_evictedCell
    match list_find (left_the_table s) before with
    | Some (_, Some p) => EvictedPage p
    | _ => EvictedUndefined
    end = replacedPage s.
Proof.
  intros Hnd (_ & _ & Hiff & Hhit & Hfill & Hfull).
  destruct (list_find (left_the_table s) before) as [[i x]|] eqn:Hfind.
  - apply list_find_Some in Hfind as (Hi & Hleft & _).
    destruct x as [p|]; [|done]. destruct Hleft as [Hp Hgone%includes_false]. simpl.
    destruct (status s) eqn:Hs.
    + destruct (Hhit eq_refl) as [_ Hfr]. destruct Hgone. rewrite Hfr.
      by eapply list_elem_of_lookup_2.
    + destruct (indexOf before None) as [e|] eqn:He.
      * destruct (Hfill eq_refl e eq_refl) as [_ Hfr].
        apply indexOf_Some in He as [He _].
        destruct Hgone. rewrite Hfr. apply list_elem_of_lookup. exists i.
        rewrite list_lookup_insert_ne; [done|]. intros ->. congruence.
      * destruct (Hfull eq_refl eq_refl) as [(_ & _ & Hfr)|(i0 & v & Hi0 & Hrep & Hfr)].
        -- destruct Hgone. rewrite Hfr. by eapply list_elem_of_lookup_2.
        -- destruct (decide (i = i0)) as [->|Hne]; [congruence|].
           destruct Hgone. rewrite Hfr. apply list_elem_of_lookup. exists i.
           by rewrite list_lookup_insert_ne.
  - simpl. destruct (replacedPage s) as [v|] eqn:Hrep; [|done]. exfalso.
    apply list_find_None in Hfind. rewrite Forall_forall in Hfind.
    destruct (status s) eqn:Hs; [by destruct (Hhit eq_refl)|].
    assert (Some (requestedPage s) ∉ before) as Hmiss.
    { intros Hin. apply Hiff in Hin. congruence. }
    destruct (indexOf before None) as [e|] eqn:He.
    { destruct (Hfill eq_refl e eq_refl). congruence. }
    destruct (Hfull eq_refl eq_refl) as [(_ & ? & _)|(i0 & v' & Hi0 & Hrep' & Hfr)];
      [congruence|].
    assert (v' = v) as -> by congruence.
    apply (Hfind (Some v)); [by eapply list_elem_of_lookup_2|].
    split.
    + intros ->. destruct Hmiss. by eapply list_elem_of_lookup_2.
    + apply includes_false. rewrite Hfr. intros [j Hj]%list_elem_of_lookup.
      destruct (decide (j = i0)) as [->|Hne].
      * rewrite list_lookup_insert_eq in Hj by (by eapply lookup_lt_Some).
        injection Hj as Heq. destruct Hmiss. rewrite Heq.
        by eapply list_elem_of_lookup_2.
      * rewrite list_lookup_insert_ne in Hj by done. by destruct Hne; eapply Hnd.
Qed.

(** X14.  The report does not read the evicted page a step records: it looks
    for a page of the table before the step that the table after it lacks.
    For every step of every run both agree: the "Evicted" cell of a row
    shows the page the step records, and a dash when it records none.  The
    table the row starts from is the one the step started from. *)
Theorem report_shows_the_evicted_page rawRefString frameCount alg :
  match runSimulation rawRefString frameCount alg with
  | Returns r =>
      forall idx step, steps r !! idx = Some step ->
        report_framesBefore r idx step =
          Some (frames_before (Z.to_nat frameCount) (steps r) idx) /\
        exists evictedPage,
          report_evictedPage r idx step = Some evictedPage /\
          report_evictedCell evictedPage = replacedPage step
  | Throws _ => ~ (0 <= frameCount < 2 ^ 32)%Z
  end.
Proof.
  destruct (decide (0 <= frameCount < 2 ^ 32)%Z) as [Hok|Hbad].
  2: { by rewrite runSimulation_Throws. }
  rewrite runSimulation_Returns by done.
  set (pages := parseReferenceString rawRefString).
  set (n := Z.to_nat frameCount).
  pose proof (parseReferenceString_ge0 rawRefString) as Hpages. fold pages in Hpages.
  set (r := result alg pages (state_at pages n alg (length pages))).
  intros idx step Hs. change (steps r) with (trace (state_at pages n alg (length pages))) in *.
  destruct (final_step pages n alg Hpages idx step Hs) as (_ & _ & Hok').
  assert (idx < length pages) as Hidx.
  { apply lookup_lt_Some in Hs. by rewrite final_length in Hs. }
  pose proof (frames_before_nodup pages n alg Hpages idx ltac:(lia)) as Hnd.
  destruct idx as [|j].
  - split.
    + simpl. destruct Hok' as (-> & _). done.
    + exists EvictedNull. split; [done|]. simpl. symmetry. by eapply step_ok_first.
  - assert (report_framesBefore r (S j) step =
            Some (frames_before n (trace (state_at pages n alg (length pages))) (S j)))
      as Hbefore.
    { destruct (lookup_lt_is_Some_2 (trace (state_at pages n alg (length pages))) j)
        as [prev Hprev]; [rewrite final_length by done; lia|].
      unfold report_framesBefore. rewrite Nat.sub_succ, Nat.sub_0_r.
      change (steps r) with (trace (state_at pages n alg (length pages))).
      simpl. by rewrite Hprev. }
    split; [done|].
    unfold report_evictedPage. rewrite Hbefore.
    eexists. split; [done|]. by eapply evicted_found.
Qed.

(** X15.  In a run with at least one frame the grid highlights exactly one
    cell of every step, the one that holds the requested page: as a hit on a
    HIT step, as a change on a FAULT step. *)
Theorem one_cell_highlighted rawRefString frameCount alg :
  (1 <= frameCount)%Z ->
  match runSimulation rawRefString frameCount alg with
  | Returns r =>
      forall stepIdx step, steps r !! stepIdx = Some step ->
        exists slot, slot < Z.to_nat frameCount /\
          frames step !! slot = Some (Some (requestedPage step)) /\
          forall frameIdx,
            isHitFrame step frameIdx =
              bool_decide (status step = HIT /\ frameIdx = slot) /\
            isChanged r stepIdx step frameIdx =
              Some (bool_decide (status step = FAULT /\ frameIdx = slot))
  | Throws _ => (2 ^ 32 <= frameCount)%Z
  end.
Proof.
  intros Hpos.
  destruct (decide (0 <= frameCount < 2 ^ 32)%Z) as [Hok|Hbad].
  2: { rewrite runSimulation_Throws by done. lia. }
  rewrite runSimulation_Returns by done.
  set (pages := parseReferenceString rawRefString).
  set (n := Z.to_nat frameCount).
  pose proof (parseReferenceString_ge0 rawRefString) as Hpages. fold pages in Hpages.
  set (r := result alg pages (state_at pages n alg (length pages))).
  intros stepIdx step Hs.
  change (steps r) with (trace (state_at pages n alg (length pages))) in *.
  destruct (final_step pages n alg Hpages stepIdx step Hs) as (_ & _ & Hok').
  assert (stepIdx < length pages) as Hidx.
  { apply lookup_lt_Some in Hs. by rewrite final_length in Hs. }
  pose proof (frames_before_length pages n alg Hpages stepIdx ltac:(lia)) as Hlen.
  pose proof (step_ok_loaded n _ step ltac:(lia) Hlen Hok') as [slot Hslot]%list_elem_of_lookup.
  destruct Hok' as (Hl & Hnd & Hiff & _).
  exists slot. split_and!; [apply lookup_lt_Some in Hslot; lia|done|].
  intros frameIdx.
  assert (cell_holds (frames step) frameIdx (requestedPage step) =
          bool_decide (frameIdx = slot)) as Hcell.
  { unfold cell_holds. apply bool_decide_ext. split; [|by intros ->].
    intros Hf. by eapply Hnd. }
  split.
  - unfold isHitFrame. by rewrite Hcell, bool_decide_and.
  - unfold isChanged. rewrite Hcell, <- bool_decide_and.
    destruct (decide (status step = FAULT /\ frameIdx = slot)) as [Hc|Hc].
    2: { by rewrite !bool_decide_false by done. }
    rewrite !bool_decide_true by done. destruct Hc as [Hfault ->].
    destruct stepIdx as [|j]; [done|].
    destruct (lookup_lt_is_Some_2 (trace (state_at pages n alg (length pages))) j)
      as [prev Hprev]; [rewrite final_length by done; lia|].
    rewrite Nat.sub_succ, Nat.sub_0_r.
    change (steps r) with (trace (state_at pages n alg (length pages))).
    rewrite Hprev. simpl. f_equal.
    apply negb_true_iff. unfold cell_holds. apply bool_decide_eq_false.
    intros Hin. simpl in Hiff. rewrite Hprev in Hiff. simpl in Hiff.
    assert (status step = HIT) by (apply Hiff; by eapply list_elem_of_lookup_2).
    congruence.
Qed.

Lemma one_cell_highlighted_witness :
  (1 <= 3)%Z /\
  match runSimulation "7,0,1,2,0,3"%string 3 OPTIMAL with
  | Returns r =>
      forall stepIdx step, steps r !! stepIdx = Some step ->
        exists slot, slot < Z.to_nat 3 /\
          frames step !! slot = Some (Some (requestedPage step)) /\
          forall frameIdx,
            isHitFrame step frameIdx =
              bool_decide (status step = HIT /\ frameIdx = slot) /\
            isChanged r stepIdx step frameIdx =
              Some (bool_decide (status step = FAULT /\ frameIdx = slot))
  | Throws _ => (2 ^ 32 <= 3)%Z
  end.
Proof.
  split; [lia|].
  exact (one_cell_highlighted "7,0,1,2,0,3"%string 3 OPTIMAL ltac:(lia)).
Defined.

(** * The explanation of a step *)

(** The explanation of the step pushed last, by the branch taken. *)
Lemma step_explanation pages n alg st page k :
  exists s, trace (step pages n alg st page k) = trace st ++ [s] /\
    explanation s =
      if includes (currentFrames st) page then
        AlreadyInFrame page
          (from_option S 0 (indexOf (currentFrames st) (Some page)))
          match alg with
          | LRU => UpdatedAccessTime
          | CLOCK => SetReferenceBit
          | _ => NoNote
          end
      else
        match indexOf (currentFrames st) None with
        | Some e => LoadedIntoEmptyFrame page (e + 1)
        | None =>
            r_explanation
              (replace pages n alg st (currentFrames st) (referenceBits st) page k)
        end.
Proof.
  destruct alg; unfold step, record; repeat case_match; simpl; eauto.
Qed.

(** The explanation recorded for the reference of index [k], from the
    variables of the engine before it. *)
Lemma recorded_explanation pages n alg k s :
  Forall (fun p => JS.ge0 p = true) pages ->
  trace (state_at pages n alg (length pages)) !! k = Some s ->
  let st := state_at pages n alg k in
  let page := requestedPage s in
  currentFrames st = frames_before n (trace (state_at pages n alg (length pages))) k /\
  explanation s =
    if includes (currentFrames st) page then
      AlreadyInFrame page
        (from_option S 0 (indexOf (currentFrames st) (Some page)))
        match alg with
        | LRU => UpdatedAccessTime
        | CLOCK => SetReferenceBit
        | _ => NoNote
        end
    else
      match indexOf (currentFrames st) None with
      | Some e => LoadedIntoEmptyFrame page (e + 1)
      | None =>
          r_explanation
            (replace pages n alg st (currentFrames st) (referenceBits st) page k)
      end.
Proof.
  intros Hpages Hs st page.
  destruct (final_step pages n alg Hpages k s Hs) as (_ & Hpage & _).
  destruct (run_around pages n alg k _ Hpages Hpage)
    as (_ & _ & _ & Hcur & _ & s' & Hs' & Htr).
  destruct (step_explanation pages n alg (state_at pages n alg k) (requestedPage s) k)
    as (s'' & Htr' & Hexp).
  rewrite Htr in Htr'. apply app_inv_head in Htr'. injection Htr' as <-.
  rewrite Hs in Hs'. injection Hs' as <-. done.
Qed.

(** X16.  The explanation of a step names the frame its record shows,
    counting frames from 1: on a HIT the frame that holds the requested
    page, with the note of the policy (LRU: access time updated, CLOCK:
    reference bit set); on a FAULT that finds an empty slot, the first empty
    frame, which then holds the page. *)
Theorem explanation_names_the_frame rawRefString frameCount alg :
  match runSimulation rawRefString frameCount alg with
  | Returns r =>
      forall k s, steps r !! k = Some s ->
        let before := frames_before (Z.to_nat frameCount) (steps r) k in
        (status s = HIT ->
         exists slot, frames s !! slot = Some (Some (requestedPage s)) /\
           explanation s =
             AlreadyInFrame (requestedPage s) (slot + 1)
               match alg with
               | LRU => UpdatedAccessTime
               | CLOCK => SetReferenceBit
               | _ => NoNote
               end) /\
        (status s = FAULT -> forall e, indexOf before None = Some e ->
           frames s !! e = Some (Some (requestedPage s)) /\
           explanation s = LoadedIntoEmptyFrame (requestedPage s) (e + 1))
  | Throws _ => ~ (0 <= frameCount < 2 ^ 32)%Z
  end.
Proof.
  destruct (decide (0 <= frameCount < 2 ^ 32)%Z) as [Hok|Hbad].
  2: { by rewrite runSimulation_Throws. }
  rewrite runSimulation_Returns by done.
  set (pages := parseReferenceString rawRefString).
  set (n := Z.to_nat frameCount).
  pose proof (parseReferenceString_ge0 rawRefString) as Hpages. fold pages in Hpages.
  simpl. intros k s Hs.
  destruct (final_step pages n alg Hpages k s Hs) as (_ & _ & _ & _ & Hiff & Hhit & Hfill & _).
  destruct (recorded_explanation pages n alg k s Hpages Hs) as [Hcur Hexp].
  rewrite Hcur in Hexp. split.
  - intros Hst. destruct (Hhit Hst) as [_ Hfr].
    pose proof (proj1 Hiff Hst) as Hin.
    rewrite (proj2 (includes_true _ _) Hin) in Hexp.
    destruct (indexOf_elem _ _ Hin) as [slot Hslot]. rewrite Hslot in Hexp.
    apply indexOf_Some in Hslot as [Hslot _].
    exists slot. rewrite Hfr, Nat.add_1_r. done.
  - intros Hst e He. destruct (Hfill Hst e He) as [_ Hfr].
    assert (includes (frames_before n (trace (state_at pages n alg (length pages))) k)
              (requestedPage s) = false) as Hmiss.
    { apply includes_false. intros Hin. apply Hiff in Hin. congruence. }
    rewrite Hmiss, He in Hexp. split; [|done].
    rewrite Hfr. apply list_lookup_insert_eq. by eapply indexOf_lt.
Qed.

(** X17.  The explanation of a step that evicts a page [v] names [v] and
    gives the reason of the policy truthfully.  FIFO: oldest in the queue.
    LRU: the steps since the last reference to [v], which is the distance
    from that reference to the current one.  OPTIMAL: "will not be used
    again" exactly when [v] does not occur later in the sequence, "longest
    distance" otherwise.  CLOCK: the frame that held [v], counted from 1. *)
Theorem explanation_of_an_eviction rawRefString frameCount alg :
  match runSimulation rawRefString frameCount alg with
  | Returns r =>
      forall k s v, steps r !! k = Some s -> replacedPage s = Some v ->
        let pages := parseReferenceString rawRefString in
        let before := frames_before (Z.to_nat frameCount) (steps r) k in
        match alg with
        | FIFO => explanation s = ReplacedOldest v
        | LRU =>
            exists t, t < k /\ pages !! t = Some v /\
              (forall u, t < u < k -> pages !! u <> Some v) /\
              explanation s = ReplacedLeastRecentlyUsed v (Z.of_nat k - Z.of_nat t)
        | OPTIMAL =>
            explanation s =
              if decide (v ∈ drop (S k) pages)
              then ReplacedLongestDistance v else ReplacedNotUsedAgain v
        | CLOCK =>
            exists slot, before !! slot = Some (Some v) /\
              explanation s = ReplacedRefBitZero (Some v) (slot + 1)
        end
  | Throws _ => ~ (0 <= frameCount < 2 ^ 32)%Z
  end.
Proof.
  destruct (decide (0 <= frameCount < 2 ^ 32)%Z) as [Hok|Hbad].
  2: { by rewrite runSimulation_Throws. }
  rewrite runSimulation_Returns by done.
  set (pages := parseReferenceString rawRefString).
  set (n := Z.to_nat frameCount).
  pose proof (parseReferenceString_ge0 rawRefString) as Hpages. fold pages in Hpages.
  simpl. intros k s v Hs Hev.
  destruct (final_step pages n alg Hpages k s Hs)
    as (_ & Hpage & _ & _ & Hiff & Hhit & Hfill & Hfull).
  destruct (recorded_explanation pages n alg k s Hpages Hs) as [Hcur Hexp].
  set (st := state_at pages n alg k) in *.
  assert (k < length pages) as Hk by (by eapply lookup_lt_Some).
  pose proof (reachable_inv pages n alg k Hpages ltac:(lia)) as HI. fold st in HI.
  (* the step is a FAULT on a full table of at least one frame *)
  assert (status s = FAULT) as Hst.
  { destruct (status s) eqn:E; [|done]. destruct (Hhit eq_refl). congruence. }
  assert (indexOf (currentFrames st) None = None) as Hnone.
  { rewrite Hcur. destruct (indexOf _ None) as [e|] eqn:He; [|done].
    destruct (Hfill Hst e eq_refl). congruence. }
  assert (includes (currentFrames st) (requestedPage s) = false) as Hmiss.
  { rewrite Hcur. apply includes_false. intros Hin. apply Hiff in Hin. congruence. }
  assert (0 < n) as Hn.
  { destruct (decide (n = 0)) as [Hn0|]; [|lia]. rewrite <- Hcur in Hfull.
    destruct (Hfull Hst Hnone) as [(_ & ? & _)|(i & w & Hi & _)]; [congruence|].
    apply lookup_lt_Some in Hi. rewrite (inv_length _ _ _ _ _ HI) in Hi. lia. }
  destruct (run_replacement pages n alg k _ Hpages Hn Hpage Hmiss Hnone)
    as (i & v' & s' & Hs' & Hidx & Hrep & Hi & _ & _ & _ & Hev' & _).
  rewrite Hs in Hs'. injection Hs' as <-.
  assert (v' = v) as -> by congruence.
  fold st in Hidx, Hrep, Hi.
  rewrite Hmiss, Hnone in Hexp. rewrite Hexp. clear Hexp.
  assert (Some v ∈ currentFrames st) as Hin by (by eapply list_elem_of_lookup_2).
  destruct alg; unfold replace in *.
  - (* FIFO *)
    unfold replace_FIFO in *. destruct (fifoQueue st); simpl in *; congruence.
  - (* LRU *)
    unfold replace_LRU in *.
    destruct (decide (_ ≠ minus_one)); simpl in *; [|done].
    injection Hrep as Hrep. rewrite Hrep.
    pose proof (inv_lru _ _ _ _ _ HI eq_refl v) as Hlru.
    unfold lastAccessOr0.
    destruct (lruMap st !! v) as [t|].
    + destruct Hlru as (Ht & Hpt & Hlast). exists t. done.
    + destruct Hlru. by apply (inv_resident _ _ _ _ _ HI).
  - (* OPTIMAL *)
    unfold replace_OPTIMAL in *.
    destruct (decide (_ ≠ minus_one)) as [Hne|]; simpl in *; [|done].
    injection Hrep as Hrep.
    destruct (opt_scan_found pages k (currentFrames st)) as [[Hinit _]|(Hfd & _)].
    { rewrite Hinit in Hne. done. }
    rewrite Hfd, Hrep. unfold next_use. rewrite Nat.add_1_r.
    destruct (indexOf (drop (S k) pages) v) as [d|] eqn:Hd; simpl.
    + rewrite decide_True; [done|].
      apply indexOf_Some in Hd as [Hd _]. by eapply list_elem_of_lookup_2.
    + rewrite decide_False; [done|]. by apply indexOf_None.
  - (* CLOCK *)
    destruct (inv_clock _ _ _ _ _ HI eq_refl) as (Hbl & [Hptr|?] & Hbits); [|lia].
    unfold replace_CLOCK in *.
    destruct (clock_sweep_spec n st (currentFrames st) (referenceBits st)
                (clockPointer st) Hbl Hptr Hbits (n * 3) ltac:(lia))
      as (d & _ & Hslot & _ & _ & Hvictim & Hwhy & _).
    rewrite Hslot in *. simpl in *. injection Hidx as <-.
    exists ((clockPointer st + d) mod n). rewrite <- Hcur. split; [done|].
    rewrite Hwhy. by rewrite Hi.
Qed.

(** * What enters and what leaves the table *)

Lemma step_ok_pages n before s :
  no_duplicates before -> step_ok n before s ->
  (forall p, Some p ∈ before -> Some p ∈ frames s \/ replacedPage s = Some p) /\
  (forall p, Some p ∈ frames s -> Some p ∈ before \/ p = requestedPage s) /\
  (forall v, replacedPage s = Some v ->
     Some v ∈ before /\ (Some v ∉ frames s) /\ v <> requestedPage s).
Proof.
  intros Hnd (_ & _ & Hiff & Hhit & Hfill & Hfull).
  assert (frames s = before -> replacedPage s = None ->
          (forall p, Some p ∈ before -> Some p ∈ frames s \/ replacedPage s = Some p) /\
          (forall p, Some p ∈ frames s -> Some p ∈ before \/ p = requestedPage s) /\
          (forall v, replacedPage s = Some v ->
             Some v ∈ before /\ (Some v ∉ frames s) /\ v <> requestedPage s)) as Hsame.
  { intros -> ->. split_and!; [auto|auto|done]. }
  destruct (status s) eqn:Hs; [by destruct (Hhit eq_refl); apply Hsame|].
  assert (Some (requestedPage s) ∉ before) as Hmiss.
  { intros Hin. apply Hiff in Hin. congruence. }
  destruct (indexOf before None) as [e|] eqn:He.
  - destruct (Hfill eq_refl e eq_refl) as [Hrep Hfr].
    apply indexOf_Some in He as [He _]. rewrite Hfr, Hrep.
    split_and!; [| |done].
    + intros p [j Hj]%list_elem_of_lookup. left.
      apply list_elem_of_lookup. exists j.
      rewrite list_lookup_insert_ne; [done|]. intros ->. congruence.
    + intros p [->|Hp]%elem_of_insert_frames; auto.
  - destruct (Hfull eq_refl eq_refl) as [(_ & Hrep & Hfr)|(i & v & Hi & Hrep & Hfr)];
      [by apply Hsame|].
    rewrite Hfr, Hrep. split_and!.
    + intros p [j Hj]%list_elem_of_lookup.
      destruct (decide (j = i)) as [->|Hne]; [right; congruence|].
      left. apply list_elem_of_lookup. exists j. by rewrite list_lookup_insert_ne.
    + intros p [->|Hp]%elem_of_insert_frames; auto.
    + intros v' [= <-]. split_and!.
      * by eapply list_elem_of_lookup_2.
      * intros [j Hj]%list_elem_of_lookup.
        destruct (decide (j = i)) as [->|Hne].
        -- rewrite list_lookup_insert_eq in Hj by (by eapply lookup_lt_Some).
           injection Hj as Heq. destruct Hmiss. rewrite Heq.
           by eapply list_elem_of_lookup_2.
        -- rewrite list_lookup_insert_ne in Hj by done. by destruct Hne; eapply Hnd.
      * intros ->. destruct Hmiss. by eapply list_elem_of_lookup_2.
Qed.

(** X18.  No page leaves the table unseen and none enters unasked: a page
    of the table before a step is in the table after it unless the step
    records it as evicted; a page of the table after a step was there before
    or is the requested page; and the evicted page a step records was in the
    table, is no longer, and is not the requested page. *)
Theorem pages_leave_only_by_eviction rawRefString frameCount alg :
  match runSimulation rawRefString frameCount alg with
  | Returns r =>
      forall k s, steps r !! k = Some s ->
        let before := frames_before (Z.to_nat frameCount) (steps r) k in
        (forall p, Some p ∈ before -> Some p ∈ frames s \/ replacedPage s = Some p) /\
        (forall p, Some p ∈ frames s -> Some p ∈ before \/ p = requestedPage s) /\
        (forall v, replacedPage s = Some v ->
           Some v ∈ before /\ (Some v ∉ frames s) /\ v <> requestedPage s)
  | Throws _ => ~ (0 <= frameCount < 2 ^ 32)%Z
  end.
Proof.
  destruct (decide (0 <= frameCount < 2 ^ 32)%Z) as [Hok|Hbad].
  2: { by rewrite runSimulation_Throws. }
  rewrite runSimulation_Returns by done.
  set (pages := parseReferenceString rawRefString).
  set (n := Z.to_nat frameCount).
  pose proof (parseReferenceString_ge0 rawRefString) as Hpages. fold pages in Hpages.
  simpl. intros k s Hs.
  destruct (final_step pages n alg Hpages k s Hs) as (_ & _ & Hok').
  apply (step_ok_pages n); [|done].
  apply frames_before_nodup; [done|].
  apply lookup_lt_Some in Hs. rewrite final_length in Hs by done. lia.
Qed.

(** * The policies side by side *)

(** A step that evicts nothing is determined by the table it starts from
    and the page it requests. *)
Lemma step_ok_same n before s1 s2 :
  step_ok n before s1 -> step_ok n before s2 ->
  requestedPage s1 = requestedPage s2 ->
  replacedPage s1 = None -> replacedPage s2 = None ->
  status s1 = status s2 /\ frames s1 = frames s2.
Proof.
  intros (_ & _ & Hiff1 & Hhit1 & Hfill1 & Hfull1)
         (_ & _ & Hiff2 & Hhit2 & Hfill2 & Hfull2) Hpage Hrep1 Hrep2.
  assert (status s1 = status s2) as Hst.
  { rewrite <- Hpage in Hiff2.
    destruct (decide (Some (requestedPage s1) ∈ before)) as [Hin|Hout].
    - rewrite (proj2 Hiff1 Hin). symmetry. by apply Hiff2.
    - destruct (status s1); [by destruct Hout; apply Hiff1|].
      destruct (status s2); [by destruct Hout; apply Hiff2|done]. }
  split; [done|]. rewrite Hst in *.
  destruct (status s2) eqn:E.
  - destruct (Hhit1 eq_refl) as [_ ->]. by destruct (Hhit2 eq_refl) as [_ ->].
  - destruct (indexOf before None) as [e|] eqn:He.
    + destruct (Hfill1 eq_refl e eq_refl) as [_ ->].
      destruct (Hfill2 eq_refl e eq_refl) as [_ ->]. by rewrite Hpage.
    + destruct (Hfull1 eq_refl eq_refl) as [(_ & _ & ->)|(? & ? & _ & ? & _)];
        [|congruence].
      destruct (Hfull2 eq_refl eq_refl) as [(_ & _ & ->)|(? & ? & _ & ? & _)];
        [done|congruence].
Qed.

(** X19.  When the sequence has no more distinct pages than there are
    frames, the policies cannot be told apart: any two of them record the
    same status and the same table at every step. *)
Theorem policies_agree_when_pages_fit rawRefString frameCount alg1 alg2 :
  (Z.of_nat (length (distinct (parseReferenceString rawRefString))) <= frameCount)%Z ->
  match runSimulation rawRefString frameCount alg1,
        runSimulation rawRefString frameCount alg2 with
  | Returns r1, Returns r2 =>
      map status (steps r1) = map status (steps r2) /\
      map frames (steps r1) = map frames (steps r2) /\
      totalFaults r1 = totalFaults r2
  | Throws _, Throws _ => (2 ^ 32 <= frameCount)%Z
  | _, _ => False
  end.
Proof.
  intros Hfit.
  destruct (decide (0 <= frameCount < 2 ^ 32)%Z) as [Hok|Hbad].
  2: { rewrite !runSimulation_Throws by done. lia. }
  rewrite !runSimulation_Returns by done.
  set (pages := parseReferenceString rawRefString) in *.
  set (n := Z.to_nat frameCount).
  pose proof (parseReferenceString_ge0 rawRefString) as Hpages. fold pages in Hpages.
  assert (length (distinct pages) <= n) as Hfit' by lia.
  simpl.
  set (T1 := trace (state_at pages n alg1 (length pages))).
  set (T2 := trace (state_at pages n alg2 (length pages))).
  destruct (no_eviction pages n alg1 Hpages (length pages) Hfit' ltac:(lia))
    as (_ & Hcount1 & Hnone1).
  destruct (no_eviction pages n alg2 Hpages (length pages) Hfit' ltac:(lia))
    as (_ & Hcount2 & Hnone2).
  rewrite take_ge in Hcount1, Hnone1, Hcount2, Hnone2 by (by rewrite final_length).
  fold T1 in Hcount1, Hnone1. fold T2 in Hcount2, Hnone2.
  rewrite Forall_lookup in Hnone1, Hnone2.
  assert (forall k, k <= length pages ->
            frames_before n T1 k = frames_before n T2 k) as Hbefore.
  { induction k as [|k IH]; intros Hk; [done|].
    destruct (lookup_lt_is_Some_2 T1 k) as [s1 Hs1];
      [unfold T1; rewrite final_length by done; lia|].
    destruct (lookup_lt_is_Some_2 T2 k) as [s2 Hs2];
      [unfold T2; rewrite final_length by done; lia|].
    unfold T1 in Hs1 |- *. unfold T2 in Hs2 |- *.
    rewrite (frames_before_S pages n alg1 k s1 Hs1).
    rewrite (frames_before_S pages n alg2 k s2 Hs2).
    destruct (final_step pages n alg1 Hpages k s1 Hs1) as (_ & Hp1 & Hok1).
    destruct (final_step pages n alg2 Hpages k s2 Hs2) as (_ & Hp2 & Hok2).
    fold T1 in Hok1. fold T2 in Hok2. rewrite IH in Hok1 by lia.
    eapply step_ok_same; [exact Hok1|exact Hok2|congruence|eauto..]. }
  assert (forall k s1 s2, T1 !! k = Some s1 -> T2 !! k = Some s2 ->
            status s1 = status s2 /\ frames s1 = frames s2) as Hsame.
  { intros k s1 s2 Hs1 Hs2.
    assert (k < length pages) as Hk.
    { apply lookup_lt_Some in Hs1. unfold T1 in Hs1. by rewrite final_length in Hs1. }
    destruct (final_step pages n alg1 Hpages k s1 Hs1) as (_ & Hp1 & Hok1).
    destruct (final_step pages n alg2 Hpages k s2 Hs2) as (_ & Hp2 & Hok2).
    fold T1 in Hok1. fold T2 in Hok2. rewrite Hbefore in Hok1 by lia.
    eapply step_ok_same; [exact Hok1|exact Hok2|congruence|eauto..]. }
  assert (length T1 = length T2) as Hlen.
  { unfold T1, T2. by rewrite !final_length. }
  split_and!.
  - apply list_eq. intros k. rewrite !list_lookup_fmap.
    destruct (T1 !! k) as [s1|] eqn:Hs1, (T2 !! k) as [s2|] eqn:Hs2; simpl; try done.
    + f_equal. by eapply Hsame.
    + apply lookup_lt_Some in Hs1. apply lookup_ge_None in Hs2. lia.
    + apply lookup_lt_Some in Hs2. apply lookup_ge_None in Hs1. lia.
  - apply list_eq. intros k. rewrite !list_lookup_fmap.
    destruct (T1 !! k) as [s1|] eqn:Hs1, (T2 !! k) as [s2|] eqn:Hs2; simpl; try done.
    + f_equal. by eapply Hsame.
    + apply lookup_lt_Some in Hs1. apply lookup_ge_None in Hs2. lia.
    + apply lookup_lt_Some in Hs2. apply lookup_ge_None in Hs1. lia.
  - rewrite (inv_faults _ _ _ _ _ (final_inv pages n alg1 Hpages)).
    rewrite (inv_faults _ _ _ _ _ (final_inv pages n alg2 Hpages)).
    fold T1 T2. rewrite firstn_all in Hcount1, Hcount2. congruence.
Qed.

Lemma policies_agree_when_pages_fit_witness :
  (Z.of_nat (length (distinct (parseReferenceString "4,1,4,2,1,3,4"%string))) <= 4)%Z /\
  match runSimulation "4,1,4,2,1,3,4"%string 4 FIFO,
        runSimulation "4,1,4,2,1,3,4"%string 4 CLOCK with
  | Returns r1, Returns r2 =>
      map status (steps r1) = map status (steps r2) /\
      map frames (steps r1) = map frames (steps r2) /\
      totalFaults r1 = totalFaults r2
  | Throws _, Throws _ => (2 ^ 32 <= 4)%Z
  | _, _ => False
  end.
Proof.
  assert (Z.of_nat (length (distinct (parseReferenceString "4,1,4,2,1,3,4"%string))) <= 4)%Z
    as Hfit by (vm_compute; discriminate).
  split; [exact Hfit|].
  exact (policies_agree_when_pages_fit "4,1,4,2,1,3,4"%string 4 FIFO CLOCK Hfit).
Defined.
